(** * Session and token authentication broker of middlewared

    A shallow embedding of [middlewared/auth.py] and
    [middlewared/plugins/auth.py]: the credential classes, [Token] and
    [TokenManager], [Session] and [SessionManager], [is_internal_session]
    and the [AuthService] entry points, followed by the properties
    established about them.

    Python objects that are shared and mutated in place (credential
    objects, [Token] objects, connections) live in stores indexed by an
    object identity; the dictionaries [TokenManager.tokens] and
    [SessionManager.sessions] are finite maps.  Readings of
    [time.monotonic()] are inputs of the operations that take them; they
    are rationals (every finite float is one).  The operations depend on
    a token's clock only through the answer of [Token_is_valid], which
    compares with the exact sum [last_used_at + ttl]; the binary64
    arithmetic of that sum is [Token_is_valid_binary64]. *)

From Stdlib Require Import QArith Lqa.
From stdpp Require Import gmap strings list fin_maps.

Local Open Scope string_scope.

(** ** Monotonic clock readings *)

Definition Qlt_bool (x y : Q) : bool := negb (Qle_bool y x).

(** ** Results of Python calls *)

(** [DanglingReference] is raised when an object identity is not in its
    store; no Python execution holds such a reference. *)
Inductive exn :=
  | KeyError
  | AttributeError
  | CallError (msg : string)
  | DanglingReference.

(** [Diverge] is the result of a loop or recursion that was still running
    when its fuel ran out. *)
Inductive outcome (A : Type) :=
  | Done (a : A)
  | Raise (e : exn)
  | Diverge.
Arguments Done {A} a.
Arguments Raise {A} e.
Arguments Diverge {A}.

(** ** Data model *)

(** JSON-like values held in a token's [attributes] dictionary. *)
Inductive JValue :=
  | JNull
  | JBool (b : bool)
  | JInt (z : Z)
  | JStr (s : string).

(** Modelled from the spec: [middlewared.utils.origin] is not part of the
    sources; an origin is a tagged union, Unix socket with the peer uid or
    TCP with address and port. *)
Inductive Origin :=
  | UnixSocketOrigin (uid : Z)
  | TCPIPOrigin (addr : string) (port : Z).

(** [isinstance(origin, type(self))] for the two origin classes; a request
    without origin ([None]) is an instance of neither. *)
Definition isinstance_origin (origin : option Origin) (self : Origin) : bool :=
  match origin, self with
  | Some (UnixSocketOrigin _), UnixSocketOrigin _ => true
  | Some (TCPIPOrigin _ _), TCPIPOrigin _ _ => true
  | _, _ => false
  end.

(** Modelled from the spec: [Origin.match] compares the discriminator, the
    uid of a Unix socket origin and the address of a TCP origin. *)
Definition Origin_match (self origin : Origin) : bool :=
  match self, origin with
  | UnixSocketOrigin uid, UnixSocketOrigin uid' => bool_decide (uid = uid')
  | TCPIPOrigin addr _, TCPIPOrigin addr' _ => bool_decide (addr = addr')
  | _, _ => false
  end.

(** [middlewared.utils.allowlist.Allowlist] is not part of the sources: an
    allowlist object is represented by the decision its [authorize] method
    computes. *)
Definition Allowlist := string → string → bool.

Record User := mkUser {
  username : string;
  privilege_allowlist : Allowlist;
  privilege_web_shell : bool;
}.

Record ApiKey := mkApiKey {
  api_key_id : Z;
  api_key_name : string;
  api_key_authorize : string → string → bool;
}.

(** Object identities. *)
Abbreviation cred_ref := nat.
Abbreviation tok_ref := nat.

(** The classes of [middlewared/auth.py] and [TokenSessionManagerCredentials].
    User credentials carry [self.user] and [self.allowlist]. *)
Inductive Credentials :=
  | SessionManagerCredentials
  | UserSessionManagerCredentials (user : User) (allowlist : Allowlist)
  | UnixSocketSessionManagerCredentials (user : User) (allowlist : Allowlist)
  | RootTcpSocketSessionManagerCredentials
  | LoginPasswordSessionManagerCredentials (user : User) (allowlist : Allowlist)
  | ApiKeySessionManagerCredentials (api_key : ApiKey)
  | TrueNasNodeSessionManagerCredentials
  | TokenSessionManagerCredentials (token : tok_ref).

(** [class Token]; [self.manager] is the one [TokenManager] of the service. *)
Record Token := mkToken {
  token : string;
  ttl : Z;
  attributes : gmap string JValue;
  match_origin : option Origin;
  parent_credentials : option cred_ref;
  last_used_at : Q;
}.

(** [class Session]; [self.app] is the connection, known by its session id. *)
Record Session := mkSession {
  credentials : cred_ref;
  app : string;
  created_at : Q;
}.

(** A connection, as far as this code reads and writes it. *)
Record App := mkApp {
  origin : option Origin;
  authenticated : bool;
  authenticated_credentials : option cred_ref;
  callbacks : list string;
  response_closed : bool;
}.

Inductive EventType := ADDED | REMOVED.

(** [middleware.send_event(name, type, fields=dict(id=..., ...))]; of the
    fields only [id] is kept. *)
Record Event := mkEvent {
  event_name : string;
  event_type : EventType;
  event_id : string;
}.

(** Calls made through [middleware.call]. *)
Inductive Call :=
  | CallAuthenticate (username password : string)
  | CallTwofactorConfig
  | CallTwofactorVerify (otp_token : option string).

Record State := mkState {
  creds : gmap cred_ref Credentials;
  token_objs : gmap tok_ref Token;
  tokens : gmap string tok_ref;
  sessions : gmap string Session;
  apps : gmap string App;
  events : list Event;
  calls : list Call;
}.

Definition init_state : State :=
  mkState ∅ ∅ ∅ ∅ ∅ [] [].

Definition set_creds (f : gmap cred_ref Credentials → gmap cred_ref Credentials) (st : State) : State :=
  mkState (f (creds st)) (token_objs st) (tokens st) (sessions st) (apps st) (events st) (calls st).
Definition set_token_objs (f : gmap tok_ref Token → gmap tok_ref Token) (st : State) : State :=
  mkState (creds st) (f (token_objs st)) (tokens st) (sessions st) (apps st) (events st) (calls st).
Definition set_tokens (f : gmap string tok_ref → gmap string tok_ref) (st : State) : State :=
  mkState (creds st) (token_objs st) (f (tokens st)) (sessions st) (apps st) (events st) (calls st).
Definition set_sessions (f : gmap string Session → gmap string Session) (st : State) : State :=
  mkState (creds st) (token_objs st) (tokens st) (f (sessions st)) (apps st) (events st) (calls st).
Definition set_apps (f : gmap string App → gmap string App) (st : State) : State :=
  mkState (creds st) (token_objs st) (tokens st) (sessions st) (f (apps st)) (events st) (calls st).
Definition set_events (f : list Event → list Event) (st : State) : State :=
  mkState (creds st) (token_objs st) (tokens st) (sessions st) (apps st) (f (events st)) (calls st).
Definition set_calls (f : list Call → list Call) (st : State) : State :=
  mkState (creds st) (token_objs st) (tokens st) (sessions st) (apps st) (events st) (f (calls st)).

(** ** A state and exception monad *)

Definition M (A : Type) : Type := State → outcome (A * State).

Definition ret {A} (a : A) : M A := λ st, Done (a, st).
Definition bind {A B} (m : M A) (k : A → M B) : M B :=
  λ st, match m st with
        | Done (a, st') => k a st'
        | Raise e => Raise e
        | Diverge => Diverge
        end.
Definition raise {A} (e : exn) : M A := λ _, Raise e.
Definition gets {A} (f : State → A) : M A := λ st, Done (f st, st).
Definition modify (f : State → State) : M unit := λ st, Done (tt, f st).

Notation "'let*' x ':=' c 'in' k" := (bind c (λ x, k))
  (at level 10, x pattern, c at level 100, k at level 200).
Notation "c ';;' k" := (bind c (λ _, k))
  (at level 100, k at level 200, right associativity).

(** ** [class Token] *)

Definition Token_new (tok : string) (ttl : Z) (attributes : gmap string JValue)
    (match_origin : option Origin) (parent_credentials : option cred_ref) (now : Q) : Token :=
  mkToken tok ttl attributes match_origin parent_credentials now.

Definition Token_is_valid (now : Q) (self : Token) : bool :=
  Qlt_bool now (last_used_at self + inject_Z (ttl self)).

Definition Token_notify_used (now : Q) (self : Token) : Token :=
  mkToken (token self) (ttl self) (attributes self) (match_origin self)
          (parent_credentials self) now.

(** ** [class TokenManager] *)

(** [generate_token(48, url_safe=True)] is random: its result is the
    argument [new_id]. *)
Definition TokenManager_create (now : Q) (new_id : string) (ttl : Z)
    (attributes : option (gmap string JValue)) (match_origin : option Origin)
    (parent_credentials : option cred_ref) : M tok_ref :=
  let attributes := default ∅ attributes in
  let* r := gets (λ st, fresh (dom (token_objs st))) in
  modify (set_token_objs <[r := Token_new new_id ttl attributes match_origin parent_credentials now]>);;
  modify (set_tokens <[new_id := r]>);;
  ret r.

Definition TokenManager_get (now : Q) (id : string) (origin : option Origin) : M (option tok_ref) :=
  let* found := gets (λ st, tokens st !! id) in
  match found with
  | None => ret None
  | Some r =>
    let* obj := gets (λ st, token_objs st !! r) in
    match obj with
    | None => raise DanglingReference
    | Some tok =>
      if negb (Token_is_valid now tok) then
        let* present := gets (λ st, tokens st !! token tok) in
        match present with
        | None => raise KeyError
        | Some _ => modify (set_tokens (delete (token tok)));; ret None
        end
      else
        match match_origin tok with
        | Some mo =>
          if negb (isinstance_origin origin mo) then ret None
          else
            match origin with
            | Some o => if negb (Origin_match mo o) then ret None else ret (Some r)
            | None => ret None
            end
        | None => ret (Some r)
        end
    end
  end.

(** The key handed to [destroy]: [self.tokens.pop(token, None)] accepts any
    hashable object.  The dictionary has string keys only, and a [Token]
    object neither equals nor hashes like a string. *)
Inductive TokenKey :=
  | KeyStr (id : string)
  | KeyObj (r : tok_ref).

Definition TokenManager_destroy (key : TokenKey) : M unit :=
  match key with
  | KeyStr id => modify (set_tokens (delete id))
  | KeyObj _ => ret tt
  end.

(** ** Stores *)

Definition deref_cred (c : cred_ref) : M Credentials :=
  λ st, match creds st !! c with
        | Some obj => Done (obj, st)
        | None => Raise DanglingReference
        end.

Definition deref_token (t : tok_ref) : M Token :=
  λ st, match token_objs st !! t with
        | Some tok => Done (tok, st)
        | None => Raise DanglingReference
        end.

Definition deref_app (sid : string) : M App :=
  λ st, match apps st !! sid with
        | Some a => Done (a, st)
        | None => Raise DanglingReference
        end.

Definition update_app (sid : string) (f : App → App) : M unit :=
  let* a := deref_app sid in
  modify (set_apps <[sid := f a]>).

(** Construction of a credential object. *)
Definition new_cred (obj : Credentials) : M cred_ref :=
  let* c := gets (λ st, fresh (dom (creds st))) in
  modify (set_creds <[c := obj]>);;
  ret c.

Definition set_authenticated (b : bool) (a : App) : App :=
  mkApp (origin a) b (authenticated_credentials a) (callbacks a) (response_closed a).
Definition set_authenticated_credentials (c : cred_ref) (a : App) : App :=
  mkApp (origin a) (authenticated a) (Some c) (callbacks a) (response_closed a).
Definition register_callback (name : string) (a : App) : App :=
  mkApp (origin a) (authenticated a) (authenticated_credentials a) (callbacks a ++ [name])%list
        (response_closed a).
Definition response_close (a : App) : App :=
  mkApp (origin a) (authenticated a) (authenticated_credentials a) (callbacks a) true.

Definition send_event (name : string) (type : EventType) (id : string) : M unit :=
  modify (set_events (λ evs, (evs ++ [mkEvent name type id])%list)).

(** ** Methods of the credential classes *)

Definition is_token_credentials (obj : Credentials) : bool :=
  match obj with
  | TokenSessionManagerCredentials _ => true
  | _ => false
  end.

Definition Credentials_is_valid (now : Q) (c : cred_ref) : M bool :=
  let* obj := deref_cred c in
  match obj with
  | TokenSessionManagerCredentials t =>
    let* tok := deref_token t in
    ret (Token_is_valid now tok)
  | _ => ret true
  end.

(** [authorize] of a token credential calls [authorize] of the parent: one
    unit of fuel per call. *)
Fixpoint Credentials_authorize (fuel : nat) (st : State) (c : cred_ref)
    (method resource : string) : outcome bool :=
  match fuel with
  | O => Diverge
  | S fuel =>
    match creds st !! c with
    | None => Raise DanglingReference
    | Some SessionManagerCredentials
    | Some RootTcpSocketSessionManagerCredentials
    | Some TrueNasNodeSessionManagerCredentials => Done true
    | Some (UserSessionManagerCredentials _ allowlist)
    | Some (UnixSocketSessionManagerCredentials _ allowlist)
    | Some (LoginPasswordSessionManagerCredentials _ allowlist) =>
      Done (allowlist method resource)
    | Some (ApiKeySessionManagerCredentials api_key) =>
      Done (api_key_authorize api_key method resource)
    | Some (TokenSessionManagerCredentials t) =>
      match token_objs st !! t with
      | None => Raise DanglingReference
      | Some tok =>
        match parent_credentials tok with
        | None => Raise AttributeError
        | Some parent => Credentials_authorize fuel st parent method resource
        end
      end
    end
  end.

Definition Credentials_notify_used (now : Q) (c : cred_ref) : M unit :=
  let* obj := deref_cred c in
  match obj with
  | TokenSessionManagerCredentials t =>
    let* tok := deref_token t in
    modify (set_token_objs <[t := Token_notify_used now tok]>)
  | _ => ret tt
  end.

(** [TokenSessionManagerCredentials.logout] hands the [Token] object itself
    to [destroy]. *)
Definition Credentials_logout (c : cred_ref) : M unit :=
  let* obj := deref_cred c in
  match obj with
  | TokenSessionManagerCredentials t => TokenManager_destroy (KeyObj t)
  | _ => ret tt
  end.

(** ** [Token.root_credentials] *)

(** The [while True] loop, one unit of fuel per iteration. *)
Fixpoint root_credentials_loop (fuel : nat) (st : State) (credentials : option cred_ref)
    : outcome (option cred_ref) :=
  match fuel with
  | O => Diverge
  | S fuel =>
    match credentials with
    | None => Done None
    | Some c =>
      match creds st !! c with
      | None => Raise DanglingReference
      | Some (TokenSessionManagerCredentials t) =>
        match token_objs st !! t with
        | None => Raise DanglingReference
        | Some tok => root_credentials_loop fuel st (parent_credentials tok)
        end
      | Some _ => Done (Some c)
      end
    end
  end.

Definition Token_root_credentials (fuel : nat) (st : State) (self : Token)
    : outcome (option cred_ref) :=
  root_credentials_loop fuel st (parent_credentials self).

(** ** [is_internal_session] *)

Definition is_root_tcp_or_node (obj : Credentials) : bool :=
  match obj with
  | RootTcpSocketSessionManagerCredentials
  | TrueNasNodeSessionManagerCredentials => true
  | _ => false
  end.

Definition is_unix_socket_root (o : option Origin) : bool :=
  match o with
  | Some (UnixSocketOrigin uid) => bool_decide (uid = 0%Z)
  | _ => false
  end.

Definition is_internal_session (session : Session) : M bool :=
  let* a := deref_app (app session) in
  if is_unix_socket_root (origin a) then ret true
  else
    match authenticated_credentials a with
    | None => ret false
    | Some c =>
      let* obj := deref_cred c in
      if is_root_tcp_or_node obj then ret true else ret false
    end.

(** ** [class SessionManager] *)

Definition Session_new (credentials : cred_ref) (app : string) (now : Q) : Session :=
  mkSession credentials app now.

Definition SessionManager_login (now : Q) (sid : string) (credentials : cred_ref) : M unit :=
  let* a := deref_app sid in
  if authenticated a then
    let* found := gets (λ st, sessions st !! sid) in
    match found with
    | None => raise KeyError
    | Some s =>
      modify (set_sessions <[sid := mkSession credentials (app s) (created_at s)]>);;
      update_app sid (set_authenticated_credentials credentials)
    end
  else
    let session := Session_new credentials sid now in
    modify (set_sessions <[sid := session]>);;
    update_app sid (set_authenticated true);;
    update_app sid (set_authenticated_credentials credentials);;
    update_app sid (register_callback "on_message");;
    update_app sid (register_callback "on_close");;
    let* internal := is_internal_session session in
    if negb internal then send_event "auth.sessions" ADDED sid else ret tt.

Definition SessionManager_logout (sid : string) : M unit :=
  let* session := gets (λ st, sessions st !! sid) in
  modify (set_sessions (delete sid));;
  match session with
  | Some session =>
    Credentials_logout (credentials session);;
    let* internal := is_internal_session session in
    if negb internal then send_event "auth.sessions" REMOVED sid else ret tt
  | None => ret tt
  end;;
  update_app sid (set_authenticated false).

(** [_app_on_message]: [now] is the clock reading of [is_valid], [now'] the
    one of [notify_used]. *)
Definition SessionManager_app_on_message (now now' : Q) (sid : string) : M unit :=
  let* session := gets (λ st, sessions st !! sid) in
  match session with
  | None => update_app sid (set_authenticated false)
  | Some session =>
    let* valid := Credentials_is_valid now (credentials session) in
    if negb valid then SessionManager_logout sid
    else Credentials_notify_used now' (credentials session)
  end.

Definition SessionManager_app_on_close (sid : string) : M unit :=
  SessionManager_logout sid.

(** ** [class AuthService] *)

(** What a Python function returned, for the functions that return [True],
    [False] or [None]. *)
Inductive PyVal :=
  | PyNone
  | PyBool (b : bool).

(** One element of the list built by [sessions]: [id], [current],
    [internal] and, from [session.dump()], the origin and the creation
    time (kept as the monotonic reading). *)
Record SessionEntry := mkSessionEntry {
  entry_id : string;
  entry_current : bool;
  entry_internal : bool;
  entry_origin : option Origin;
  entry_created_at : Q;
}.

(** [sorted(..., key=lambda t: t[1].created_at)]: a stable insertion sort. *)
Fixpoint insert_by_created_at (x : string * Session) (l : list (string * Session))
    : list (string * Session) :=
  match l with
  | [] => [x]
  | y :: l' =>
    if Qle_bool (created_at x.2) (created_at y.2) then x :: y :: l'
    else y :: insert_by_created_at x l'
  end.

Definition sorted_by_created_at (l : list (string * Session)) : list (string * Session) :=
  foldr insert_by_created_at [] l.

Fixpoint mapM {A B} (f : A → M B) (l : list A) : M (list B) :=
  match l with
  | [] => ret []
  | x :: l' =>
    let* y := f x in
    let* ys := mapM f l' in
    ret (y :: ys)
  end.

Inductive FilterValue :=
  | FBool (b : bool)
  | FStr (s : string).

Definition Filter : Type := string * string * FilterValue.

Definition entry_field (e : SessionEntry) (name : string) : option FilterValue :=
  if bool_decide (name = "id") then Some (FStr (entry_id e))
  else if bool_decide (name = "current") then Some (FBool (entry_current e))
  else if bool_decide (name = "internal") then Some (FBool (entry_internal e))
  else None.

Definition FilterValue_eqb (x y : FilterValue) : bool :=
  match x, y with
  | FBool a, FBool b => bool_decide (a = b)
  | FStr a, FStr b => bool_decide (a = b)
  | _, _ => false
  end.

Definition filter_match (e : SessionEntry) (f : Filter) : bool :=
  match f with
  | (name, op, v) =>
    match entry_field e name with
    | None => false
    | Some x =>
      if bool_decide (op = "=") then FilterValue_eqb x v
      else if bool_decide (op = "!=") then negb (FilterValue_eqb x v)
      else false
    end
  end.

(** Modelled from the spec: [filter_list] of [middlewared.service] is not
    part of the sources.  The listing is "optionally filtered": a filter is
    a triple [[name, op, value]] over the fields [id], [current] and
    [internal] with the operators [=] and [!=], and an entry is kept when it
    passes every filter. *)
Definition filter_list (l : list SessionEntry) (filters : list Filter) : list SessionEntry :=
  List.filter (λ e, forallb (filter_match e) filters) l.

Definition session_entry (caller : string) (item : string * Session) : M SessionEntry :=
  let '(session_id, session) := item in
  let* internal := is_internal_session session in
  let* a := deref_app (app session) in
  ret (mkSessionEntry session_id (bool_decide (caller = session_id)) internal
                      (origin a) (created_at session)).

Definition AuthService_sessions (caller : string) (filters : list Filter)
    : M (list SessionEntry) :=
  let* items := gets (λ st, sorted_by_created_at (map_to_list (sessions st))) in
  let* entries := mapM (session_entry caller) items in
  ret (filter_list entries filters).

Definition AuthService_terminate_session (id : string) : M PyVal :=
  let* session := gets (λ st, sessions st !! id) in
  match session with
  | None => ret (PyBool false)
  | Some session =>
    update_app (app session) response_close;;
    ret PyNone
  end.

Definition AuthService_generate_token (now : Q) (new_id : string) (sid : string)
    (ttl : option Z) (attrs : gmap string JValue) (match_origin : bool) : M string :=
  let* a := deref_app sid in
  if negb (authenticated a) then raise (CallError "Not authenticated")
  else
    let ttl := default 600%Z ttl in
    let* r := TokenManager_create now new_id ttl (Some attrs)
                (if match_origin then origin a else None)
                (authenticated_credentials a) in
    let* tok := deref_token r in
    ret (token tok).

Definition AuthService_get_token (token_id : string) : M (option (gmap string JValue)) :=
  let* found := gets (λ st, tokens st !! token_id) in
  match found with
  | Some r =>
    let* tok := deref_token r in
    ret (Some (attributes tok))
  | None => ret None
  end.

(** The services reached through [middleware.call]. *)
Record Middleware := mkMiddleware {
  auth_authenticate : string → string → option User;
  auth_twofactor_config_enabled : bool;
  auth_twofactor_verify : option string → bool;
}.

Definition call (c : Call) : M unit :=
  modify (set_calls (λ cs, (cs ++ [c])%list)).

Definition AuthService_login (mw : Middleware) (now : Q) (sid : string)
    (username password : string) (otp_token : option string) : M bool :=
  call (CallAuthenticate username password);;
  let user := auth_authenticate mw username password in
  call CallTwofactorConfig;;
  let twofactor_enabled := auth_twofactor_config_enabled mw in
  let* user :=
    if twofactor_enabled then
      call (CallTwofactorVerify otp_token);;
      if negb (auth_twofactor_verify mw otp_token) then ret None else ret user
    else ret user in
  match user with
  | Some user =>
    let* c := new_cred (LoginPasswordSessionManagerCredentials user (privilege_allowlist user)) in
    SessionManager_login now sid c;;
    ret true
  | None => ret false
  end.

(** [now] is the clock reading of [Token.is_valid] inside [get], [now'] the
    one of the [Session] constructor inside [SessionManager.login]. *)
Definition AuthService_login_with_token (now now' : Q) (sid : string) (id : string) : M PyVal :=
  let* a := deref_app sid in
  let* found := TokenManager_get now id (origin a) in
  match found with
  | None => ret (PyBool false)
  | Some r =>
    let* tok := deref_token r in
    if negb (Nat.eqb (size (attributes tok)) 0) then ret PyNone
    else
      let* c := new_cred (TokenSessionManagerCredentials r) in
      SessionManager_login now' sid c;;
      ret (PyBool true)
  end.

Definition AuthService_logout (sid : string) : M bool :=
  SessionManager_logout sid;;
  ret true.

(** ** Operations on the broker *)

Definition credentials_closed (st : State) (obj : Credentials) : bool :=
  match obj with
  | TokenSessionManagerCredentials t => bool_decide (is_Some (token_objs st !! t))
  | _ => true
  end.

(** The calls that reach the broker.  [OpConnect] is the framework making a
    connection with an unused session id; [OpSessionLogin] is a caller of
    [SessionManager.login] that constructs the credential object it passes,
    as [check_permission] does. *)
Inductive Op :=
  | OpConnect (sid : string) (o : option Origin)
  | OpSessionLogin (now : Q) (sid : string) (obj : Credentials)
  | OpLogin (mw : Middleware) (now : Q) (sid username password : string)
            (otp_token : option string)
  | OpLoginWithToken (now now' : Q) (sid id : string)
  | OpLogout (sid : string)
  | OpMessage (now now' : Q) (sid : string)
  | OpClose (sid : string)
  | OpGenerateToken (now : Q) (new_id sid : string) (ttl : option Z)
                    (attrs : gmap string JValue) (match_origin : bool)
  | OpTokenGet (now : Q) (id : string) (o : option Origin)
  | OpTerminateSession (id : string).

Definition connect (sid : string) (o : option Origin) : M unit :=
  let* known := gets (λ st, apps st !! sid) in
  match known with
  | Some _ => ret tt
  | None => modify (set_apps <[sid := mkApp o false None [] false]>)
  end.

Definition step (op : Op) : M unit :=
  match op with
  | OpConnect sid o => connect sid o
  | OpSessionLogin now sid obj =>
    let* ok := gets (λ st, credentials_closed st obj) in
    if ok then
      deref_app sid;;
      let* c := new_cred obj in
      SessionManager_login now sid c
    else ret tt
  | OpLogin mw now sid username password otp_token =>
    deref_app sid;;
    AuthService_login mw now sid username password otp_token;; ret tt
  | OpLoginWithToken now now' sid id =>
    AuthService_login_with_token now now' sid id;; ret tt
  | OpLogout sid => AuthService_logout sid;; ret tt
  | OpMessage now now' sid => SessionManager_app_on_message now now' sid
  | OpClose sid => SessionManager_app_on_close sid
  | OpGenerateToken now new_id sid ttl attrs match_origin =>
    AuthService_generate_token now new_id sid ttl attrs match_origin;; ret tt
  | OpTokenGet now id o => TokenManager_get now id o;; ret tt
  | OpTerminateSession id => AuthService_terminate_session id;; ret tt
  end.

(** The states the operations lead to, from the empty registries. *)
Inductive reachable : State → Prop :=
  | reachable_init : reachable init_state
  | reachable_step st op st' :
      reachable st → step op st = Done (tt, st') → reachable st'.

(** ** Specification predicates *)

(** The request origin has the kind and the discriminator of the token's
    origin constraint, if the token has one. *)
Inductive OriginAdmits : option Origin → option Origin → Prop :=
  | admits_unconstrained o : OriginAdmits None o
  | admits_unix uid :
      OriginAdmits (Some (UnixSocketOrigin uid)) (Some (UnixSocketOrigin uid))
  | admits_tcp addr port port' :
      OriginAdmits (Some (TCPIPOrigin addr port)) (Some (TCPIPOrigin addr port')).

(** Every key of [TokenManager.tokens] is the [token] field of its value. *)
Definition registry_wf (st : State) : Prop :=
  ∀ id r, tokens st !! id = Some r →
    ∃ tok, token_objs st !! r = Some tok ∧ token tok = id.

(** A session is registered exactly for the authenticated connections, and
    holds the credential the connection holds. *)
Definition sessions_wf (st : State) : Prop :=
  (∀ sid s, sessions st !! sid = Some s →
     app s = sid ∧
     ∃ a, apps st !! sid = Some a ∧ authenticated a = true ∧
          authenticated_credentials a = Some (credentials s)) ∧
  (∀ sid a, apps st !! sid = Some a → authenticated a = true →
     is_Some (sessions st !! sid)).

(** No reference leaves the stores. *)
Definition closed (st : State) : Prop :=
  (∀ sid a c, apps st !! sid = Some a → authenticated_credentials a = Some c →
     is_Some (creds st !! c)) ∧
  (∀ c t, creds st !! c = Some (TokenSessionManagerCredentials t) →
     is_Some (token_objs st !! t)) ∧
  (∀ t tok p, token_objs st !! t = Some tok → parent_credentials tok = Some p →
     is_Some (creds st !! p)).

(** [Unwraps st start r]: following parent links from [start] through token
    credentials ends, after finitely many links, in [r], the first
    credential that is not token-derived, or in none. *)
Inductive Unwraps (st : State) : option cred_ref → option cred_ref → Prop :=
  | unwraps_none : Unwraps st None None
  | unwraps_root c obj :
      creds st !! c = Some obj → is_token_credentials obj = false →
      Unwraps st (Some c) (Some c)
  | unwraps_token c t tok r :
      creds st !! c = Some (TokenSessionManagerCredentials t) →
      token_objs st !! t = Some tok →
      Unwraps st (parent_credentials tok) r →
      Unwraps st (Some c) r.

Definition chains_finite (st : State) : Prop :=
  ∀ c, is_Some (creds st !! c) → ∃ r, Unwraps st (Some c) r.

Record wf (st : State) : Prop := mk_wf {
  wf_registry : registry_wf st;
  wf_sessions : sessions_wf st;
  wf_closed : closed st;
  wf_chains : chains_finite st;
}.

(** The classification the session listing and the events rely on: the
    connection comes from a Unix socket with peer uid 0, or the credential
    of the session is a root TCP socket or a node credential. *)
Definition Internal (st : State) (s : Session) : Prop :=
  (∃ a, apps st !! app s = Some a ∧ origin a = Some (UnixSocketOrigin 0)) ∨
  creds st !! credentials s = Some RootTcpSocketSessionManagerCredentials ∨
  creds st !! credentials s = Some TrueNasNodeSessionManagerCredentials.

(** [returns fuel_fn o]: the fuel-indexed computation ends with [o]. *)
Definition returns {A} (f : nat → outcome A) (o : outcome A) : Prop :=
  o ≠ Diverge ∧ ∃ fuel, f fuel = o.

(** The connection after a first login with credential [c]. *)
Definition logged_in_app (c : cred_ref) (a : App) : App :=
  register_callback "on_close"
    (register_callback "on_message"
       (set_authenticated_credentials c (set_authenticated true a))).

Definition sessions_event (type : EventType) (sid : string) : Event :=
  mkEvent "auth.sessions" type sid.

Definition log_calls (l : list Call) (st : State) : State :=
  set_calls (λ cs, (cs ++ l)%list) st.

(** ** Runs *)

Fixpoint run (ops : list Op) : M unit :=
  match ops with
  | [] => ret tt
  | op :: ops => step op;; run ops
  end.

Definition state_after (ops : list Op) : State :=
  match run ops init_state with
  | Done (_, st) => st
  | _ => init_state
  end.

(** A small scenario: a user logs in over TCP with a password and a one-time
    password, and issues a token bound to the origin of the connection. *)
Definition alice : User :=
  mkUser "alice" (λ method resource, bool_decide (method = "CALL")) true.

Definition demo_middleware : Middleware :=
  mkMiddleware
    (λ username password,
       if bool_decide (username = "alice") && bool_decide (password = "secret")
       then Some alice else None)
    true
    (λ otp_token, bool_decide (otp_token = Some "123456")).

Definition demo_origin : Origin := TCPIPOrigin "10.0.0.1" 40392.

Definition demo_ops : list Op :=
  [ OpConnect "s1" (Some demo_origin);
    OpLogin demo_middleware 1 "s1" "alice" "secret" (Some "123456");
    OpGenerateToken 2 "tok1" "s1" (Some 5%Z) ∅ true ].

Definition demo_state : State := state_after demo_ops.

(** The token issued in the scenario, and the credential of its issuer. *)
Definition demo_token : Token :=
  Token_new "tok1" 5 ∅ (Some demo_origin) (Some 0) 2.

Definition demo_credentials : Credentials :=
  LoginPasswordSessionManagerCredentials alice (privilege_allowlist alice).

(** A second connection from the same address redeems the token. *)
Definition demo_ops_token_login : list Op :=
  (demo_ops ++
   [ OpConnect "s2" (Some (TCPIPOrigin "10.0.0.1" 40400));
     OpLoginWithToken 3 4 "s2" "tok1" ])%list.

Definition demo_state_token_login : State := state_after demo_ops_token_login.

(** A store no operation builds: the parent of the token is the credential
    derived from that very token. *)
Definition cyclic_token : Token :=
  Token_new "loop" 600 ∅ None (Some 0) 0.

Definition cyclic_state : State :=
  mkState {[ 0 := TokenSessionManagerCredentials 0 ]} {[ 0 := cyclic_token ]}
          {[ "loop" := 0 ]} ∅ ∅ [] [].

(** What an element of the session listing says about the session it was
    made from. *)
Definition entry_matches (st : State) (caller : string)
    (item : string * Session) (e : SessionEntry) : Prop :=
  entry_id e = item.1 ∧
  entry_current e = bool_decide (caller = item.1) ∧
  (entry_internal e = true ↔ Internal st item.2) ∧
  entry_created_at e = created_at item.2.

(** An event of the [auth.sessions] channel is about a session that is not
    internal: the session it adds to [st'], or the one it removes from [st]. *)
Definition event_visible (st st' : State) (ev : Event) : Prop :=
  event_name ev = "auth.sessions" ∧
  match event_type ev with
  | ADDED => ∃ s, sessions st' !! event_id ev = Some s ∧ ¬ Internal st' s
  | REMOVED => ∃ s, sessions st !! event_id ev = Some s ∧ ¬ Internal st s
  end.

Definition exclude_internal : list Filter := [("internal", "=", FBool false)].

(** The events sent between [st] and [st'] are all about sessions that are
    not internal. *)
Definition emits_visible (st st' : State) : Prop :=
  ∃ new, events st' = (events st ++ new)%list ∧ Forall (event_visible st st') new.

(** The root user connects over the Unix socket, and the user of the first
    scenario logs out. *)
Definition root_user : User := mkUser "root" (λ _ _, true) true.

Definition demo_ops_internal : list Op :=
  (demo_ops ++
   [ OpConnect "s0" (Some (UnixSocketOrigin 0));
     OpSessionLogin 3 "s0"
       (UnixSocketSessionManagerCredentials root_user (privilege_allowlist root_user)) ])%list.

Definition demo_state_internal : State := state_after demo_ops_internal.

(** The calls [AuthService.login] makes through the middleware, in order. *)
Definition login_calls (mw : Middleware) (username password : string)
    (otp_token : option string) : list Call :=
  [CallAuthenticate username password; CallTwofactorConfig] ++
  (if auth_twofactor_config_enabled mw then [CallTwofactorVerify otp_token] else []).

(** A second middleware with two-factor authentication switched off. *)
Definition demo_middleware_no_2fa : Middleware :=
  mkMiddleware (auth_authenticate demo_middleware) false (λ _, false).

(** The user of the first scenario issues a token that carries attributes,
    and a third connection is made. *)
Definition demo_ops_attributes : list Op :=
  (demo_ops ++
   [ OpGenerateToken 2 "tok2" "s1" None {[ "filename" := JStr "debug.txz" ]} false;
     OpConnect "s3" (Some (TCPIPOrigin "10.0.0.9" 50000)) ])%list.

Definition demo_state_attributes : State := state_after demo_ops_attributes.

From Stdlib Require Import Ascii.

(** ** Further scenarios *)



(** ** More of [class AuthService] *)





(** [api_key.authenticate] is reached through the middleware: its answer
    for a key is the argument [authenticate]. *)
Definition AuthService_login_with_api_key (authenticate : string → option ApiKey)
    (now : Q) (sid : string) (api_key : string) : M bool :=
  match authenticate api_key with
  | Some api_key_object =>
    let* c := new_cred (ApiKeySessionManagerCredentials api_key_object) in
    SessionManager_login now sid c;;
    ret true
  | None => ret false
  end.

Definition str_exn (e : exn) : string :=
  match e with
  | KeyError => "KeyError"
  | AttributeError => "AttributeError"
  | CallError msg => msg
  | DanglingReference => "DanglingReference"
  end.

(** Modelled from the spec: the transport of a connection is not part of
    the sources.  [close_error sid] is the text of the exception that
    [response.close()] of connection [sid] raises, none when the transport
    closes; the exception is represented by [CallError] with that text as
    its [str()].  The close callbacks that the framework runs for a closed
    transport run outside the calls below. *)
Definition app_response_close (close_error : string → option string)
    (sid : string) : M unit :=
  match close_error sid with
  | Some msg => deref_app sid;; raise (CallError msg)
  | None => update_app sid response_close
  end.

(** [AuthService.terminate_session] with a transport whose [close()] may
    raise. *)
Definition AuthService_terminate_session_with (close_error : string → option string)
    (id : string) : M PyVal :=
  let* session := gets (λ st, sessions st !! id) in
  match session with
  | None => ret (PyBool false)
  | Some session =>
    app_response_close close_error (app session);;
    ret PyNone
  end.

(** [try: await self.terminate_session(session_id)] with
    [except Exception as e: errors.append(str(e))]. *)
Definition try_terminate_session (close_error : string → option string)
    (session_id : string) : M (list string) :=
  λ st, match AuthService_terminate_session_with close_error session_id st with
        | Done (_, st') => Done ([], st')
        | Raise e => Done ([str_exn e], st)
        | Diverge => Diverge
        end.

(** The loop of [terminate_other_sessions] over [items], the snapshot
    [list(self.session_manager.sessions.items())] in the order of the
    dictionary; the result is the list [errors]. *)
Fixpoint terminate_each (close_error : string → option string) (caller : string)
    (items : list (string * Session)) : M (list string) :=
  match items with
  | [] => ret []
  | (session_id, session) :: items =>
    if bool_decide (session_id = caller) then terminate_each close_error caller items
    else
      let* internal := is_internal_session session in
      if internal then terminate_each close_error caller items
      else
        let* error := try_terminate_session close_error session_id in
        let* errors := terminate_each close_error caller items in
        ret (error ++ errors)%list
  end.

Definition newline : string := String (Ascii.ascii_of_nat 10) EmptyString.

Definition AuthService_terminate_other_sessions (close_error : string → option string)
    (caller : string) (items : list (string * Session)) : M unit :=
  let* errors := terminate_each close_error caller items in
  match errors with
  | [] => ret tt
  | _ => raise (CallError (String.concat newline
                             ("Unable to terminate all sessions:" :: errors)))
  end.

(** Whether a session is internal, read off the state. *)
Definition internal_session (st : State) (s : Session) : bool :=
  match apps st !! app s with
  | Some a => is_unix_socket_root (origin a)
  | None => false
  end ||
  match creds st !! credentials s with
  | Some obj => is_root_tcp_or_node obj
  | None => false
  end.

(** The text that the loop of [terminate_other_sessions] collects for an
    item: that of the exception of [close()], for a session that is neither
    the caller's nor internal. *)
Definition terminate_error (close_error : string → option string) (st : State)
    (caller : string) (item : string * Session) : option string :=
  if bool_decide (item.1 = caller) || internal_session st item.2 then None
  else close_error item.1.

(** ** [check_permission] *)

(** The services [check_permission] consults: the root user record of
    [auth.authenticate_root]; the row (id and username) that
    [datastore.query] finds for a uid, none standing for [MatchNotFound];
    [auth.authenticate_local_user]; and [get_peer_process], which finds no
    process, or a process whose [uids()] raises [NoSuchProcess], or one
    with an effective uid. *)
Record ConnectEnv := mkConnectEnv {
  auth_authenticate_root : User;
  datastore_query_bsdusers : Z → option (Z * string);
  auth_authenticate_local_user : Z → string → option User;
  get_peer_process : string → Z → option (option Z);
}.

Definition is_loopback (addr : string) : bool :=
  String.prefix "127." addr || bool_decide (addr = "::1").

Definition check_permission (env : ConnectEnv) (now : Q) (sid : string) : M unit :=
  let* a := deref_app sid in
  match origin a with
  | Some (UnixSocketOrigin uid) =>
    if bool_decide (uid = 0%Z) then
      let user := auth_authenticate_root env in
      let* c := new_cred (UnixSocketSessionManagerCredentials user (privilege_allowlist user)) in
      SessionManager_login now sid c
    else
      match datastore_query_bsdusers env uid with
      | None => ret tt
      | Some (id, name) =>
        match auth_authenticate_local_user env id name with
        | None => ret tt
        | Some user =>
          let* c := new_cred (UnixSocketSessionManagerCredentials user (privilege_allowlist user)) in
          SessionManager_login now sid c
        end
      end
  | Some (TCPIPOrigin addr port) =>
    if negb (is_loopback addr) then ret tt
    else
      match get_peer_process env addr port with
      | Some (Some euid) =>
        if bool_decide (euid = 0%Z) then
          let* c := new_cred RootTcpSocketSessionManagerCredentials in
          SessionManager_login now sid c
        else ret tt
      | _ => ret tt
      end
  | None => ret tt
  end.




(** [a'] is [a] with, at most, the transport closed; it is closed exactly
    when it was closed before or [closed_now] holds. *)
Definition app_closed_from (closed_now : Prop) (a a' : App) : Prop :=
  origin a' = origin a ∧ authenticated a' = authenticated a ∧
  authenticated_credentials a' = authenticated_credentials a ∧
  callbacks a' = callbacks a ∧
  (response_closed a' = true ↔ response_closed a = true ∨ closed_now).

(** Two more connections: one from the Unix socket of root, one remote. *)
Definition demo_ops_three : list Op :=
  (demo_ops_internal ++
   [ OpConnect "s4" (Some (TCPIPOrigin "10.0.0.7" 50100));
     OpLogin demo_middleware 4 "s4" "alice" "secret" (Some "123456") ])%list.

Definition demo_state_three : State := state_after demo_ops_three.

(** The connection [sid] of [st] is authenticated, and the credential of its
    session, which is the one stored on the connection, is the object [obj]. *)
Definition elevated (st : State) (sid : string) (obj : Credentials) : Prop :=
  ∃ s a, sessions st !! sid = Some s ∧ creds st !! credentials s = Some obj ∧
         apps st !! sid = Some a ∧ authenticated a = true ∧
         authenticated_credentials a = Some (credentials s).

(** An environment in which uid 1000 is the local user bob and the peer of
    the loopback connection from port 900 is a process of root. *)
Definition bob : User := mkUser "bob" (λ _ _, false) false.

Definition demo_env : ConnectEnv :=
  mkConnectEnv root_user
    (λ uid, if bool_decide (uid = 1000%Z) then Some (7%Z, "bob") else None)
    (λ id name, if bool_decide (id = 7%Z) then Some bob else None)
    (λ addr port, if bool_decide (port = 900%Z) then Some (Some 0%Z) else None).

Definition demo_ops_connected : list Op :=
  [ OpConnect "u0" (Some (UnixSocketOrigin 0));
    OpConnect "u1" (Some (UnixSocketOrigin 1000));
    OpConnect "t0" (Some (TCPIPOrigin "127.0.0.1" 900));
    OpConnect "t1" (Some (TCPIPOrigin "192.168.0.3" 900)) ].

Definition demo_state_connected : State := state_after demo_ops_connected.

Definition demo_api_key : ApiKey :=
  mkApiKey 3 "backup" (λ method resource, bool_decide (resource = "pool.query")).

(** ** [dump_credentials] *)

(** [credentials.__class__.__name__]. *)
Definition class_name (obj : Credentials) : string :=
  match obj with
  | SessionManagerCredentials => "SessionManagerCredentials"
  | UserSessionManagerCredentials _ _ => "UserSessionManagerCredentials"
  | UnixSocketSessionManagerCredentials _ _ => "UnixSocketSessionManagerCredentials"
  | RootTcpSocketSessionManagerCredentials => "RootTcpSocketSessionManagerCredentials"
  | LoginPasswordSessionManagerCredentials _ _ => "LoginPasswordSessionManagerCredentials"
  | ApiKeySessionManagerCredentials _ => "ApiKeySessionManagerCredentials"
  | TrueNasNodeSessionManagerCredentials => "TrueNasNodeSessionManagerCredentials"
  | TokenSessionManagerCredentials _ => "TokenSessionManagerCredentials"
  end.

(** [s.replace(old, new)] for a non-empty [old]: occurrences are found from
    the left and do not overlap; [skip] counts the characters of an
    occurrence still to be dropped. *)
Fixpoint str_replace_from (old new : string) (skip : nat) (s : string) : string :=
  match s with
  | EmptyString => EmptyString
  | String ch rest =>
    match skip with
    | S k => str_replace_from old new k rest
    | O =>
      if String.prefix old s
      then new ++ str_replace_from old new (String.length old - 1) rest
      else String ch (str_replace_from old new 0 rest)
    end
  end.

Definition str_replace (old new s : string) : string := str_replace_from old new 0 s.

Definition is_ascii_upper (ch : Ascii.ascii) : bool :=
  (65 <=? Ascii.nat_of_ascii ch)%nat && (Ascii.nat_of_ascii ch <=? 90)%nat.

Definition is_ascii_lower (ch : Ascii.ascii) : bool :=
  (97 <=? Ascii.nat_of_ascii ch)%nat && (Ascii.nat_of_ascii ch <=? 122)%nat.

(** [re.sub("([A-Z])", r"_\1", s)]. *)
Fixpoint underscore_before_upper (s : string) : string :=
  match s with
  | EmptyString => EmptyString
  | String ch rest =>
    if is_ascii_upper ch then String "_"%char (String ch (underscore_before_upper rest))
    else String ch (underscore_before_upper rest)
  end.

(** [s.lstrip("_")]. *)
Fixpoint lstrip_underscore (s : string) : string :=
  match s with
  | String "_"%char rest => lstrip_underscore rest
  | _ => s
  end.

(** [s.upper()] on ASCII. *)
Definition ascii_upper (ch : Ascii.ascii) : Ascii.ascii :=
  if is_ascii_lower ch then Ascii.ascii_of_nat (Ascii.nat_of_ascii ch - 32) else ch.

Fixpoint str_upper (s : string) : string :=
  match s with
  | EmptyString => EmptyString
  | String ch rest => String (ascii_upper ch) (str_upper rest)
  end.

Definition credentials_label (name : string) : string :=
  str_upper (lstrip_underscore (underscore_before_upper
    (str_replace "SessionManagerCredentials" "" name))).

(** The dictionary of [dump_credentials]: the label and [credentials.dump()]. *)
Inductive Dump :=
  | mkDump (label : string) (data : DumpData)
with DumpData :=
  | DumpEmpty
  | DumpUsername (name : string)
  | DumpApiKey (id : Z) (name : string)
  | DumpParent (parent : Dump).

(** One unit of fuel per call of [dump_credentials]; [dump] of a token
    credential calls it for the parent. *)
Fixpoint dump_credentials (fuel : nat) (st : State) (credentials : option cred_ref)
    : outcome Dump :=
  match fuel with
  | O => Diverge
  | S fuel =>
    match credentials with
    | None => Raise AttributeError
    | Some c =>
      match creds st !! c with
      | None => Raise DanglingReference
      | Some obj =>
        let label := credentials_label (class_name obj) in
        match obj with
        | UserSessionManagerCredentials user _
        | UnixSocketSessionManagerCredentials user _
        | LoginPasswordSessionManagerCredentials user _ =>
          Done (mkDump label (DumpUsername (username user)))
        | ApiKeySessionManagerCredentials api_key =>
          Done (mkDump label (DumpApiKey (api_key_id api_key) (api_key_name api_key)))
        | TokenSessionManagerCredentials t =>
          match token_objs st !! t with
          | None => Raise DanglingReference
          | Some tok =>
            match dump_credentials fuel st (parent_credentials tok) with
            | Done parent => Done (mkDump label (DumpParent parent))
            | Raise e => Raise e
            | Diverge => Diverge
            end
          end
        | _ => Done (mkDump label DumpEmpty)
        end
      end
    end
  end.

(** ** [class TwoFactorAuthService] *)

(** A row of [system.twofactorauthentication]. *)
Record TwoFactorConfig := mkTwoFactorConfig {
  tf_id : Z;
  tf_enabled : bool;
  tf_otp_digits : Z;
  tf_window : Z;
  tf_interval : Z;
  tf_services : gmap string bool;
  tf_secret : option string;
}.

(** The argument of [do_update]: the entry without [id] and [secret], every
    attribute optional. *)
Record TwoFactorUpdate := mkTwoFactorUpdate {
  upd_enabled : option bool;
  upd_otp_digits : option Z;
  upd_window : option Z;
  upd_interval : option Z;
  upd_services : option (gmap string bool);
}.

(** The datastore row and the services asked to reload, in order. *)
Record TwoFactorStore := mkTwoFactorStore {
  tf_row : TwoFactorConfig;
  tf_reloads : list string;
}.

Definition two_factor_extend (data : TwoFactorConfig) : TwoFactorConfig :=
  mkTwoFactorConfig (tf_id data) (tf_enabled data) (tf_otp_digits data) (tf_window data)
    (tf_interval data)
    (match tf_services data !! "ssh" with
     | Some _ => tf_services data
     | None => <["ssh":=false]> (tf_services data)
     end)
    (tf_secret data).

(** [self.config()]: the row, passed through [datastore_extend]. *)
Definition TwoFactor_config (s : TwoFactorStore) : TwoFactorConfig :=
  two_factor_extend (tf_row s).

(** [config.update(data)]. *)
Definition config_update (config : TwoFactorConfig) (data : TwoFactorUpdate)
    : TwoFactorConfig :=
  mkTwoFactorConfig (tf_id config)
    (default (tf_enabled config) (upd_enabled data))
    (default (tf_otp_digits config) (upd_otp_digits data))
    (default (tf_window config) (upd_window data))
    (default (tf_interval config) (upd_interval data))
    (default (tf_services config) (upd_services data))
    (tf_secret config).

(** Truth value of [config['secret']]: [None] and the empty string are false. *)
Definition secret_set (secret : option string) : bool :=
  match secret with
  | Some s => negb (String.eqb s "")
  | None => false
  end.

Definition set_secret (secret : option string) (config : TwoFactorConfig) : TwoFactorConfig :=
  mkTwoFactorConfig (tf_id config) (tf_enabled config) (tf_otp_digits config)
    (tf_window config) (tf_interval config) (tf_services config) secret.

(** [generate_base32_secret] is random: [new_secret] is what it returns
    when it is called. *)
Definition TwoFactor_do_update (new_secret : string) (data : TwoFactorUpdate)
    (s : TwoFactorStore) : TwoFactorConfig * TwoFactorStore :=
  let old_config := TwoFactor_config s in
  let config := config_update old_config data in
  let config :=
    if tf_enabled config && negb (secret_set (tf_secret config))
    then set_secret (Some new_secret) config
    else config in
  let s' := mkTwoFactorStore config (tf_reloads s ++ ["ssh"])%list in
  (TwoFactor_config s', s').

Definition two_factor_disabled : exn :=
  CallError "Please enable Two Factor Authentication first.".

(** [totp] stands for [pyotp.totp.TOTP(secret, interval, digits).verify(token,
    valid_window)]. *)
Definition TwoFactor_verify
    (totp : option string → Z → Z → Z → option string → bool)
    (token : option string) (s : TwoFactorStore) : outcome bool :=
  let config := TwoFactor_config s in
  if negb (tf_enabled config) then Raise two_factor_disabled
  else Done (totp (tf_secret config) (tf_interval config) (tf_otp_digits config)
                  (tf_window config) token).

Definition TwoFactor_renew_secret (new_secret : string) (s : TwoFactorStore)
    : outcome (bool * TwoFactorStore) :=
  let config := TwoFactor_config s in
  if negb (tf_enabled config) then Raise two_factor_disabled
  else
    let row := set_secret (Some new_secret) (tf_row s) in
    let reloads :=
      if default false (tf_services config !! "ssh")
      then (tf_reloads s ++ ["ssh"])%list else tf_reloads s in
    Done (true, mkTwoFactorStore row reloads).

Definition demo_two_factor_store : TwoFactorStore :=
  mkTwoFactorStore (mkTwoFactorConfig 1 false 6 0 30 ∅ None) [].

(** ** Binary64 arithmetic of [Token.is_valid]

    [time.monotonic()] returns a float, [last_used_at] holds one, and
    [last_used_at + ttl] converts the int [ttl] to a float and adds two
    floats.  Every finite binary64 number is an integer multiple of
    2^-1074: it is represented here by that integer, so that 1.0 is
    [binary64_scale].  [Token_is_valid] above is the same comparison with
    the exact sum. *)

Definition binary64_scale : Z := (2 ^ 1074)%Z.

(** 2^1024 in units of 2^-1074: the least magnitude that is not finite. *)
Definition binary64_overflow : Z := (2 ^ 2098)%Z.

(** Exponent of the spacing of the floats around magnitude [a]: 53
    significant bits, and no spacing below the unit (subnormals). *)
Definition binary64_shift (a : Z) : Z := Z.max 0 (Z.log2 a - 52).

(** [a / 2^k] rounded to the nearest integer, ties to the even one. *)
Definition round_half_even (a k : Z) : Z :=
  let q := (a / 2 ^ k)%Z in
  let r := (a mod 2 ^ k)%Z in
  match (2 * r ?= 2 ^ k)%Z with
  | Lt => q
  | Gt => (q + 1)%Z
  | Eq => if Z.even q then q else (q + 1)%Z
  end.

Definition binary64_round_magnitude (a : Z) : Z :=
  (round_half_even a (binary64_shift a) * 2 ^ binary64_shift a)%Z.

(** Round to nearest, ties to even, before the range check. *)
Definition binary64_round (n : Z) : Z :=
  (Z.sgn n * binary64_round_magnitude (Z.abs n))%Z.

(** The integers that represent finite binary64 numbers. *)
Definition is_binary64 (n : Z) : bool :=
  (Z.abs n <? binary64_overflow)%Z &&
  (Z.abs n mod 2 ^ binary64_shift (Z.abs n) =? 0)%Z.

(** A float is finite or an infinity. *)
Inductive binary64 :=
  | Finite (n : Z)
  | Infinity (negative : bool).

(** [float(i)] of a Python int, as [last_used_at + ttl] converts [ttl]:
    correctly rounded; [None] is the [OverflowError] of an int too large
    to convert. *)
Definition binary64_of_int (i : Z) : option Z :=
  let r := binary64_round (i * binary64_scale) in
  if (Z.abs r <? binary64_overflow)%Z then Some r else None.

(** 2^1024 - 2^970: the magnitude from which on an int rounds out of
    range. *)
Definition binary64_int_limit : Z := (2 ^ 1024 - 2 ^ 970)%Z.

(** Sum of two finite floats: the exact sum rounded, an infinity when the
    rounded sum is out of range. *)
Definition binary64_add (x y : Z) : binary64 :=
  let r := binary64_round (x + y) in
  if (Z.abs r <? binary64_overflow)%Z then Finite r else Infinity (r <? 0)%Z.

(** [x < y] for a finite [x]. *)
Definition binary64_lt (x : Z) (y : binary64) : bool :=
  match y with
  | Finite n => (x <? n)%Z
  | Infinity negative => negb negative
  end.

(** The clock reading that the integer [n] represents, and back. *)
Definition reading (n : Z) : Q := n # (2 ^ 1074).

Definition binary64_of_reading (q : Q) : Z :=
  (Qnum q * binary64_scale / Z.pos (Qden q))%Z.

(** [Token.is_valid] with the arithmetic of the code, on float readings;
    [None] is [OverflowError]. *)
Definition Token_is_valid_binary64 (now : Q) (self : Token) : option bool :=
  match binary64_of_int (ttl self) with
  | None => None
  | Some t =>
    Some (binary64_lt (binary64_of_reading now)
            (binary64_add (binary64_of_reading (last_used_at self)) t))
  end.

(** The floats 0.1 and 5.1, and a token last used at 0.1 with ttl 5. *)
Definition reading_0_1 : Z := (3602879701896397 * 2 ^ 1019)%Z.
Definition reading_5_1 : Z := (5742089524897382 * 2 ^ 1024)%Z.

Definition tenth_token : Token :=
  Token_new "tok1" 5 ∅ None None (reading reading_0_1).

(** A token created at reading 0 whose ttl does not convert to a float. *)
Definition huge_ttl_token : Token :=
  Token_new "tok2" (10 ^ 400) ∅ None None (reading 0).

(** A token created at the float 2^53 + 2 with ttl -(2^53 + 1), which
    converts to the float -2^53. *)
Definition rounded_ttl_token : Token :=
  Token_new "tok3" (- (2 ^ 53 + 1)) ∅ None None
    (reading ((2 ^ 53 + 2) * binary64_scale)).

(** The float 1.5. *)
Definition reading_1_5 : Z := (3 * 2 ^ 1073)%Z.

(** A token created with ttl 1 at the float 2^60, where floats are 256
    apart. *)
Definition late_token : Token :=
  Token_new "tok4" 1 ∅ None None (reading (2 ^ 60 * binary64_scale)).

(** ** Parent chains of tokens *)

(** [parent_link st c p]: the credential [c] is token-derived and [p] is
    the parent of its token, what one iteration of the loop of
    [root_credentials] moves along. *)
Inductive parent_link (st : State) : cred_ref → cred_ref → Prop :=
  | parent_link_intro c t tok p :
      creds st !! c = Some (TokenSessionManagerCredentials t) →
      token_objs st !! t = Some tok →
      parent_credentials tok = Some p →
      parent_link st c p.

(** The chain from [p] reaches a credential that is not token-derived. *)
Definition chain_reaches (st : State) (p c : cred_ref) : Prop :=
  rtc (parent_link st) p c ∧
  ∃ obj, creds st !! c = Some obj ∧ is_token_credentials obj = false.

(** The chain from [p] reaches a token that has no parent. *)
Definition chain_ends_in_none (st : State) (p : cred_ref) : Prop :=
  ∃ c t tok, rtc (parent_link st) p c ∧
    creds st !! c = Some (TokenSessionManagerCredentials t) ∧
    token_objs st !! t = Some tok ∧
    parent_credentials tok = None.

(** The chain from [p] runs into a cycle. *)
Definition chain_cyclic (st : State) (p : cred_ref) : Prop :=
  ∃ c, rtc (parent_link st) p c ∧ tc (parent_link st) c c.

(** [TokenManager.create] called without parent credentials, then a token
    whose parent is the credential derived from the first one. *)
Definition orphan_program : M tok_ref :=
  let* t := TokenManager_create 0 "tok1" 600 None None None in
  let* c := new_cred (TokenSessionManagerCredentials t) in
  TokenManager_create 1 "tok2" 600 None None (Some c).

Definition orphan_state : State :=
  match orphan_program init_state with
  | Done (_, st) => st
  | _ => init_state
  end.

Definition orphan_token : Token := Token_new "tok1" 600 ∅ None None 0.

Definition orphan_child_token : Token := Token_new "tok2" 600 ∅ None (Some 0) 1.

(** ** What a dump of credentials looks like *)

(** The entry of a credential that is not token-derived: its label and
    the dictionary of its [dump()]. *)
Definition credentials_entry (obj : Credentials) : Dump :=
  match obj with
  | SessionManagerCredentials => mkDump "" DumpEmpty
  | UserSessionManagerCredentials user _ =>
    mkDump "USER" (DumpUsername (username user))
  | UnixSocketSessionManagerCredentials user _ =>
    mkDump "UNIX_SOCKET" (DumpUsername (username user))
  | RootTcpSocketSessionManagerCredentials => mkDump "ROOT_TCP_SOCKET" DumpEmpty
  | LoginPasswordSessionManagerCredentials user _ =>
    mkDump "LOGIN_PASSWORD" (DumpUsername (username user))
  | ApiKeySessionManagerCredentials api_key =>
    mkDump "API_KEY" (DumpApiKey (api_key_id api_key) (api_key_name api_key))
  | TrueNasNodeSessionManagerCredentials => mkDump "TRUE_NAS_NODE" DumpEmpty
  | TokenSessionManagerCredentials _ => mkDump "TOKEN" DumpEmpty
  end.

(** [n] entries labelled [TOKEN], each holding the next one as [parent],
    around [d]. *)
Fixpoint token_entries (n : nat) (d : Dump) : Dump :=
  match n with
  | O => d
  | S n => mkDump "TOKEN" (DumpParent (token_entries n d))
  end.

(** * Properties *)

Lemma Qlt_bool_iff x y : Qlt_bool x y = true ↔ (x < y)%Q.
Proof.
  unfold Qlt_bool. rewrite negb_true_iff, <- not_true_iff_false, Qle_bool_iff.
  split; [apply Qnot_le_lt | apply Qlt_not_le].
Qed.

Lemma Token_is_valid_iff now t :
  Token_is_valid now t = true ↔ (now < last_used_at t + inject_Z (ttl t))%Q.
Proof. apply Qlt_bool_iff. Qed.

(** ** Token registry *)

Ltac unfold_monad :=
  unfold bind, gets, ret, raise, modify, deref_cred, deref_token, deref_app in *.

Lemma OriginAdmits_dec_iff (mo o : option Origin) :
  OriginAdmits mo o ↔
  match mo with
  | None => True
  | Some m =>
    isinstance_origin o m = true ∧
    match o with Some o' => Origin_match m o' = true | None => False end
  end.
Proof.
  split.
  - intros H; destruct H; simpl; auto using bool_decide_eq_true_2.
  - destruct mo as [m|]; [|constructor].
    intros [Hk Hm]. destruct o as [o'|]; [|done].
    destruct m, o'; simpl in *; try discriminate;
      apply bool_decide_eq_true_1 in Hm; subst; constructor.
Qed.

Lemma TokenManager_get_unknown now id o st :
  tokens st !! id = None → TokenManager_get now id o st = Done (None, st).
Proof. intros H. unfold TokenManager_get; unfold_monad. by rewrite H. Qed.

Lemma TokenManager_get_expired now id o st r tok :
  tokens st !! id = Some r → token_objs st !! r = Some tok → token tok = id →
  Token_is_valid now tok = false →
  TokenManager_get now id o st = Done (None, set_tokens (delete id) st).
Proof.
  intros Hid Hr Hkey Hv. unfold TokenManager_get; unfold_monad.
  rewrite Hid, Hr, Hv; simpl. rewrite Hkey, Hid. reflexivity.
Qed.

Lemma TokenManager_get_valid now id o st r tok :
  tokens st !! id = Some r → token_objs st !! r = Some tok →
  Token_is_valid now tok = true →
  (OriginAdmits (match_origin tok) o ∧
   TokenManager_get now id o st = Done (Some r, st)) ∨
  (¬ OriginAdmits (match_origin tok) o ∧
   TokenManager_get now id o st = Done (None, st)).
Proof.
  intros Hid Hr Hv. unfold TokenManager_get; unfold_monad.
  rewrite Hid, Hr, Hv; simpl. rewrite OriginAdmits_dec_iff.
  destruct (match_origin tok) as [m|]; [|left; done].
  destruct (isinstance_origin o m) eqn:Hk; simpl; [|right; split; [intros [? _]|]; done].
  destruct o as [o'|]; [|right; split; [intros [_ ?]|]; done].
  destruct (Origin_match m o') eqn:Hm; simpl; [left|right; split; [intros [_ ?]|]]; done.
Qed.


(** ** The invariant of the reachable states *)

Lemma set_apps_insert_insert sid (x y : App) st :
  set_apps <[sid:=y]> (set_apps <[sid:=x]> st) = set_apps <[sid:=y]> st.
Proof. unfold set_apps; simpl. by rewrite insert_insert_eq. Qed.

Lemma Unwraps_mono st st' x r :
  (∀ c obj, creds st !! c = Some obj → creds st' !! c = Some obj) →
  (∀ t tok, token_objs st !! t = Some tok →
     ∃ tok', token_objs st' !! t = Some tok' ∧
             parent_credentials tok' = parent_credentials tok) →
  Unwraps st x r → Unwraps st' x r.
Proof.
  intros Hcreds Htoks H. induction H as [|c obj Hc Hobj|c t tok r Hc Ht _ IH].
  - constructor.
  - eapply unwraps_root; eauto.
  - destruct (Htoks _ _ Ht) as (tok' & Ht' & Hp).
    eapply unwraps_token; eauto. by rewrite Hp.
Qed.

Lemma chains_finite_same st st' :
  creds st' = creds st → token_objs st' = token_objs st →
  chains_finite st → chains_finite st'.
Proof.
  intros Hc Ht H c Hin. rewrite Hc in Hin. destruct (H c Hin) as [r Hr].
  exists r. eapply Unwraps_mono; [| |exact Hr].
  - intros ? ?. by rewrite Hc.
  - intros t tok ?. exists tok. by rewrite Ht.
Qed.

Ltac destruct_wf H :=
  let Hreg := fresh "Hreg" in
  let Hs1 := fresh "Hs1" in
  let Hs2 := fresh "Hs2" in
  let Hc1 := fresh "Hc1" in
  let Hc2 := fresh "Hc2" in
  let Hc3 := fresh "Hc3" in
  let Hch := fresh "Hch" in
  destruct H as [Hreg [Hs1 Hs2] (Hc1 & Hc2 & Hc3) Hch].

Lemma wf_init : wf init_state.
Proof.
  split.
  - intros id r; simpl. by rewrite lookup_empty.
  - split; intros sid x; simpl; by rewrite lookup_empty.
  - repeat split; intros *; simpl; by rewrite lookup_empty.
  - intros c; simpl. rewrite lookup_empty. by intros [? ?].
Qed.

Ltac same_chains H := eapply chains_finite_same; [| |exact H]; reflexivity.

Lemma wf_events f st : wf st → wf (set_events f st).
Proof.
  intros H; destruct_wf H.
  split; [|split|repeat split|same_chains Hch]; assumption.
Qed.

Lemma wf_calls f st : wf st → wf (set_calls f st).
Proof.
  intros H; destruct_wf H.
  split; [|split|repeat split|same_chains Hch]; assumption.
Qed.

Lemma wf_registry_delete id st : wf st → wf (set_tokens (delete id) st).
Proof.
  intros H; destruct_wf H.
  split; [|split|repeat split|same_chains Hch]; try assumption.
  intros id' r; simpl. rewrite lookup_delete_Some. intros [_ Hid]. by apply Hreg.
Qed.

Lemma wf_sessions_session sid s st :
  wf st → sessions st !! sid = Some s →
  app s = sid ∧ ∃ a, apps st !! sid = Some a ∧ authenticated a = true ∧
    authenticated_credentials a = Some (credentials s) ∧
    is_Some (creds st !! credentials s).
Proof.
  intros H Hs; destruct_wf H. destruct (Hs1 _ _ Hs) as (Happ & a & Ha & Hau & Hcr).
  split; [done|]. exists a. repeat split; try done. by eapply Hc1.
Qed.

Lemma wf_login_state st sid a' s :
  wf st → authenticated a' = true →
  authenticated_credentials a' = Some (credentials s) → app s = sid →
  is_Some (creds st !! credentials s) →
  wf (set_apps <[sid:=a']> (set_sessions <[sid:=s]> st)).
Proof.
  intros H Hau Hcr Happ Hin; destruct_wf H.
  split; [assumption|split|repeat split|same_chains Hch]; simpl; try assumption.
  - intros sid' s'. rewrite lookup_insert_Some. intros [[<- <-]|[Hne Hs']].
    + split; [done|]. exists a'. by rewrite lookup_insert_eq.
    + destruct (Hs1 _ _ Hs') as (? & a & ? & ? & ?). split; [done|].
      exists a. by rewrite lookup_insert_ne.
  - intros sid' a. rewrite lookup_insert_Some. intros [[<- <-]|[Hne Ha]] Hauth.
    + by rewrite lookup_insert_eq.
    + rewrite lookup_insert_ne by done. by eapply Hs2.
  - intros sid' a c. rewrite lookup_insert_Some. intros [[<- <-]|[Hne Ha]] Hcred.
    + congruence.
    + by eapply Hc1.
Qed.

Lemma wf_logout_state st sid a' :
  wf st → authenticated a' = false →
  (∀ c, authenticated_credentials a' = Some c → is_Some (creds st !! c)) →
  wf (set_apps <[sid:=a']> (set_sessions (delete sid) st)).
Proof.
  intros H Hau Hcr; destruct_wf H.
  split; [assumption|split|repeat split|same_chains Hch]; simpl; try assumption.
  - intros sid' s'. rewrite lookup_delete_Some. intros [Hne Hs'].
    destruct (Hs1 _ _ Hs') as (? & a & ? & ? & ?). split; [done|].
    exists a. by rewrite lookup_insert_ne.
  - intros sid' a. rewrite lookup_insert_Some. intros [[<- <-]|[Hne Ha]] Hauth.
    + congruence.
    + rewrite lookup_delete_ne by done. by eapply Hs2.
  - intros sid' a c. rewrite lookup_insert_Some. intros [[<- <-]|[Hne Ha]] Hcred.
    + by apply Hcr.
    + by eapply Hc1.
Qed.

Lemma wf_app_update st sid a a' :
  wf st → apps st !! sid = Some a →
  authenticated a' = authenticated a →
  authenticated_credentials a' = authenticated_credentials a →
  wf (set_apps <[sid:=a']> st).
Proof.
  intros H Ha Hau Hcr; destruct_wf H.
  split; [assumption|split|repeat split|same_chains Hch]; simpl; try assumption.
  - intros sid' s' Hs'. destruct (Hs1 _ _ Hs') as (? & a0 & Ha0 & ? & ?).
    split; [done|]. destruct (decide (sid = sid')) as [<-|Hne].
    + exists a'. rewrite lookup_insert_eq. split; [done|]. split; congruence.
    + exists a0. by rewrite lookup_insert_ne.
  - intros sid' a0. rewrite lookup_insert_Some. intros [[<- <-]|[Hne Ha0]] Hauth.
    + eapply Hs2; [exact Ha|congruence].
    + by eapply Hs2.
  - intros sid' a0 c. rewrite lookup_insert_Some. intros [[<- <-]|[Hne Ha0]] Hcred.
    + eapply Hc1; [exact Ha|congruence].
    + by eapply Hc1.
Qed.

Lemma wf_connect st sid o :
  wf st → apps st !! sid = None →
  wf (set_apps <[sid:=mkApp o false None [] false]> st).
Proof.
  intros H Ha; destruct_wf H.
  split; [assumption|split|repeat split|same_chains Hch]; simpl; try assumption.
  - intros sid' s' Hs'. destruct (Hs1 _ _ Hs') as (? & a0 & Ha0 & ? & ?).
    split; [done|]. exists a0. rewrite lookup_insert_ne; [done|congruence].
  - intros sid' a0. rewrite lookup_insert_Some. intros [[<- <-]|[Hne Ha0]] Hauth.
    + discriminate.
    + by eapply Hs2.
  - intros sid' a0 c. rewrite lookup_insert_Some. intros [[<- <-]|[Hne Ha0]] Hcred.
    + discriminate.
    + by eapply Hc1.
Qed.

Lemma fresh_lookup_None {A} (m : gmap nat A) : m !! fresh (dom m) = None.
Proof. apply not_elem_of_dom, is_fresh. Qed.

Lemma wf_new_cred st obj :
  wf st → credentials_closed st obj = true →
  wf (set_creds <[fresh (dom (creds st)):=obj]> st).
Proof.
  intros H Hobj; destruct_wf H.
  pose proof (fresh_lookup_None (creds st)) as Hfresh.
  set (c := fresh (dom (creds st))) in *.
  assert (Hext : ∀ c' obj', creds st !! c' = Some obj' →
            <[c:=obj]> (creds st) !! c' = Some obj').
  { intros c' obj' Hc'. rewrite lookup_insert_ne; [done|].
    intros Heq; rewrite <- Heq in Hc'; congruence. }
  split; [assumption|split; assumption|repeat split|]; simpl.
  - intros sid a c' Ha Hcr. destruct (Hc1 _ _ _ Ha Hcr) as [obj' Hc'].
    exists obj'. by apply Hext.
  - intros c' t. rewrite lookup_insert_Some. intros [[<- ->]|[Hne Hc']].
    + simpl in Hobj. by apply bool_decide_eq_true_1 in Hobj.
    + by eapply Hc2.
  - intros t tok p Ht Hp. destruct (Hc3 _ _ _ Ht Hp) as [obj' Hc'].
    exists obj'. by apply Hext.
  - intros c'. simpl. rewrite lookup_insert_is_Some.
    assert (Hmono : ∀ x r, Unwraps st x r →
              Unwraps (set_creds <[c:=obj]> st) x r).
    { intros x r. apply Unwraps_mono; [exact Hext|]. intros t tok ?. by exists tok. }
    intros [<-|[Hne Hin]].
    + destruct obj; try (eexists; eapply unwraps_root;
        [simpl; apply lookup_insert_eq|reflexivity]).
      simpl in Hobj. apply bool_decide_eq_true_1 in Hobj as [tok Ht].
      destruct (parent_credentials tok) as [p|] eqn:Hp.
      * destruct (Hch p (Hc3 _ _ _ Ht Hp)) as [r Hr]. exists r.
        eapply unwraps_token; [simpl; apply lookup_insert_eq|exact Ht|].
        rewrite Hp. by apply Hmono.
      * exists None. eapply unwraps_token; [simpl; apply lookup_insert_eq|exact Ht|].
        rewrite Hp. constructor.
    + destruct (Hch c' Hin) as [r Hr]. exists r. by apply Hmono.
Qed.

Lemma wf_new_token st id tok :
  wf st → token tok = id →
  (∀ p, parent_credentials tok = Some p → is_Some (creds st !! p)) →
  wf (set_tokens <[id:=fresh (dom (token_objs st))]>
        (set_token_objs <[fresh (dom (token_objs st)):=tok]> st)).
Proof.
  intros H Hid Hpar; destruct_wf H.
  pose proof (fresh_lookup_None (token_objs st)) as Hfresh.
  set (t := fresh (dom (token_objs st))) in *.
  assert (Hext : ∀ t' tok', token_objs st !! t' = Some tok' →
            <[t:=tok]> (token_objs st) !! t' = Some tok').
  { intros t' tok' Ht'. rewrite lookup_insert_ne; [done|].
    intros Heq; rewrite <- Heq in Ht'; congruence. }
  split; [|split; assumption|repeat split|]; simpl.
  - intros id' r. simpl. rewrite lookup_insert_Some. intros [[<- <-]|[Hne Hr]].
    + exists tok. by rewrite lookup_insert_eq.
    + destruct (Hreg _ _ Hr) as (tok' & Ht' & ?). exists tok'. split; [|done].
      by apply Hext.
  - assumption.
  - intros c t' Hc. destruct (Hc2 _ _ Hc) as [tok' Ht']. exists tok'. by apply Hext.
  - intros t' tok' p. rewrite lookup_insert_Some. intros [[<- <-]|[Hne Ht']] Hp.
    + by apply Hpar.
    + by eapply Hc3.
  - intros c Hin. destruct (Hch c Hin) as [r Hr]. exists r.
    eapply Unwraps_mono; [| |exact Hr]; [done|].
    intros t' tok' Ht'. exists tok'. split; [|done]. by apply Hext.
Qed.

Lemma wf_notify_used st t tok now :
  wf st → token_objs st !! t = Some tok →
  wf (set_token_objs <[t:=Token_notify_used now tok]> st).
Proof.
  intros H Ht; destruct_wf H.
  assert (Hext : ∀ t' tok', token_objs st !! t' = Some tok' →
            ∃ tok'', <[t:=Token_notify_used now tok]> (token_objs st) !! t' = Some tok'' ∧
                     parent_credentials tok'' = parent_credentials tok' ∧
                     token tok'' = token tok').
  { intros t' tok' Ht'. destruct (decide (t = t')) as [<-|Hne].
    - exists (Token_notify_used now tok). rewrite lookup_insert_eq.
      assert (tok' = tok) as -> by congruence. done.
    - exists tok'. by rewrite lookup_insert_ne. }
  split; [|split; assumption|repeat split|]; simpl.
  - intros id r Hr. destruct (Hreg _ _ Hr) as (tok' & Ht' & Hid).
    destruct (Hext _ _ Ht') as (tok'' & ? & ? & Htk). exists tok''.
    split; [done|]. by rewrite Htk.
  - assumption.
  - intros c t' Hc. destruct (Hc2 _ _ Hc) as [tok' Ht'].
    destruct (Hext _ _ Ht') as (tok'' & ? & _). by exists tok''.
  - intros t' tok' p. rewrite lookup_insert_Some. intros [[<- <-]|[Hne Ht']] Hp.
    + by eapply Hc3.
    + by eapply Hc3.
  - intros c Hin. destruct (Hch c Hin) as [r Hr]. exists r.
    eapply Unwraps_mono; [| |exact Hr]; [done|].
    intros t' tok' Ht'. destruct (Hext _ _ Ht') as (tok'' & ? & ? & _). by exists tok''.
Qed.

(** ** Effects of the operations *)

Lemma bind_Done_inv {A B} (m : M A) (k : A → M B) st b st' :
  bind m k st = Done (b, st') →
  ∃ a st1, m st = Done (a, st1) ∧ k a st1 = Done (b, st').
Proof.
  unfold bind. destruct (m st) as [[a st1]| |]; [|done..]. eauto.
Qed.

Lemma update_app_Done sid f st a :
  apps st !! sid = Some a →
  update_app sid f st = Done (tt, set_apps <[sid:=f a]> st).
Proof. intros H. unfold update_app; unfold_monad. by rewrite H. Qed.

Lemma is_internal_session_Done s st a :
  apps st !! app s = Some a →
  (∀ c, authenticated_credentials a = Some c → is_Some (creds st !! c)) →
  is_internal_session s st =
    Done (is_unix_socket_root (origin a) ||
          match authenticated_credentials a with
          | Some c => from_option is_root_tcp_or_node false (creds st !! c)
          | None => false
          end, st).
Proof.
  intros Ha Hc. unfold is_internal_session; unfold_monad. rewrite Ha.
  destruct (is_unix_socket_root (origin a)); [done|]; simpl.
  destruct (authenticated_credentials a) as [c|]; [|done].
  destruct (Hc c eq_refl) as [obj Hobj]. rewrite Hobj; simpl.
  by destruct (is_root_tcp_or_node obj).
Qed.

Lemma Credentials_logout_Done c st :
  is_Some (creds st !! c) → Credentials_logout c st = Done (tt, st).
Proof.
  intros [obj Hobj]. unfold Credentials_logout; unfold_monad. rewrite Hobj.
  by destruct obj.
Qed.

Lemma SessionManager_login_again now sid c st a s :
  apps st !! sid = Some a → authenticated a = true →
  sessions st !! sid = Some s →
  SessionManager_login now sid c st =
    Done (tt, set_apps <[sid:=set_authenticated_credentials c a]>
                (set_sessions <[sid:=mkSession c (app s) (created_at s)]> st)).
Proof.
  intros Ha Hau Hs. unfold SessionManager_login, update_app; unfold_monad.
  rewrite Ha, Hau, Hs; simpl. by rewrite Ha.
Qed.

Lemma SessionManager_login_first now sid c st a obj :
  apps st !! sid = Some a → authenticated a = false →
  creds st !! c = Some obj →
  SessionManager_login now sid c st =
    Done (tt,
      (if is_unix_socket_root (origin a) || is_root_tcp_or_node obj
       then λ st, st
       else set_events (λ evs, (evs ++ [sessions_event ADDED sid])%list))
        (set_apps <[sid:=logged_in_app c a]>
           (set_sessions <[sid:=Session_new c sid now]> st))).
Proof.
  intros Ha Hau Hc. unfold SessionManager_login.
  unfold bind at 1. unfold deref_app at 1. rewrite Ha, Hau.
  unfold bind at 1. unfold modify at 1.
  unfold bind at 1. erewrite update_app_Done by exact Ha.
  unfold bind at 1. erewrite update_app_Done by apply lookup_insert_eq.
  unfold bind at 1. erewrite update_app_Done by apply lookup_insert_eq.
  unfold bind at 1. erewrite update_app_Done by apply lookup_insert_eq.
  rewrite !set_apps_insert_insert. fold (logged_in_app c a).
  unfold bind. erewrite is_internal_session_Done; cycle 1.
  { simpl. apply lookup_insert_eq. }
  { simpl. intros c' [= <-]. eauto. }
  simpl. rewrite Hc; simpl.
  by destruct (is_unix_socket_root (origin a) || is_root_tcp_or_node obj).
Qed.

Lemma SessionManager_logout_session sid st s a :
  wf st → sessions st !! sid = Some s → apps st !! sid = Some a →
  SessionManager_logout sid st =
    Done (tt,
      set_apps <[sid:=set_authenticated false a]>
        ((if is_unix_socket_root (origin a) ||
             from_option is_root_tcp_or_node false (creds st !! credentials s)
          then λ st, st
          else set_events (λ evs, (evs ++ [sessions_event REMOVED sid])%list))
           (set_sessions (delete sid) st))).
Proof.
  intros Hwf Hs Ha.
  destruct (wf_sessions_session _ _ _ Hwf Hs) as (Happ & a' & Ha' & Hau & Hcr & Hin).
  assert (a' = a) as -> by congruence.
  unfold SessionManager_logout.
  unfold bind at 1. unfold gets at 1. rewrite Hs.
  unfold bind at 1. unfold modify at 1.
  unfold bind at 1. unfold bind at 1.
  rewrite Credentials_logout_Done by exact Hin.
  unfold bind at 1. erewrite is_internal_session_Done; cycle 1.
  { simpl. rewrite Happ. exact Ha. }
  { simpl. intros c'. rewrite Hcr. by intros [= <-]. }
  rewrite Hcr. simpl.
  destruct (is_unix_socket_root (origin a) ||
            from_option is_root_tcp_or_node false (creds st !! credentials s));
    simpl; unfold send_event; unfold_monad; unfold update_app; unfold_monad;
    simpl; by rewrite Ha.
Qed.

Lemma SessionManager_logout_no_session sid st a :
  sessions st !! sid = None → apps st !! sid = Some a →
  SessionManager_logout sid st =
    Done (tt, set_apps <[sid:=set_authenticated false a]>
                (set_sessions (delete sid) st)).
Proof.
  intros Hs Ha. unfold SessionManager_logout, update_app; unfold_monad.
  rewrite Hs; simpl. by rewrite Ha.
Qed.

(** ** Every operation keeps the invariant *)

Lemma SessionManager_login_wf now sid c st st' :
  wf st → is_Some (creds st !! c) →
  SessionManager_login now sid c st = Done (tt, st') → wf st'.
Proof.
  intros Hwf [obj Hc] H.
  destruct (apps st !! sid) as [a|] eqn:Ha; cycle 1.
  { unfold SessionManager_login in H; unfold_monad. by rewrite Ha in H. }
  destruct (authenticated a) eqn:Hau.
  - destruct (proj2 (wf_sessions _ Hwf) _ _ Ha Hau) as [s Hs].
    rewrite (SessionManager_login_again _ _ _ _ _ _ Ha Hau Hs) in H.
    injection H as <-. apply wf_login_state; eauto.
    destruct (wf_sessions_session _ _ _ Hwf Hs) as [? _]. done.
  - rewrite (SessionManager_login_first _ _ _ _ _ _ Ha Hau Hc) in H.
    injection H as <-.
    assert (wf (set_apps <[sid:=logged_in_app c a]>
                  (set_sessions <[sid:=Session_new c sid now]> st))).
    { apply wf_login_state; eauto. }
    destruct (_ || _); [done|]. by apply wf_events.
Qed.

Lemma SessionManager_logout_wf sid st st' :
  wf st → SessionManager_logout sid st = Done (tt, st') → wf st'.
Proof.
  intros Hwf H.
  destruct (sessions st !! sid) as [s|] eqn:Hs.
  - destruct (wf_sessions_session _ _ _ Hwf Hs) as (Happ & a & Ha & Hau & Hcr & Hin).
    rewrite (SessionManager_logout_session _ _ _ _ Hwf Hs Ha) in H.
    injection H as <-.
    assert (Hout : wf (set_apps <[sid:=set_authenticated false a]>
                         (set_sessions (delete sid) st))).
    { apply wf_logout_state; [done..|]. simpl. intros c Hc.
      eapply (proj1 (wf_closed _ Hwf)); eauto. }
    destruct (_ || _); [done|].
    exact (wf_events (λ evs, (evs ++ [sessions_event REMOVED sid])%list) _ Hout).
  - destruct (apps st !! sid) as [a|] eqn:Ha; cycle 1.
    { unfold SessionManager_logout, update_app in H; unfold_monad.
      rewrite Hs in H; simpl in H. by rewrite Ha in H. }
    rewrite (SessionManager_logout_no_session _ _ _ Hs Ha) in H.
    injection H as <-.
    apply wf_logout_state; [done..|]. simpl. intros c Hc.
    eapply (proj1 (wf_closed _ Hwf)); eauto.
Qed.

Lemma Credentials_notify_used_wf now c st st' :
  wf st → Credentials_notify_used now c st = Done (tt, st') → wf st'.
Proof.
  intros Hwf H. unfold Credentials_notify_used in H; unfold_monad.
  repeat (case_match; simplify_eq); try done.
  by apply wf_notify_used.
Qed.

Lemma Credentials_is_valid_state now c st b st' :
  Credentials_is_valid now c st = Done (b, st') → st' = st.
Proof.
  intros H. unfold Credentials_is_valid in H; unfold_monad.
  repeat (case_match; simplify_eq); done.
Qed.

Lemma SessionManager_app_on_message_wf now now' sid st st' :
  wf st → SessionManager_app_on_message now now' sid st = Done (tt, st') → wf st'.
Proof.
  intros Hwf H. unfold SessionManager_app_on_message in H.
  apply bind_Done_inv in H as (session & st1 & Hget & H).
  unfold gets in Hget. injection Hget as <- <-.
  destruct (sessions st !! sid) as [s|] eqn:Hs.
  - apply bind_Done_inv in H as (valid & st1 & Hvalid & H).
    apply Credentials_is_valid_state in Hvalid as ->.
    destruct valid; simpl in H.
    + by eapply Credentials_notify_used_wf.
    + by eapply SessionManager_logout_wf.
  - unfold update_app in H; unfold_monad.
    destruct (apps st !! sid) as [a|] eqn:Ha; [|done].
    injection H as <-. eapply wf_app_update; [done|exact Ha| |done].
    simpl. destruct (authenticated a) eqn:Hau; [|done].
    destruct (proj2 (wf_sessions _ Hwf) _ _ Ha Hau) as [? ?]. congruence.
Qed.

Lemma TokenManager_get_cases now id o st found st' :
  TokenManager_get now id o st = Done (found, st') →
  st' = st ∨ (found = None ∧ ∃ id', st' = set_tokens (delete id') st).
Proof.
  intros H. unfold TokenManager_get in H; unfold_monad.
  repeat (case_match; simplify_eq); eauto.
Qed.

Lemma TokenManager_get_wf now id o st found st' :
  wf st → TokenManager_get now id o st = Done (found, st') → wf st'.
Proof.
  intros Hwf H. apply TokenManager_get_cases in H as [->|(_ & id' & ->)]; [done|].
  by apply wf_registry_delete.
Qed.

Lemma TokenManager_get_found now id o st r st' :
  TokenManager_get now id o st = Done (Some r, st') →
  st' = st ∧ tokens st !! id = Some r ∧ is_Some (token_objs st !! r).
Proof.
  intros H. unfold TokenManager_get in H; unfold_monad.
  repeat (case_match; simplify_eq); eauto.
Qed.

Lemma TokenManager_create_Done now new_id ttl attributes mo parent st :
  TokenManager_create now new_id ttl attributes mo parent st =
    Done (fresh (dom (token_objs st)),
          set_tokens <[new_id:=fresh (dom (token_objs st))]>
            (set_token_objs
               <[fresh (dom (token_objs st)):=
                   Token_new new_id ttl (default ∅ attributes) mo parent now]> st)).
Proof. reflexivity. Qed.

Lemma new_cred_Done obj st :
  new_cred obj st =
    Done (fresh (dom (creds st)), set_creds <[fresh (dom (creds st)):=obj]> st).
Proof. reflexivity. Qed.

Lemma call_Done c st : call c st = Done (tt, log_calls [c] st).
Proof. reflexivity. Qed.

Lemma log_calls_app l1 l2 st :
  log_calls l2 (log_calls l1 st) = log_calls (l1 ++ l2) st.
Proof. unfold log_calls, set_calls; simpl. by rewrite app_assoc. Qed.

Lemma wf_log_calls l st : wf st → wf (log_calls l st).
Proof. apply wf_calls. Qed.

Lemma AuthService_generate_token_wf now new_id sid ttl attrs mo st id st' :
  wf st →
  AuthService_generate_token now new_id sid ttl attrs mo st = Done (id, st') →
  wf st'.
Proof.
  intros Hwf H. unfold AuthService_generate_token in H.
  apply bind_Done_inv in H as (a & st1 & Ha & H).
  unfold deref_app in Ha. destruct (apps st !! sid) as [a'|] eqn:Happ; [|done].
  injection Ha as <- <-.
  destruct (authenticated a'); simpl in H; [|done].
  apply bind_Done_inv in H as (r & st1 & Hcreate & H).
  rewrite TokenManager_create_Done in Hcreate. injection Hcreate as <- <-.
  apply bind_Done_inv in H as (tok & st2 & Htok & H).
  unfold deref_token in Htok. case_match; [|done]. injection Htok as <- <-.
  unfold ret in H. injection H as _ <-.
  apply wf_new_token; [done..|].
  simpl. intros p Hp. eapply (proj1 (wf_closed _ Hwf)); eauto.
Qed.

Lemma AuthService_terminate_session_wf id st v st' :
  wf st → AuthService_terminate_session id st = Done (v, st') → wf st'.
Proof.
  intros Hwf H. unfold AuthService_terminate_session, update_app in H; unfold_monad.
  repeat (case_match; simplify_eq); try done.
  eapply wf_app_update; eauto.
Qed.

Lemma connect_wf sid o st st' :
  wf st → connect sid o st = Done (tt, st') → wf st'.
Proof.
  intros Hwf H. unfold connect in H; unfold_monad.
  repeat (case_match; simplify_eq); try done.
  by apply wf_connect.
Qed.

Lemma AuthService_login_wf mw now sid username password otp st b st' :
  wf st →
  AuthService_login mw now sid username password otp st = Done (b, st') →
  wf st'.
Proof.
  intros Hwf H. unfold AuthService_login in H.
  apply bind_Done_inv in H as ([] & st1 & Hc1 & H).
  rewrite call_Done in Hc1. injection Hc1 as <-.
  apply bind_Done_inv in H as ([] & st1 & Hc2 & H).
  rewrite call_Done in Hc2. injection Hc2 as <-.
  apply bind_Done_inv in H as (user & st1 & Hgate & H).
  assert (Hwf1 : wf st1).
  { destruct (auth_twofactor_config_enabled mw).
    - apply bind_Done_inv in Hgate as ([] & st2 & Hc3 & Hgate).
      rewrite call_Done in Hc3. injection Hc3 as <-.
      destruct (negb _); unfold ret in Hgate; injection Hgate as _ <-;
        by repeat apply wf_log_calls.
    - unfold ret in Hgate; injection Hgate as _ <-. by repeat apply wf_log_calls. }
  destruct user as [user|]; cycle 1.
  { unfold ret in H. by injection H as _ <-. }
  apply bind_Done_inv in H as (c & st2 & Hnew & H).
  rewrite new_cred_Done in Hnew. injection Hnew as <- <-.
  apply bind_Done_inv in H as ([] & st3 & Hlogin & H).
  unfold ret in H. injection H as _ <-.
  eapply SessionManager_login_wf; [| |exact Hlogin].
  - by apply wf_new_cred.
  - simpl. rewrite lookup_insert_eq. eauto.
Qed.

Lemma AuthService_login_with_token_wf now now' sid id st v st' :
  wf st →
  AuthService_login_with_token now now' sid id st = Done (v, st') →
  wf st'.
Proof.
  intros Hwf H. unfold AuthService_login_with_token in H.
  apply bind_Done_inv in H as (a & st1 & Ha & H).
  unfold deref_app in Ha. case_match; [|done]. injection Ha as <- <-.
  apply bind_Done_inv in H as (found & st1 & Hget & H).
  pose proof (TokenManager_get_wf _ _ _ _ _ _ Hwf Hget) as Hwf1.
  destruct found as [r|]; cycle 1.
  { unfold ret in H. by injection H as _ <-. }
  apply bind_Done_inv in H as (tok & st2 & Htok & H).
  unfold deref_token in Htok. destruct (token_objs st1 !! r) eqn:Hr; [|done].
  injection Htok as <- <-.
  destruct (negb _).
  { unfold ret in H. by injection H as _ <-. }
  apply bind_Done_inv in H as (c & st2 & Hnew & H).
  rewrite new_cred_Done in Hnew. injection Hnew as <- <-.
  apply bind_Done_inv in H as ([] & st3 & Hlogin & H).
  unfold ret in H. injection H as _ <-.
  eapply SessionManager_login_wf; [| |exact Hlogin].
  - apply wf_new_cred; [done|]. simpl. apply bool_decide_eq_true_2. eauto.
  - simpl. rewrite lookup_insert_eq. eauto.
Qed.

Lemma step_wf op st st' : wf st → step op st = Done (tt, st') → wf st'.
Proof.
  intros Hwf H. destruct op; simpl in H.
  - by eapply connect_wf.
  - apply bind_Done_inv in H as (ok & st1 & Hok & H).
    unfold gets in Hok. injection Hok as <- <-.
    destruct (credentials_closed st obj) eqn:Hclosed; cycle 1.
    { unfold ret in H. by injection H as <-. }
    apply bind_Done_inv in H as (a & st1 & Ha & H).
    unfold deref_app in Ha. case_match; [|done]. injection Ha as <- <-.
    apply bind_Done_inv in H as (c & st2 & Hnew & H).
    rewrite new_cred_Done in Hnew. injection Hnew as <- <-.
    eapply SessionManager_login_wf; [| |exact H].
    + by apply wf_new_cred.
    + simpl. rewrite lookup_insert_eq. eauto.
  - apply bind_Done_inv in H as (a & st1 & Ha & H).
    unfold deref_app in Ha. case_match; [|done]. injection Ha as <- <-.
    apply bind_Done_inv in H as (b & st1 & Hlogin & H).
    unfold ret in H. injection H as <-. by eapply AuthService_login_wf.
  - apply bind_Done_inv in H as (b & st1 & Hlogin & H).
    unfold ret in H. injection H as <-. by eapply AuthService_login_with_token_wf.
  - apply bind_Done_inv in H as (b & st1 & Hlogout & H).
    unfold ret in H. injection H as <-. unfold AuthService_logout in Hlogout.
    apply bind_Done_inv in Hlogout as ([] & st2 & Hlogout & H).
    unfold ret in H. injection H as _ <-. by eapply SessionManager_logout_wf.
  - by eapply SessionManager_app_on_message_wf.
  - by eapply SessionManager_logout_wf.
  - apply bind_Done_inv in H as (b & st1 & Hgen & H).
    unfold ret in H. injection H as <-. by eapply AuthService_generate_token_wf.
  - apply bind_Done_inv in H as (b & st1 & Hget & H).
    unfold ret in H. injection H as <-. by eapply TokenManager_get_wf.
  - apply bind_Done_inv in H as (b & st1 & Hterm & H).
    unfold ret in H. injection H as <-. by eapply AuthService_terminate_session_wf.
Qed.

Lemma reachable_wf st : reachable st → wf st.
Proof.
  induction 1 as [|st op st' _ IH Hstep]; [apply wf_init|by eapply step_wf].
Qed.

Lemma run_reachable ops st st' :
  reachable st → run ops st = Done (tt, st') → reachable st'.
Proof.
  revert st. induction ops as [|op ops IH]; intros st Hst H; simpl in H.
  - unfold ret in H. by injection H as <-.
  - apply bind_Done_inv in H as ([] & st1 & Hstep & H).
    eapply IH; [|exact H]. by eapply reachable_step.
Qed.

Lemma state_after_reachable ops : reachable (state_after ops).
Proof.
  unfold state_after. destruct (run ops init_state) as [[[] st]| |] eqn:H;
    try apply reachable_init.
  eapply run_reachable; [apply reachable_init|exact H].
Qed.


(** ** Token inspection *)

(** C10: [get_token] returns the attributes of whatever token is stored
    under the id and none exactly for the ids that are not keys; it reads no
    clock and no origin, so a token that [TokenManager.get] rejects as
    expired (and would evict) or as bound to another origin is still
    inspected, and the registry is left as it was. *)
Theorem AuthService_get_token_spec (token_id : string) (st : State) :
  registry_wf st →
  (∀ r tok, tokens st !! token_id = Some r → token_objs st !! r = Some tok →
     AuthService_get_token token_id st = Done (Some (attributes tok), st)) ∧
  (tokens st !! token_id = None →
     AuthService_get_token token_id st = Done (None, st)) ∧
  (∀ st', AuthService_get_token token_id st = Done (None, st') →
     tokens st !! token_id = None) ∧
  (∀ now o r tok, tokens st !! token_id = Some r → token_objs st !! r = Some tok →
     Token_is_valid now tok = false →
     AuthService_get_token token_id st = Done (Some (attributes tok), st) ∧
     ∃ st', TokenManager_get now token_id o st = Done (None, st') ∧
            tokens st' !! token_id = None) ∧
  (∀ now o r tok, tokens st !! token_id = Some r → token_objs st !! r = Some tok →
     Token_is_valid now tok = true → ¬ OriginAdmits (match_origin tok) o →
     AuthService_get_token token_id st = Done (Some (attributes tok), st) ∧
     TokenManager_get now token_id o st = Done (None, st)).
Proof.
  intros Hwf.
  assert (Hfound : ∀ r tok, tokens st !! token_id = Some r →
            token_objs st !! r = Some tok →
            AuthService_get_token token_id st = Done (Some (attributes tok), st)).
  { intros r tok Hid Hr. unfold AuthService_get_token; unfold_monad.
    by rewrite Hid, Hr. }
  split; [exact Hfound|]. split; [|split; [|split]].
  - intros Hid. unfold AuthService_get_token; unfold_monad. by rewrite Hid.
  - intros st' H. destruct (tokens st !! token_id) as [r|] eqn:Hid; [|done].
    destruct (Hwf _ _ Hid) as (tok & Hr & _).
    rewrite (Hfound _ _ eq_refl Hr) in H. discriminate.
  - intros now o r tok Hid Hr Hv. split; [by eapply Hfound|].
    destruct (Hwf _ _ Hid) as (tok' & Hr' & Hkey).
    assert (tok' = tok) as -> by congruence.
    exists (set_tokens (delete token_id) st).
    split; [by eapply TokenManager_get_expired|]. simpl. apply lookup_delete_eq.
  - intros now o r tok Hid Hr Hv Hadm. split; [by eapply Hfound|].
    destruct (TokenManager_get_valid now token_id o st r tok Hid Hr Hv)
      as [[? _]|[_ Heq]]; [contradiction | done].
Qed.

Lemma AuthService_get_token_spec_witness :
  registry_wf demo_state ∧
  AuthService_get_token "tok1" demo_state = Done (Some (attributes demo_token), demo_state) ∧
  ∃ st', TokenManager_get 9 "tok1" (Some demo_origin) demo_state = Done (None, st') ∧
         tokens st' !! "tok1" = None.
Proof.
  assert (Hwf : registry_wf demo_state)
    by apply wf_registry, reachable_wf, state_after_reachable.
  destruct (AuthService_get_token_spec "tok1" demo_state Hwf)
    as (_ & _ & _ & Hexpired & _).
  split; [exact Hwf|].
  apply (Hexpired 9%Q (Some demo_origin) 0 demo_token); vm_compute; reflexivity.
Defined.

(** ** Parent chains *)

Lemma root_credentials_loop_mono fuel fuel' st x o :
  root_credentials_loop fuel st x = o → o ≠ Diverge → (fuel ≤ fuel')%nat →
  root_credentials_loop fuel' st x = o.
Proof.
  revert fuel' x. induction fuel as [|fuel IH]; intros fuel' x H Ho Hle.
  - simpl in H. congruence.
  - destruct fuel' as [|fuel']; [lia|]. simpl in *.
    destruct x as [c|]; [|done].
    destruct (creds st !! c) as [obj|]; [|done].
    destruct obj; try done.
    destruct (token_objs st !! token0) as [tok|]; [|done].
    apply IH; [done..|lia].
Qed.

Lemma Unwraps_root_credentials_loop st x r :
  Unwraps st x r →
  ∃ fuel, ∀ fuel', (fuel ≤ fuel')%nat → root_credentials_loop fuel' st x = Done r.
Proof.
  induction 1 as [|c obj Hc Hobj|c t tok r Hc Ht _ [fuel IH]].
  - exists 1. intros [|fuel'] ?; [lia|done].
  - exists 1. intros [|fuel'] ?; [lia|]. simpl. rewrite Hc. by destruct obj.
  - exists (S fuel). intros [|fuel'] ?; [lia|]. simpl. rewrite Hc, Ht.
    apply IH. lia.
Qed.

Lemma root_credentials_loop_Unwraps fuel st x r :
  root_credentials_loop fuel st x = Done r → Unwraps st x r.
Proof.
  revert x. induction fuel as [|fuel IH]; intros x H; simpl in H; [done|].
  destruct x as [c|]; [|injection H as <-; constructor].
  destruct (creds st !! c) as [obj|] eqn:Hc; [|done].
  destruct obj; try (injection H as <-; by eapply unwraps_root).
  destruct (token_objs st !! token0) as [tok|] eqn:Ht; [|done].
  eapply unwraps_token; eauto.
Qed.

Lemma Unwraps_result st x r :
  Unwraps st x r →
  match r with
  | Some c => ∃ obj, creds st !! c = Some obj ∧ is_token_credentials obj = false
  | None => True
  end.
Proof. induction 1; eauto. Qed.

Lemma wf_token_chain st t tok :
  wf st → token_objs st !! t = Some tok →
  ∃ r, Unwraps st (parent_credentials tok) r.
Proof.
  intros Hwf Ht. destruct (parent_credentials tok) as [p|] eqn:Hp.
  - apply (wf_chains _ Hwf). eapply (proj2 (proj2 (wf_closed _ Hwf))); eauto.
  - exists None. constructor.
Qed.

Lemma cyclic_loop_diverges fuel :
  root_credentials_loop fuel cyclic_state (Some 0) = Diverge.
Proof.
  assert (Hc : creds cyclic_state !! 0 = Some (TokenSessionManagerCredentials 0))
    by reflexivity.
  assert (Ht : token_objs cyclic_state !! 0 = Some cyclic_token) by reflexivity.
  induction fuel as [|fuel IH]; [reflexivity|].
  cbn [root_credentials_loop]. rewrite Hc, Ht. exact IH.
Qed.

(** C9, as stated, fails: on the store whose only token has the credential
    derived from itself as parent, the loop of [root_credentials] is still
    running after any number of iterations. *)
Lemma Token_root_credentials_cycle_unbounded :
  ¬ ∃ fuel o, o ≠ Diverge ∧ Token_root_credentials fuel cyclic_state cyclic_token = o.
Proof.
  intros (fuel & o & Ho & H). unfold Token_root_credentials in H.
  change (parent_credentials cyclic_token) with (Some 0) in H.
  rewrite cyclic_loop_diverges in H. congruence.
Qed.

(** ** Authorization through a token *)

Lemma Credentials_authorize_mono fuel fuel' st c method resource o :
  Credentials_authorize fuel st c method resource = o → o ≠ Diverge →
  (fuel ≤ fuel')%nat →
  Credentials_authorize fuel' st c method resource = o.
Proof.
  revert fuel' c. induction fuel as [|fuel IH]; intros fuel' c H Ho Hle.
  - simpl in H. congruence.
  - destruct fuel' as [|fuel']; [lia|]. simpl in *.
    destruct (creds st !! c) as [obj|]; [|done].
    destruct obj; try done.
    destruct (token_objs st !! token0) as [tok|]; [|done].
    destruct (parent_credentials tok) as [p|]; [|done].
    apply IH; [done..|lia].
Qed.

Lemma Credentials_authorize_token st c t tok p method resource o :
  creds st !! c = Some (TokenSessionManagerCredentials t) →
  token_objs st !! t = Some tok →
  parent_credentials tok = Some p →
  returns (λ fuel, Credentials_authorize fuel st c method resource) o ↔
  returns (λ fuel, Credentials_authorize fuel st p method resource) o.
Proof.
  intros Hc Ht Hp. unfold returns. split; intros [Ho [fuel H]]; (split; [done|]).
  - destruct fuel as [|fuel]; simpl in H; [congruence|].
    rewrite Hc, Ht, Hp in H. eauto.
  - exists (S fuel). simpl. by rewrite Hc, Ht, Hp.
Qed.

Lemma Unwraps_authorize_returns st x r :
  Unwraps st x r → ∀ c method resource, x = Some c →
  ∃ o, returns (λ fuel, Credentials_authorize fuel st c method resource) o.
Proof.
  induction 1 as [|c obj Hc Hobj|c t tok r Hc Ht Hchain IH];
    intros c' method resource Hx; simplify_eq.
  - assert (∃ b, Credentials_authorize 1 st c' method resource = Done b) as [b Hb].
    { simpl. rewrite Hc. destruct obj; try done; eauto. }
    exists (Done b). split; [done|eauto].
  - destruct (parent_credentials tok) as [p|] eqn:Hp.
    + destruct (IH p method resource eq_refl) as [o Ho]. exists o.
      by eapply Credentials_authorize_token.
    + exists (Raise AttributeError). split; [done|]. exists 1. simpl.
      by rewrite Hc, Ht, Hp.
Qed.

(** C3: in any state, [authorize] of a token-derived credential ends with
    exactly the result [authorize] of the token's parent credential ends
    with in that state, for every method and resource.  This holds again in
    the state in which the parent object has been replaced by any other
    object; when the parent is a user credential whose allowlist has been
    replaced, the token-derived credential answers with the new allowlist.
    In a state the operations lead to, the call does end. *)
Theorem TokenSessionManagerCredentials_authorize_defers
    (st : State) (c : cred_ref) (t : tok_ref) (tok : Token) (p : cred_ref)
    (method resource : string) :
  creds st !! c = Some (TokenSessionManagerCredentials t) →
  token_objs st !! t = Some tok →
  parent_credentials tok = Some p →
  (∀ o, returns (λ fuel, Credentials_authorize fuel st c method resource) o ↔
        returns (λ fuel, Credentials_authorize fuel st p method resource) o) ∧
  (∀ obj', p ≠ c →
     ∀ o, returns (λ fuel, Credentials_authorize fuel (set_creds <[p:=obj']> st)
                             c method resource) o ↔
          returns (λ fuel, Credentials_authorize fuel (set_creds <[p:=obj']> st)
                             p method resource) o) ∧
  (∀ user allowlist', p ≠ c →
     returns (λ fuel, Credentials_authorize fuel
                (set_creds <[p:=LoginPasswordSessionManagerCredentials user allowlist']> st)
                c method resource)
             (Done (allowlist' method resource))) ∧
  (reachable st →
     ∃ o, returns (λ fuel, Credentials_authorize fuel st c method resource) o).
Proof.
  intros Hc Ht Hp.
  assert (Hmut : ∀ obj', p ≠ c →
            ∀ o, returns (λ fuel, Credentials_authorize fuel (set_creds <[p:=obj']> st)
                             c method resource) o ↔
                 returns (λ fuel, Credentials_authorize fuel (set_creds <[p:=obj']> st)
                             p method resource) o).
  { intros obj' Hne o. eapply Credentials_authorize_token; [|exact Ht|exact Hp].
    simpl. by rewrite lookup_insert_ne. }
  split; [|split; [|split]].
  - intros o. by eapply Credentials_authorize_token.
  - exact Hmut.
  - intros user allowlist' Hne. apply Hmut; [done|]. split; [done|].
    exists 1. simpl. by rewrite lookup_insert_eq.
  - intros Hreach. pose proof (reachable_wf _ Hreach) as Hwf.
    destruct (wf_chains _ Hwf c) as [r Hr]; [eauto|].
    by eapply Unwraps_authorize_returns.
Qed.

Lemma TokenSessionManagerCredentials_authorize_defers_witness :
  returns (λ fuel, Credentials_authorize fuel
             (set_creds <[0:=LoginPasswordSessionManagerCredentials alice (λ _ _, false)]>
                        demo_state_token_login)
             1 "CALL" "pool.query")
          (Done false) ∧
  returns (λ fuel, Credentials_authorize fuel demo_state_token_login 1 "CALL" "pool.query")
          (Done true).
Proof.
  destruct (TokenSessionManagerCredentials_authorize_defers
              demo_state_token_login 1 0 demo_token 0 "CALL" "pool.query")
    as (Hdefers & _ & Hmutated & _); try (vm_compute; reflexivity).
  split.
  - apply (Hmutated alice (λ _ _, false)). lia.
  - apply Hdefers. split; [done|]. exists 1. vm_compute. reflexivity.
Defined.

(** ** Internal sessions *)

Lemma is_unix_socket_root_iff o :
  is_unix_socket_root o = true ↔ o = Some (UnixSocketOrigin 0).
Proof.
  destruct o as [[uid|addr port]|]; simpl; try (split; [done|congruence]).
  rewrite bool_decide_eq_true. split; congruence.
Qed.

Lemma is_root_tcp_or_node_iff obj :
  is_root_tcp_or_node obj = true ↔
  obj = RootTcpSocketSessionManagerCredentials ∨
  obj = TrueNasNodeSessionManagerCredentials.
Proof. destruct obj; simpl; split; try done; auto; intros [?|?]; done. Qed.

Lemma Internal_iff st s a obj :
  apps st !! app s = Some a → creds st !! credentials s = Some obj →
  Internal st s ↔ is_unix_socket_root (origin a) || is_root_tcp_or_node obj = true.
Proof.
  intros Ha Hc. unfold Internal.
  rewrite orb_true_iff, is_unix_socket_root_iff, is_root_tcp_or_node_iff, Ha, Hc.
  split.
  - intros [(a' & [= <-] & Ho)|[[= ->]|[= ->]]]; auto.
  - intros [Ho|[->| ->]]; eauto.
Qed.

Lemma is_internal_session_wf st sid s :
  wf st → sessions st !! sid = Some s →
  ∃ b, is_internal_session s st = Done (b, st) ∧ (b = true ↔ Internal st s).
Proof.
  intros Hwf Hs.
  destruct (wf_sessions_session _ _ _ Hwf Hs) as (Happ & a & Ha & Hau & Hcr & [obj Hobj]).
  rewrite <- Happ in Ha.
  eexists. split.
  - apply is_internal_session_Done with (a := a); [done|].
    intros c. rewrite Hcr. intros [= <-]. eauto.
  - rewrite Hcr, Hobj; simpl. symmetry. by apply Internal_iff.
Qed.

(** ** The session listing *)

Lemma insert_by_created_at_perm x l : insert_by_created_at x l ≡ₚ x :: l.
Proof.
  induction l as [|y l IH]; simpl; [done|].
  destruct (Qle_bool _ _); [done|]. rewrite IH. apply Permutation_swap.
Qed.

Lemma sorted_by_created_at_perm l : sorted_by_created_at l ≡ₚ l.
Proof.
  induction l as [|x l IH]; simpl; [done|].
  rewrite insert_by_created_at_perm. by rewrite IH.
Qed.

Lemma session_entry_Done st caller item :
  wf st → sessions st !! item.1 = Some item.2 →
  ∃ e, session_entry caller item st = Done (e, st) ∧ entry_matches st caller item e.
Proof.
  intros Hwf Hs. destruct item as [sid s]; simpl in *.
  destruct (is_internal_session_wf _ _ _ Hwf Hs) as (b & Hb & Hiff).
  destruct (wf_sessions_session _ _ _ Hwf Hs) as (Happ & a & Ha & _).
  rewrite <- Happ in Ha.
  exists (mkSessionEntry sid (bool_decide (caller = sid)) b (origin a) (created_at s)).
  split; [|done].
  unfold session_entry; unfold_monad. rewrite Hb. by rewrite Ha.
Qed.

Lemma mapM_session_entry_Done st caller items :
  wf st → Forall (λ item, sessions st !! item.1 = Some item.2) items →
  ∃ entries, mapM (session_entry caller) items st = Done (entries, st) ∧
             Forall2 (entry_matches st caller) items entries.
Proof.
  intros Hwf. induction 1 as [|item items Hitem _ [entries [IH1 IH2]]].
  - exists []. split; [done|constructor].
  - destruct (session_entry_Done st caller item Hwf Hitem) as (e & He & Hm).
    exists (e :: entries). split; [|by constructor].
    simpl. unfold bind at 1. rewrite He. unfold bind at 1. by rewrite IH1.
Qed.

Lemma AuthService_sessions_Done st caller filters :
  wf st →
  ∃ items entries,
    AuthService_sessions caller filters st = Done (filter_list entries filters, st) ∧
    items ≡ₚ map_to_list (sessions st) ∧
    Forall2 (entry_matches st caller) items entries.
Proof.
  intros Hwf.
  set (items := sorted_by_created_at (map_to_list (sessions st))).
  assert (Hperm : items ≡ₚ map_to_list (sessions st))
    by apply sorted_by_created_at_perm.
  destruct (mapM_session_entry_Done st caller items Hwf) as (entries & Hrun & Hall).
  { apply Forall_forall. intros [sid s] Hin. simpl.
    apply elem_of_map_to_list. by rewrite <- Hperm. }
  exists items, entries. split; [|done].
  unfold AuthService_sessions. unfold bind at 1. unfold gets at 1.
  fold items. unfold bind at 1. by rewrite Hrun.
Qed.

Lemma listing_ids st caller items entries :
  items ≡ₚ map_to_list (sessions st) →
  Forall2 (entry_matches st caller) items entries →
  NoDup (entry_id <$> entries) ∧
  ∀ sid, sid ∈ entry_id <$> entries ↔ is_Some (sessions st !! sid).
Proof.
  intros Hperm Hall.
  assert (Hids : entry_id <$> entries = items.*1).
  { clear Hperm. induction Hall as [|item e items entries (Hid & _) _ IH]; [done|].
    rewrite !fmap_cons. by rewrite Hid, IH. }
  rewrite Hids. split.
  - rewrite Hperm. apply NoDup_fst_map_to_list.
  - intros sid. rewrite Hperm, list_elem_of_fmap. split.
    + intros ([sid' s] & -> & Hin). apply elem_of_map_to_list in Hin. eauto.
    + intros [s Hs]. exists (sid, s). split; [done|]. by apply elem_of_map_to_list.
Qed.

(** ** Logging in *)

Lemma filter_list_nil entries : filter_list entries [] = entries.
Proof.
  unfold filter_list; simpl. induction entries as [|e entries IH]; simpl; [done|].
  by rewrite IH.
Qed.

Lemma SessionManager_login_Done now sid c st a :
  wf st → apps st !! sid = Some a → is_Some (creds st !! c) →
  ∃ st', SessionManager_login now sid c st = Done (tt, st') ∧ wf st' ∧
    creds st' = creds st ∧ token_objs st' = token_objs st ∧
    tokens st' = tokens st ∧ calls st' = calls st ∧
    (∃ a', apps st' !! sid = Some a' ∧ authenticated a' = true ∧
           authenticated_credentials a' = Some c ∧ origin a' = origin a) ∧
    (∃ s', sessions st' !! sid = Some s' ∧ credentials s' = c ∧
           sessions st' = <[sid:=s']> (sessions st) ∧
           match sessions st !! sid with
           | Some s => created_at s' = created_at s ∧ events st' = events st
           | None => created_at s' = now
           end).
Proof.
  intros Hwf Ha [obj Hc].
  assert (∃ st', SessionManager_login now sid c st = Done (tt, st')) as [st' Hrun].
  { destruct (authenticated a) eqn:Hau.
    - destruct (proj2 (wf_sessions _ Hwf) _ _ Ha Hau) as [s Hs].
      rewrite (SessionManager_login_again _ _ _ _ _ _ Ha Hau Hs). eauto.
    - rewrite (SessionManager_login_first _ _ _ _ _ _ Ha Hau Hc). eauto. }
  exists st'. split; [done|].
  split; [eapply SessionManager_login_wf; eauto|].
  destruct (authenticated a) eqn:Hau.
  - destruct (proj2 (wf_sessions _ Hwf) _ _ Ha Hau) as [s Hs].
    rewrite (SessionManager_login_again _ _ _ _ _ _ Ha Hau Hs) in Hrun.
    injection Hrun as <-. simpl. do 4 (split; [done|]). split.
    + eexists. rewrite lookup_insert_eq. by split.
    + eexists. rewrite lookup_insert_eq. split; [done|]. rewrite Hs. by simpl.
  - assert (Hs : sessions st !! sid = None).
    { destruct (sessions st !! sid) as [s|] eqn:Hs; [|done].
      destruct (wf_sessions_session _ _ _ Hwf Hs) as (_ & a' & Ha' & Hau' & _).
      congruence. }
    rewrite (SessionManager_login_first _ _ _ _ _ _ Ha Hau Hc) in Hrun.
    injection Hrun as <-. rewrite Hs.
    destruct (_ || _); simpl; (do 4 (split; [done|])); (split;
      [eexists; rewrite lookup_insert_eq; by split
      |eexists; rewrite lookup_insert_eq; by split]).
Qed.

(** C5: [SessionManager.login] on a connection of a well-formed state
    returns, and leaves the connection authenticated with the new credential
    stored on it and in its session.  When the connection already had a
    session, the registry has the same keys as before, every other session
    is untouched, the session keeps its [created_at] and holds the new
    credential, no event is sent, and the unfiltered session listing names
    the same session ids as before, each once. *)
Theorem SessionManager_login_replaces_credentials
    (now : Q) (sid : string) (c : cred_ref) (st : State) (a : App) :
  wf st → apps st !! sid = Some a → is_Some (creds st !! c) →
  ∃ st', SessionManager_login now sid c st = Done (tt, st') ∧
    (∃ a', apps st' !! sid = Some a' ∧ authenticated a' = true ∧
           authenticated_credentials a' = Some c) ∧
    (∃ s', sessions st' !! sid = Some s' ∧ credentials s' = c) ∧
    (∀ s, sessions st !! sid = Some s →
       dom (sessions st') = dom (sessions st) ∧
       (∀ sid', sid' ≠ sid → sessions st' !! sid' = sessions st !! sid') ∧
       sessions st' !! sid = Some (mkSession c (app s) (created_at s)) ∧
       events st' = events st ∧
       ∀ caller, ∃ l l',
         AuthService_sessions caller [] st = Done (l, st) ∧
         AuthService_sessions caller [] st' = Done (l', st') ∧
         NoDup (entry_id <$> l') ∧
         entry_id <$> l' ≡ₚ entry_id <$> l).
Proof.
  intros Hwf Ha Hc.
  destruct (SessionManager_login_Done now sid c st a Hwf Ha Hc)
    as (st' & Hrun & Hwf' & _ & _ & _ & _ & (a' & Ha' & Hau' & Hcr' & _) &
        (s' & Hs' & Hcs' & Hmap & Hold)).
  exists st'. split; [done|]. split; [eauto|]. split; [eauto|].
  intros s Hs. rewrite Hs in Hold. destruct Hold as [Hcreated Hevents].
  assert (Hdom : dom (sessions st') = dom (sessions st)).
  { rewrite Hmap, dom_insert_L. apply subseteq_union_1_L, singleton_subseteq_l.
    apply elem_of_dom. eauto. }
  split; [done|]. split; [|split; [|split; [done|]]].
  - intros sid' Hne. rewrite Hmap. by apply lookup_insert_ne.
  - destruct (authenticated a) eqn:Hau; cycle 1.
    { destruct (wf_sessions_session _ _ _ Hwf Hs) as (_ & a0 & Ha0 & Hau0 & _).
      congruence. }
    rewrite (SessionManager_login_again _ _ _ _ _ _ Ha Hau Hs) in Hrun.
    injection Hrun as <-. simpl. apply lookup_insert_eq.
  - intros caller.
    destruct (AuthService_sessions_Done st caller [] Hwf)
      as (items & entries & Hl & Hperm & Hall).
    destruct (AuthService_sessions_Done st' caller [] Hwf')
      as (items' & entries' & Hl' & Hperm' & Hall').
    rewrite filter_list_nil in Hl, Hl'.
    destruct (listing_ids _ _ _ _ Hperm Hall) as [Hnd Hin].
    destruct (listing_ids _ _ _ _ Hperm' Hall') as [Hnd' Hin'].
    exists entries, entries'. do 3 (split; [done|]).
    apply NoDup_Permutation; [done..|].
    intros id. rewrite Hin, Hin', <- !elem_of_dom. by rewrite Hdom.
Qed.

Lemma SessionManager_login_replaces_credentials_witness :
  wf demo_state ∧
  ∃ st', SessionManager_login 7 "s1" 0 demo_state = Done (tt, st') ∧
         dom (sessions st') = dom (sessions demo_state) ∧
         sessions st' !! "s1" = Some (mkSession 0 "s1" 1).
Proof.
  assert (Hwf : wf demo_state) by apply reachable_wf, state_after_reachable.
  split; [exact Hwf|].
  destruct (SessionManager_login_replaces_credentials 7 "s1" 0 demo_state
              (logged_in_app 0 (mkApp (Some demo_origin) false None [] false)))
    as (st' & Hrun & _ & _ & Hagain).
  - exact Hwf.
  - vm_compute; reflexivity.
  - exists demo_credentials. vm_compute; reflexivity.
  - exists st'. split; [exact Hrun|].
    destruct (Hagain (mkSession 0 "s1" 1)) as (Hdom & _ & Hs & _).
    + vm_compute; reflexivity.
    + split; [exact Hdom|exact Hs].
Defined.

(** ** Events of the session channel *)

Lemma emits_nothing st st' : events st' = events st → emits_visible st st'.
Proof. intros H. exists []. split; [by rewrite app_nil_r|constructor]. Qed.

Lemma SessionManager_login_events now sid c st a st' :
  wf st → apps st !! sid = Some a → is_Some (creds st !! c) →
  SessionManager_login now sid c st = Done (tt, st') →
  ∃ new, events st' = (events st ++ new)%list ∧
    Forall (λ ev, event_name ev = "auth.sessions" ∧ event_type ev = ADDED ∧
                  ∃ s, sessions st' !! event_id ev = Some s ∧ ¬ Internal st' s) new.
Proof.
  intros Hwf Ha [obj Hc] Hrun.
  destruct (authenticated a) eqn:Hau.
  - destruct (proj2 (wf_sessions _ Hwf) _ _ Ha Hau) as [s Hs].
    rewrite (SessionManager_login_again _ _ _ _ _ _ Ha Hau Hs) in Hrun.
    injection Hrun as <-. exists []. split; [by rewrite app_nil_r|constructor].
  - rewrite (SessionManager_login_first _ _ _ _ _ _ Ha Hau Hc) in Hrun.
    injection Hrun as <-.
    destruct (is_unix_socket_root (origin a) || is_root_tcp_or_node obj) eqn:Hint.
    + exists []. split; [by rewrite app_nil_r|constructor].
    + exists [sessions_event ADDED sid]. split; [done|].
      constructor; [|constructor]. split; [done|]. split; [done|].
      exists (Session_new c sid now). simpl. split; [apply lookup_insert_eq|].
      rewrite (Internal_iff _ (Session_new c sid now) (logged_in_app c a) obj);
        simpl; [by rewrite Hint|apply lookup_insert_eq|done].
Qed.

Lemma SessionManager_logout_events sid st st' :
  wf st → SessionManager_logout sid st = Done (tt, st') → emits_visible st st'.
Proof.
  intros Hwf Hrun.
  destruct (sessions st !! sid) as [s|] eqn:Hs.
  - destruct (wf_sessions_session _ _ _ Hwf Hs)
      as (Happ & a & Ha & Hau & Hcr & [obj Hobj]).
    rewrite (SessionManager_logout_session _ _ _ _ Hwf Hs Ha) in Hrun.
    injection Hrun as <-. rewrite Hobj; simpl.
    destruct (is_unix_socket_root (origin a) || is_root_tcp_or_node obj) eqn:Hint.
    + by apply emits_nothing.
    + exists [sessions_event REMOVED sid]. split; [done|].
      constructor; [|constructor]. split; [done|]. simpl.
      exists s. split; [done|].
      rewrite (Internal_iff st s a obj); [by rewrite Hint|by rewrite Happ|done].
  - destruct (apps st !! sid) as [a|] eqn:Ha; cycle 1.
    { unfold SessionManager_logout, update_app in Hrun; unfold_monad.
      rewrite Hs in Hrun; simpl in Hrun. by rewrite Ha in Hrun. }
    rewrite (SessionManager_logout_no_session _ _ _ Hs Ha) in Hrun.
    injection Hrun as <-. by apply emits_nothing.
Qed.

Lemma login_emits_visible st st1 st' new :
  events st1 = events st →
  events st' = (events st1 ++ new)%list →
  Forall (λ ev, event_name ev = "auth.sessions" ∧ event_type ev = ADDED ∧
                ∃ s, sessions st' !! event_id ev = Some s ∧ ¬ Internal st' s) new →
  emits_visible st st'.
Proof.
  intros H1 H2 Hall. exists new. rewrite <- H1. split; [done|].
  eapply Forall_impl; [exact Hall|]. intros ev (Hname & Htype & Hs).
  split; [done|]. by rewrite Htype.
Qed.

Lemma Credentials_notify_used_events now c st st' :
  Credentials_notify_used now c st = Done (tt, st') → events st' = events st.
Proof.
  intros H. unfold Credentials_notify_used in H; unfold_monad.
  repeat (case_match; simplify_eq); done.
Qed.

Lemma AuthService_generate_token_events now new_id sid ttl attrs mo st id st' :
  AuthService_generate_token now new_id sid ttl attrs mo st = Done (id, st') →
  events st' = events st.
Proof.
  intros H. unfold AuthService_generate_token, TokenManager_create in H; unfold_monad.
  repeat (case_match; simplify_eq); done.
Qed.

Lemma AuthService_terminate_session_events id st v st' :
  AuthService_terminate_session id st = Done (v, st') → events st' = events st.
Proof.
  intros H. unfold AuthService_terminate_session, update_app in H; unfold_monad.
  repeat (case_match; simplify_eq); done.
Qed.

Lemma TokenManager_get_events now id o st found st' :
  TokenManager_get now id o st = Done (found, st') → events st' = events st.
Proof.
  intros H. by apply TokenManager_get_cases in H as [->|(_ & id' & ->)].
Qed.

Lemma AuthService_login_events mw now sid username password otp st a b st' :
  wf st → apps st !! sid = Some a →
  AuthService_login mw now sid username password otp st = Done (b, st') →
  emits_visible st st'.
Proof.
  intros Hwf Ha H. unfold AuthService_login in H.
  apply bind_Done_inv in H as ([] & st1 & Hc1 & H).
  rewrite call_Done in Hc1. injection Hc1 as <-.
  apply bind_Done_inv in H as ([] & st1 & Hc2 & H).
  rewrite call_Done in Hc2. injection Hc2 as <-.
  apply bind_Done_inv in H as (user & st1 & Hgate & H).
  assert (∃ l, st1 = log_calls l st) as [l ->].
  { destruct (auth_twofactor_config_enabled mw).
    - apply bind_Done_inv in Hgate as ([] & st2 & Hc3 & Hgate).
      rewrite call_Done in Hc3. injection Hc3 as <-.
      rewrite !log_calls_app in Hgate.
      destruct (negb _); unfold ret in Hgate; injection Hgate as _ <-; eauto.
    - rewrite !log_calls_app in Hgate.
      unfold ret in Hgate; injection Hgate as _ <-. eauto. }
  destruct user as [user|]; cycle 1.
  { unfold ret in H. injection H as _ <-. by apply emits_nothing. }
  apply bind_Done_inv in H as (c & st2 & Hnew & H).
  rewrite new_cred_Done in Hnew. injection Hnew as <- <-.
  apply bind_Done_inv in H as ([] & st3 & Hlogin & H).
  unfold ret in H. injection H as _ <-.
  destruct (SessionManager_login_events _ _ _ _ a _
              (wf_new_cred _ (LoginPasswordSessionManagerCredentials user
                                (privilege_allowlist user))
                           (wf_log_calls l _ Hwf) eq_refl) Ha
              (ltac:(simpl; rewrite lookup_insert_eq; eauto)) Hlogin)
    as (new & Hev & Hall).
  eapply login_emits_visible; [|exact Hev|exact Hall]. done.
Qed.

Lemma AuthService_login_with_token_events now now' sid id st v st' :
  wf st →
  AuthService_login_with_token now now' sid id st = Done (v, st') →
  emits_visible st st'.
Proof.
  intros Hwf H. unfold AuthService_login_with_token in H.
  apply bind_Done_inv in H as (a & st1 & Ha & H).
  unfold deref_app in Ha. destruct (apps st !! sid) as [a'|] eqn:Happ; [|done].
  injection Ha as <- <-.
  apply bind_Done_inv in H as (found & st1 & Hget & H).
  pose proof (TokenManager_get_events _ _ _ _ _ _ Hget) as Hev1.
  destruct found as [r|]; cycle 1.
  { unfold ret in H. injection H as _ <-. by apply emits_nothing. }
  apply TokenManager_get_found in Hget as (-> & _ & [tok Hr]).
  apply bind_Done_inv in H as (tok' & st2 & Htok & H).
  unfold deref_token in Htok. rewrite Hr in Htok. injection Htok as <- <-.
  destruct (negb _).
  { unfold ret in H. injection H as _ <-. by apply emits_nothing. }
  apply bind_Done_inv in H as (c & st2 & Hnew & H).
  rewrite new_cred_Done in Hnew. injection Hnew as <- <-.
  apply bind_Done_inv in H as ([] & st3 & Hlogin & H).
  unfold ret in H. injection H as _ <-.
  assert (Hwf2 : wf (set_creds <[fresh (dom (creds st)):=
                         TokenSessionManagerCredentials r]> st)).
  { apply wf_new_cred; [done|]. simpl. apply bool_decide_eq_true_2. eauto. }
  destruct (SessionManager_login_events _ _ _ _ a' _ Hwf2 Happ
              (ltac:(simpl; rewrite lookup_insert_eq; eauto)) Hlogin)
    as (new & Hev & Hall).
  eapply login_emits_visible; [|exact Hev|exact Hall]. done.
Qed.

Lemma step_emits_visible op st st' :
  wf st → step op st = Done (tt, st') → emits_visible st st'.
Proof.
  intros Hwf H. destruct op; simpl in H.
  - apply emits_nothing. unfold connect in H; unfold_monad.
    repeat (case_match; simplify_eq); done.
  - apply bind_Done_inv in H as (ok & st1 & Hok & H).
    unfold gets in Hok. injection Hok as <- <-.
    destruct (credentials_closed st obj) eqn:Hclosed; cycle 1.
    { unfold ret in H. injection H as <-. by apply emits_nothing. }
    apply bind_Done_inv in H as (a & st1 & Ha & H).
    unfold deref_app in Ha. destruct (apps st !! sid) as [a'|] eqn:Happ; [|done].
    injection Ha as <- <-.
    apply bind_Done_inv in H as (c & st2 & Hnew & H).
    rewrite new_cred_Done in Hnew. injection Hnew as <- <-.
    destruct (SessionManager_login_events _ _ _ _ a' _
                (wf_new_cred _ _ Hwf Hclosed) Happ
                (ltac:(simpl; rewrite lookup_insert_eq; eauto)) H)
      as (new & Hev & Hall).
    eapply login_emits_visible; [|exact Hev|exact Hall]. done.
  - apply bind_Done_inv in H as (a & st1 & Ha & H).
    unfold deref_app in Ha. destruct (apps st !! sid) as [a'|] eqn:Happ; [|done].
    injection Ha as <- <-.
    apply bind_Done_inv in H as (b & st1 & Hlogin & H).
    unfold ret in H. injection H as <-. by eapply AuthService_login_events.
  - apply bind_Done_inv in H as (b & st1 & Hlogin & H).
    unfold ret in H. injection H as <-.
    by eapply AuthService_login_with_token_events.
  - apply bind_Done_inv in H as (b & st1 & Hlogout & H).
    unfold ret in H. injection H as <-. unfold AuthService_logout in Hlogout.
    apply bind_Done_inv in Hlogout as ([] & st2 & Hlogout & H).
    unfold ret in H. injection H as _ <-. by eapply SessionManager_logout_events.
  - unfold SessionManager_app_on_message in H.
    apply bind_Done_inv in H as (session & st1 & Hget & H).
    unfold gets in Hget. injection Hget as <- <-.
    destruct (sessions st !! sid) as [s|] eqn:Hs.
    + apply bind_Done_inv in H as (valid & st1 & Hvalid & H).
      apply Credentials_is_valid_state in Hvalid as ->.
      destruct valid; simpl in H.
      * apply emits_nothing. by eapply Credentials_notify_used_events.
      * by eapply SessionManager_logout_events.
    + apply emits_nothing. unfold update_app in H; unfold_monad.
      repeat (case_match; simplify_eq); done.
  - by eapply SessionManager_logout_events.
  - apply bind_Done_inv in H as (b & st1 & Hgen & H).
    unfold ret in H. injection H as <-.
    apply emits_nothing. by eapply AuthService_generate_token_events.
  - apply bind_Done_inv in H as (b & st1 & Hget & H).
    unfold ret in H. injection H as <-.
    apply emits_nothing. by eapply TokenManager_get_events.
  - apply bind_Done_inv in H as (b & st1 & Hterm & H).
    unfold ret in H. injection H as <-.
    apply emits_nothing. by eapply AuthService_terminate_session_events.
Qed.

Lemma filter_list_exclude_internal entries e :
  e ∈ filter_list entries exclude_internal ↔ e ∈ entries ∧ entry_internal e = false.
Proof.
  unfold filter_list. rewrite !list_elem_of_In, filter_In.
  assert (forallb (filter_match e) exclude_internal = negb (entry_internal e)) as ->.
  { unfold exclude_internal, filter_match, entry_field; simpl.
    destruct (entry_internal e); reflexivity. }
  by rewrite negb_true_iff.
Qed.

(** C4: in every state the operations lead to, [is_internal_session]
    answers true for a registered session exactly when its connection comes
    from a Unix socket with peer uid 0 or its credential is a root TCP socket
    or a node credential; whatever operation runs next, each event it sends
    is an [auth.sessions] event about a session that is not internal (the
    one it adds, or the one it removes); and the listing filtered by
    [internal = false] returns, contains no internal session and contains
    every other session. *)
Theorem internal_sessions_are_hidden (st : State) :
  reachable st →
  (∀ sid s, sessions st !! sid = Some s →
     ∃ b, is_internal_session s st = Done (b, st) ∧ (b = true ↔ Internal st s)) ∧
  (∀ op st', step op st = Done (tt, st') →
     ∃ new, events st' = (events st ++ new)%list ∧
            Forall (event_visible st st') new) ∧
  (∀ caller, ∃ l,
     AuthService_sessions caller exclude_internal st = Done (l, st) ∧
     (∀ e, e ∈ l → ∃ s, sessions st !! entry_id e = Some s ∧ ¬ Internal st s) ∧
     (∀ sid s, sessions st !! sid = Some s → ¬ Internal st s →
        ∃ e, e ∈ l ∧ entry_id e = sid)).
Proof.
  intros Hreach. pose proof (reachable_wf _ Hreach) as Hwf.
  split; [|split].
  - intros sid s Hs. by eapply is_internal_session_wf.
  - intros op st' Hstep. by eapply step_emits_visible.
  - intros caller.
    destruct (AuthService_sessions_Done st caller exclude_internal Hwf)
      as (items & entries & Hl & Hperm & Hall).
    exists (filter_list entries exclude_internal). split; [done|]. split.
    + intros e [Hin Hint]%filter_list_exclude_internal.
      apply list_elem_of_lookup in Hin as [i Hi].
      destruct (Forall2_lookup_r _ _ _ _ _ Hall Hi) as ([sid s] & Hitem & Hm).
      destruct Hm as (Hid & _ & Hiff & _). simpl in *.
      exists s. split.
      * rewrite Hid. apply elem_of_map_to_list. rewrite <- Hperm.
        by eapply list_elem_of_lookup_2.
      * rewrite <- Hiff, Hint. done.
    + intros sid s Hs Hvis.
      assert (Hin : (sid, s) ∈ items).
      { rewrite Hperm. by apply elem_of_map_to_list. }
      apply list_elem_of_lookup in Hin as [i Hi].
      destruct (Forall2_lookup_l _ _ _ _ _ Hall Hi) as (e & He & Hm).
      destruct Hm as (Hid & _ & Hiff & _). simpl in *.
      exists e. split; [|done].
      apply filter_list_exclude_internal. split; [by eapply list_elem_of_lookup_2|].
      destruct (entry_internal e); [|done]. exfalso. by apply Hvis, Hiff.
Qed.

Lemma internal_sessions_are_hidden_witness :
  reachable demo_state_internal ∧
  (∃ l, AuthService_sessions "s1" exclude_internal demo_state_internal
        = Done (l, demo_state_internal) ∧ entry_id <$> l = ["s1"]) ∧
  events demo_state_internal = [sessions_event ADDED "s1"] ∧
  ∃ new, events (state_after (demo_ops_internal ++ [OpLogout "s0"]))
         = (events demo_state_internal ++ new)%list ∧
         Forall (event_visible demo_state_internal
                   (state_after (demo_ops_internal ++ [OpLogout "s0"]))) new.
Proof.
  assert (Hreach : reachable demo_state_internal) by apply state_after_reachable.
  destruct (internal_sessions_are_hidden demo_state_internal Hreach)
    as (_ & Hstep & _).
  split; [exact Hreach|]. split; [|split].
  - eexists. split; vm_compute; reflexivity.
  - vm_compute; reflexivity.
  - apply (Hstep (OpLogout "s0")). vm_compute; reflexivity.
Defined.

(** ** Password login *)

Lemma AuthService_login_eq mw now sid username password otp st :
  AuthService_login mw now sid username password otp st =
  let st1 := log_calls (login_calls mw username password otp) st in
  match (if auth_twofactor_config_enabled mw
         then if auth_twofactor_verify mw otp
              then auth_authenticate mw username password else None
         else auth_authenticate mw username password) with
  | Some user =>
    match SessionManager_login now sid (fresh (dom (creds st)))
            (set_creds <[fresh (dom (creds st)):=
               LoginPasswordSessionManagerCredentials user (privilege_allowlist user)]>
               st1) with
    | Done (_, st') => Done (true, st')
    | Raise e => Raise e
    | Diverge => Diverge
    end
  | None => Done (false, st1)
  end.
Proof.
  unfold AuthService_login, login_calls.
  unfold bind at 1. rewrite call_Done.
  unfold bind at 1. rewrite call_Done, log_calls_app.
  unfold bind at 1.
  destruct (auth_twofactor_config_enabled mw); simpl.
  - unfold bind at 1. rewrite call_Done, log_calls_app. simpl.
    destruct (auth_twofactor_verify mw otp); simpl.
    + destruct (auth_authenticate mw username password) as [user|]; [|done].
      unfold bind at 1. rewrite new_cred_Done. unfold bind. simpl.
      by destruct (SessionManager_login _ _ _ _) as [[[] ?]| |].
    + done.
  - destruct (auth_authenticate mw username password) as [user|]; [|done].
    unfold bind at 1. rewrite new_cred_Done. unfold bind. simpl.
    by destruct (SessionManager_login _ _ _ _) as [[[] ?]| |].
Qed.

(** C6: on a connection of a well-formed state [AuthService.login] returns
    a boolean.  Its calls through the middleware are the authentication, the
    two-factor configuration and, whenever two-factor authentication is
    enabled, the verification of the one-time password, whatever the
    authentication answered.  The result is true exactly when the
    authentication gave a user and, if two-factor authentication is enabled,
    the verification passed; a failed verification gives false.  On false
    nothing but the call log changed; on true the state is the one
    [SessionManager.login] produces for a new password-login credential of
    that user, which is then the credential of the session and of the
    connection. *)
Theorem AuthService_login_spec
    (mw : Middleware) (now : Q) (sid username password : string)
    (otp : option string) (st : State) (a : App) :
  wf st → apps st !! sid = Some a →
  ∃ b st',
    AuthService_login mw now sid username password otp st = Done (b, st') ∧
    calls st' = (calls st ++ login_calls mw username password otp)%list ∧
    (auth_twofactor_config_enabled mw = true →
       CallTwofactorVerify otp ∈ login_calls mw username password otp) ∧
    (b = true ↔
       is_Some (auth_authenticate mw username password) ∧
       (auth_twofactor_config_enabled mw = true →
          auth_twofactor_verify mw otp = true)) ∧
    (auth_twofactor_config_enabled mw = true →
       auth_twofactor_verify mw otp = false → b = false) ∧
    (b = false → st' = log_calls (login_calls mw username password otp) st) ∧
    (b = true →
       ∃ user s' a',
         auth_authenticate mw username password = Some user ∧
         SessionManager_login now sid (fresh (dom (creds st)))
           (set_creds <[fresh (dom (creds st)):=
              LoginPasswordSessionManagerCredentials user (privilege_allowlist user)]>
              (log_calls (login_calls mw username password otp) st))
           = Done (tt, st') ∧
         sessions st' !! sid = Some s' ∧
         creds st' !! credentials s' =
           Some (LoginPasswordSessionManagerCredentials user (privilege_allowlist user)) ∧
         apps st' !! sid = Some a' ∧ authenticated a' = true ∧
         authenticated_credentials a' = Some (credentials s')).
Proof.
  intros Hwf Ha. rewrite AuthService_login_eq. cbv zeta.
  set (st1 := log_calls (login_calls mw username password otp) st).
  assert (Hverify : auth_twofactor_config_enabled mw = true →
            CallTwofactorVerify otp ∈ login_calls mw username password otp).
  { intros He. unfold login_calls. rewrite He. simpl. set_solver. }
  assert (Hlogin : ∀ user,
            ∃ st' s' a',
              SessionManager_login now sid (fresh (dom (creds st)))
                (set_creds <[fresh (dom (creds st)):=
                   LoginPasswordSessionManagerCredentials user (privilege_allowlist user)]>
                   st1) = Done (tt, st') ∧
              calls st' = calls st1 ∧
              sessions st' !! sid = Some s' ∧
              creds st' !! credentials s' =
                Some (LoginPasswordSessionManagerCredentials user
                        (privilege_allowlist user)) ∧
              apps st' !! sid = Some a' ∧ authenticated a' = true ∧
              authenticated_credentials a' = Some (credentials s')).
  { intros user.
    destruct (SessionManager_login_Done now sid (fresh (dom (creds st)))
                (set_creds <[fresh (dom (creds st)):=
                   LoginPasswordSessionManagerCredentials user (privilege_allowlist user)]>
                   st1) a)
      as (st' & Hrun & _ & Hcreds & _ & _ & Hcalls &
          (a' & Ha' & Hau' & Hcr' & _) & (s' & Hs' & Hcs' & _)).
    - apply (wf_new_cred st1); [by apply wf_log_calls|done].
    - exact Ha.
    - simpl. rewrite lookup_insert_eq. eauto.
    - exists st', s', a'. split; [done|]. split; [done|]. split; [done|].
      split; [|split; [done|split; [done|congruence]]].
      rewrite Hcreds, Hcs'. simpl. apply lookup_insert_eq. }
  destruct (auth_twofactor_config_enabled mw) eqn:He;
    [destruct (auth_twofactor_verify mw otp) eqn:Hv|];
    destruct (auth_authenticate mw username password) as [user|] eqn:Hauth.
  all: try (destruct (Hlogin user)
              as (st' & s' & a' & Hrun & Hcalls & Hs' & Hc' & Ha' & Hau' & Hcr');
            rewrite Hrun; exists true, st';
            split; [done|]; split; [done|]; split; [done|];
            split; [split; [intros _; split; [eauto|done]|done]|];
            split; [congruence|]; split; [done|];
            intros _; exists user, s', a'; done).
  all: exists false, st1; split; [done|]; split; [done|]; split; [done|];
    split;
      [split; [done|]; intros [[? ?] Hx]; solve [done | by specialize (Hx eq_refl)]|];
    split; [done|]; split; [done|]; done.
Qed.

Lemma AuthService_login_spec_witness :
  wf demo_state ∧
  ∃ st', AuthService_login demo_middleware 5 "s1" "alice" "secret" (Some "000000")
           demo_state = Done (false, st') ∧
         calls st' = (calls demo_state ++
                      [CallAuthenticate "alice" "secret"; CallTwofactorConfig;
                       CallTwofactorVerify (Some "000000")])%list.
Proof.
  assert (Hwf : wf demo_state) by apply reachable_wf, state_after_reachable.
  split; [exact Hwf|].
  destruct (AuthService_login_spec demo_middleware 5 "s1" "alice" "secret"
              (Some "000000") demo_state
              (logged_in_app 0 (mkApp (Some demo_origin) false None [] false)))
    as (b & st' & Hrun & Hcalls & _ & _ & Hotp & _).
  - exact Hwf.
  - vm_compute; reflexivity.
  - exists st'. rewrite (Hotp eq_refl eq_refl) in Hrun. split; [exact Hrun|exact Hcalls].
Defined.

(** ** Token login *)

Lemma attributes_truthy (attrs : gmap string JValue) :
  negb (Nat.eqb (size attrs) 0) = true ↔ attrs ≠ ∅.
Proof.
  rewrite negb_true_iff, Nat.eqb_neq. apply map_size_non_empty_iff.
Qed.

Lemma AuthService_login_with_token_succeeds now now' sid id st st' :
  wf st →
  AuthService_login_with_token now now' sid id st = Done (PyBool true, st') →
  ∃ a r tok s',
    apps st !! sid = Some a ∧ tokens st !! id = Some r ∧
    token_objs st !! r = Some tok ∧ attributes tok = ∅ ∧
    TokenManager_get now id (origin a) st = Done (Some r, st) ∧
    sessions st' !! sid = Some s' ∧
    creds st' !! credentials s' = Some (TokenSessionManagerCredentials r).
Proof.
  intros Hwf H. unfold AuthService_login_with_token in H.
  apply bind_Done_inv in H as (a & st1 & Ha & H).
  unfold deref_app in Ha. destruct (apps st !! sid) as [a'|] eqn:Happ; [|done].
  injection Ha as <- <-.
  apply bind_Done_inv in H as (found & st1 & Hget & H).
  destruct found as [r|]; [|done].
  pose proof Hget as Hget'.
  apply TokenManager_get_found in Hget' as (-> & Hid & [tok Hr]).
  apply bind_Done_inv in H as (tok' & st2 & Htok & H).
  unfold deref_token in Htok. rewrite Hr in Htok. injection Htok as <- <-.
  destruct (negb (Nat.eqb (size (attributes tok)) 0)) eqn:Hattrs; [done|].
  apply bind_Done_inv in H as (c & st2 & Hnew & H).
  rewrite new_cred_Done in Hnew. injection Hnew as <- <-.
  apply bind_Done_inv in H as ([] & st3 & Hlogin & H).
  unfold ret in H. injection H as <-.
  assert (Hwf2 : wf (set_creds <[fresh (dom (creds st)):=
                         TokenSessionManagerCredentials r]> st)).
  { apply wf_new_cred; [done|]. simpl. apply bool_decide_eq_true_2. eauto. }
  destruct (SessionManager_login_Done now' sid (fresh (dom (creds st))) _ a' Hwf2 Happ)
    as (st'' & Hrun & _ & Hcreds & _ & _ & _ & _ & (s' & Hs' & Hcs' & _)).
  { simpl. rewrite lookup_insert_eq. eauto. }
  rewrite Hrun in Hlogin. injection Hlogin as ->.
  exists a', r, tok, s'. repeat (split; [done|]). split.
  - apply not_true_iff_false in Hattrs. rewrite attributes_truthy in Hattrs.
    by apply dec_stable.
  - split; [done|]. split; [done|]. rewrite Hcreds, Hcs'. simpl. apply lookup_insert_eq.
Qed.

(** C7 (what the code does): for a stored, valid token that the origin of
    the connection may redeem and whose attributes are not empty,
    [login_with_token] returns [None], which is neither [True] nor [False];
    the state is unchanged, so [SessionManager.login] was not called. *)
Theorem AuthService_login_with_token_attributes
    (now now' : Q) (sid id : string) (st : State) (a : App) (r : tok_ref) (tok : Token) :
  apps st !! sid = Some a →
  tokens st !! id = Some r → token_objs st !! r = Some tok →
  Token_is_valid now tok = true → OriginAdmits (match_origin tok) (origin a) →
  attributes tok ≠ ∅ →
  AuthService_login_with_token now now' sid id st = Done (PyNone, st) ∧
  PyNone ≠ PyBool false.
Proof.
  intros Ha Hid Hr Hv Hadm Hattrs. split; [|done].
  destruct (TokenManager_get_valid now id (origin a) st r tok Hid Hr Hv)
    as [[_ Hget]|[Hn _]]; [|contradiction].
  apply attributes_truthy in Hattrs.
  unfold AuthService_login_with_token.
  unfold bind at 1. unfold deref_app at 1. rewrite Ha.
  unfold bind at 1. rewrite Hget.
  unfold bind at 1. unfold deref_token at 1. rewrite Hr.
  by rewrite Hattrs.
Qed.

Lemma AuthService_login_with_token_attributes_witness :
  AuthService_login_with_token 3 4 "s3" "tok2" demo_state_attributes
    = Done (PyNone, demo_state_attributes) ∧
  PyNone ≠ PyBool false.
Proof.
  apply (AuthService_login_with_token_attributes 3 4 "s3" "tok2" demo_state_attributes
           (mkApp (Some (TCPIPOrigin "10.0.0.9" 50000)) false None [] false)
           1 (Token_new "tok2" 600 {[ "filename" := JStr "debug.txz" ]} None (Some 0) 2)).
  - vm_compute; reflexivity.
  - vm_compute; reflexivity.
  - vm_compute; reflexivity.
  - vm_compute; reflexivity.
  - simpl. constructor.
  - simpl. intros Hempty.
    apply (f_equal (λ m : gmap string JValue, m !! "filename")) in Hempty.
    vm_compute in Hempty. discriminate.
Defined.

(** ** Session termination *)

(** C8 (what the code does): [terminate_session] returns [False] for an id
    without session; for the id of a session it closes the transport of the
    connection and returns [None], not [True]. *)
Theorem AuthService_terminate_session_returns (id : string) (st : State) :
  (sessions st !! id = None →
     AuthService_terminate_session id st = Done (PyBool false, st)) ∧
  (∀ s a, sessions st !! id = Some s → apps st !! app s = Some a →
     AuthService_terminate_session id st =
       Done (PyNone, set_apps <[app s:=response_close a]> st) ∧
     response_closed (response_close a) = true ∧
     PyNone ≠ PyBool true).
Proof.
  split.
  - intros Hs. unfold AuthService_terminate_session; unfold_monad. by rewrite Hs.
  - intros s a Hs Ha. split; [|done].
    unfold AuthService_terminate_session, update_app; unfold_monad.
    rewrite Hs; simpl. by rewrite Ha.
Qed.

Lemma AuthService_terminate_session_returns_witness :
  ∃ st', AuthService_terminate_session "s1" demo_state = Done (PyNone, st') ∧
         is_Some (sessions demo_state !! "s1") ∧
         (response_closed <$> apps st' !! "s1") = Some true.
Proof.
  destruct (AuthService_terminate_session_returns "s1" demo_state) as [_ Hfound].
  destruct (Hfound (mkSession 0 "s1" 1)
              (logged_in_app 0 (mkApp (Some demo_origin) false None [] false)))
    as (Hrun & _ & _).
  - vm_compute; reflexivity.
  - vm_compute; reflexivity.
  - eexists. split; [exact Hrun|]. split.
    + eexists. vm_compute; reflexivity.
    + vm_compute; reflexivity.
Defined.

(** * Further properties *)

(** ** Issuing and destroying tokens *)



(** X2: [TokenManager.destroy] with a token id removes that entry and no
    other, after which [get] of the id gives none; for an id that is not a
    key, and for a key that is not a string (a [Token] object), nothing
    changes; destroying twice is destroying once. *)
Theorem TokenManager_destroy_spec (id : string) (st : State) :
  TokenManager_destroy (KeyStr id) st = Done (tt, set_tokens (delete id) st) ∧
  tokens (set_tokens (delete id) st) !! id = None ∧
  (∀ id', id' ≠ id → tokens (set_tokens (delete id) st) !! id' = tokens st !! id') ∧
  (∀ now o, TokenManager_get now id o (set_tokens (delete id) st)
            = Done (None, set_tokens (delete id) st)) ∧
  (tokens st !! id = None → set_tokens (delete id) st = st) ∧
  TokenManager_destroy (KeyStr id) (set_tokens (delete id) st)
    = Done (tt, set_tokens (delete id) st) ∧
  (wf st → wf (set_tokens (delete id) st)) ∧
  (∀ r, TokenManager_destroy (KeyObj r) st = Done (tt, st)).
Proof.
  assert (Hgone : tokens (set_tokens (delete id) st) !! id = None)
    by (simpl; apply lookup_delete_eq).
  split; [done|]. split; [done|]. split; [|split; [|split; [|split; [|split]]]].
  - intros id' Hne. simpl. by apply lookup_delete_ne.
  - intros now o. by apply TokenManager_get_unknown.
  - intros Hnone. destruct st. unfold set_tokens; simpl in *.
    by rewrite delete_id.
  - unfold TokenManager_destroy, modify, set_tokens; simpl.
    by rewrite delete_delete_eq.
  - apply wf_registry_delete.
  - done.
Qed.

Lemma TokenManager_destroy_spec_witness :
  wf (set_tokens (delete "tok1") demo_state) ∧
  set_tokens (delete "nope") demo_state = demo_state.
Proof.
  destruct (TokenManager_destroy_spec "tok1" demo_state)
    as (_ & _ & _ & _ & _ & _ & Hwf & _).
  destruct (TokenManager_destroy_spec "nope" demo_state)
    as (_ & _ & _ & _ & Hnoop & _).
  split.
  - apply Hwf, reachable_wf, state_after_reachable.
  - apply Hnoop. vm_compute; reflexivity.
Defined.

(** ** Logging out *)

Lemma SessionManager_logout_Done sid st a :
  wf st → apps st !! sid = Some a →
  ∃ st', SessionManager_logout sid st = Done (tt, st') ∧ wf st' ∧
    sessions st' = delete sid (sessions st) ∧
    apps st' = <[sid:=set_authenticated false a]> (apps st) ∧
    creds st' = creds st ∧ tokens st' = tokens st ∧
    token_objs st' = token_objs st ∧ calls st' = calls st ∧
    events st' =
      (events st ++
       match sessions st !! sid with
       | Some s =>
         if is_unix_socket_root (origin a) ||
            from_option is_root_tcp_or_node false (creds st !! credentials s)
         then [] else [sessions_event REMOVED sid]
       | None => []
       end)%list.
Proof.
  intros Hwf Ha.
  assert (∃ st', SessionManager_logout sid st = Done (tt, st')) as [st' Hrun].
  { destruct (sessions st !! sid) as [s|] eqn:Hs.
    - rewrite (SessionManager_logout_session _ _ _ _ Hwf Hs Ha). eauto.
    - rewrite (SessionManager_logout_no_session _ _ _ Hs Ha). eauto. }
  exists st'. split; [done|]. split; [by eapply SessionManager_logout_wf|].
  destruct (sessions st !! sid) as [s|] eqn:Hs.
  - rewrite (SessionManager_logout_session _ _ _ _ Hwf Hs Ha) in Hrun.
    injection Hrun as <-.
    destruct (_ || _); simpl; repeat (split; [done|]); [by rewrite app_nil_r|done].
  - rewrite (SessionManager_logout_no_session _ _ _ Hs Ha) in Hrun.
    injection Hrun as <-. simpl. repeat (split; [done|]). by rewrite app_nil_r.
Qed.

Lemma State_eq st st' :
  creds st' = creds st → token_objs st' = token_objs st → tokens st' = tokens st →
  sessions st' = sessions st → apps st' = apps st → events st' = events st →
  calls st' = calls st → st' = st.
Proof. destruct st, st'; simpl. by intros -> -> -> -> -> -> ->. Qed.

(** X3: [SessionManager.logout] on a connection of a well-formed state
    returns; afterwards the connection has no session and is not
    authenticated, every other session and connection is as before, and
    credentials and tokens are untouched.  A [REMOVED] event is sent exactly
    when a session existed that is not internal.  A second logout changes
    nothing at all. *)
Theorem SessionManager_logout_spec (sid : string) (st : State) (a : App) :
  wf st → apps st !! sid = Some a →
  ∃ st', SessionManager_logout sid st = Done (tt, st') ∧ wf st' ∧
    sessions st' !! sid = None ∧
    (∃ a', apps st' !! sid = Some a' ∧ authenticated a' = false) ∧
    (∀ sid', sid' ≠ sid → sessions st' !! sid' = sessions st !! sid' ∧
                           apps st' !! sid' = apps st !! sid') ∧
    creds st' = creds st ∧ tokens st' = tokens st ∧ token_objs st' = token_objs st ∧
    (∀ s, sessions st !! sid = Some s → ¬ Internal st s →
       events st' = (events st ++ [sessions_event REMOVED sid])%list) ∧
    (∀ s, sessions st !! sid = Some s → Internal st s → events st' = events st) ∧
    (sessions st !! sid = None → events st' = events st) ∧
    SessionManager_logout sid st' = Done (tt, st').
Proof.
  intros Hwf Ha.
  destruct (SessionManager_logout_Done sid st a Hwf Ha)
    as (st' & Hrun & Hwf' & Hss & Hap & Hcr & Htk & Hto & Hca & Hev).
  exists st'. split; [done|]. split; [done|].
  assert (Hs' : sessions st' !! sid = None) by (rewrite Hss; apply lookup_delete_eq).
  assert (Ha' : apps st' !! sid = Some (set_authenticated false a))
    by (rewrite Hap; apply lookup_insert_eq).
  split; [done|]. split; [eauto|]. split.
  { intros sid' Hne. rewrite Hss, Hap.
    by rewrite lookup_delete_ne, lookup_insert_ne. }
  do 3 (split; [done|]).
  assert (Hflag : ∀ s, sessions st !! sid = Some s →
            Internal st s ↔
            is_unix_socket_root (origin a) ||
            from_option is_root_tcp_or_node false (creds st !! credentials s) = true).
  { intros s Hs.
    destruct (wf_sessions_session _ _ _ Hwf Hs) as (Happ & a0 & Ha0 & _ & _ & [obj Hobj]).
    assert (a0 = a) as -> by congruence.
    rewrite Hobj; simpl. apply Internal_iff; [by rewrite Happ|done]. }
  split; [|split; [|split]].
  - intros s Hs Hvis. rewrite Hev, Hs.
    destruct (_ || _) eqn:Hb; [|done]. exfalso. by apply Hvis, (Hflag s Hs).
  - intros s Hs Hint. rewrite Hev, Hs. apply (Hflag s Hs) in Hint.
    rewrite Hint. by rewrite app_nil_r.
  - intros Hs. rewrite Hev, Hs. by rewrite app_nil_r.
  - destruct (SessionManager_logout_Done sid st' _ Hwf' Ha')
      as (st'' & Hrun' & _ & Hss' & Hap' & Hcr' & Htk' & Hto' & Hca' & Hev').
    rewrite Hrun'. do 2 f_equal. apply State_eq; try done.
    + rewrite Hss'. by apply delete_id.
    + rewrite Hap'. by apply insert_id.
    + rewrite Hev', Hs'. by rewrite app_nil_r.
Qed.

Lemma SessionManager_logout_spec_witness :
  wf demo_state ∧
  ∃ st', SessionManager_logout "s1" demo_state = Done (tt, st') ∧
         sessions st' !! "s1" = None ∧
         events st' = (events demo_state ++ [sessions_event REMOVED "s1"])%list.
Proof.
  assert (Hwf : wf demo_state) by apply reachable_wf, state_after_reachable.
  split; [exact Hwf|].
  destruct (SessionManager_logout_spec "s1" demo_state
              (logged_in_app 0 (mkApp (Some demo_origin) false None [] false)))
    as (st' & Hrun & _ & Hs & _ & _ & _ & _ & _ & Hev & _).
  - exact Hwf.
  - vm_compute; reflexivity.
  - exists st'. split; [exact Hrun|]. split; [exact Hs|].
    apply (Hev (mkSession 0 "s1" 1)); [vm_compute; reflexivity|].
    intros [(a & Ha & Ho)|[Hc|Hc]].
    + vm_compute in Ha. injection Ha as <-. discriminate Ho.
    + vm_compute in Hc. discriminate Hc.
    + vm_compute in Hc. discriminate Hc.
Defined.

Lemma TokenManager_get_same_registry now id o st st' :
  registry_wf st → tokens st' = tokens st → token_objs st' = token_objs st →
  ∃ found st1 st1',
    TokenManager_get now id o st = Done (found, st1) ∧
    TokenManager_get now id o st' = Done (found, st1').
Proof.
  intros Hwf Htk Hto.
  destruct (tokens st !! id) as [r|] eqn:Hid.
  - destruct (Hwf _ _ Hid) as (tok & Hr & Hkey).
    assert (Hid' : tokens st' !! id = Some r) by by rewrite Htk.
    assert (Hr' : token_objs st' !! r = Some tok) by by rewrite Hto.
    destruct (Token_is_valid now tok) eqn:Hv.
    + destruct (TokenManager_get_valid now id o st r tok Hid Hr Hv) as [[Hadm H]|[Hadm H]];
        destruct (TokenManager_get_valid now id o st' r tok Hid' Hr' Hv)
          as [[Hadm' H']|[Hadm' H']]; try contradiction; eauto.
    + rewrite (TokenManager_get_expired _ _ o _ _ _ Hid Hr Hkey Hv).
      rewrite (TokenManager_get_expired _ _ o _ _ _ Hid' Hr' Hkey Hv). eauto.
  - assert (Hid' : tokens st' !! id = None) by by rewrite Htk.
    rewrite (TokenManager_get_unknown _ _ _ _ Hid).
    rewrite (TokenManager_get_unknown _ _ _ _ Hid'). eauto.
Qed.

(** X4: logging out a session whose credential is token-derived does not
    remove the token from the registry: [TokenSessionManagerCredentials.logout]
    hands the [Token] object, not its id, to [destroy].  The token stays
    stored under its id, and [TokenManager.get] answers after the logout
    what it answers before it. *)
Theorem token_session_logout_keeps_token
    (sid id : string) (st : State) (s : Session) (r : tok_ref) :
  wf st → sessions st !! sid = Some s →
  creds st !! credentials s = Some (TokenSessionManagerCredentials r) →
  tokens st !! id = Some r →
  Credentials_logout (credentials s) st = Done (tt, st) ∧
  ∃ st', SessionManager_logout sid st = Done (tt, st') ∧
    sessions st' !! sid = None ∧
    tokens st' !! id = Some r ∧
    token_objs st' !! r = token_objs st !! r ∧
    ∀ now o, ∃ found st1 st1',
      TokenManager_get now id o st = Done (found, st1) ∧
      TokenManager_get now id o st' = Done (found, st1').
Proof.
  intros Hwf Hs Hc Hid.
  split; [apply Credentials_logout_Done; eauto|].
  destruct (wf_sessions_session _ _ _ Hwf Hs) as (_ & a & Ha & _).
  destruct (SessionManager_logout_Done sid st a Hwf Ha)
    as (st' & Hrun & _ & Hss & _ & _ & Htk & Hto & _).
  exists st'. split; [done|]. split; [rewrite Hss; apply lookup_delete_eq|].
  split; [by rewrite Htk|]. split; [by rewrite Hto|].
  intros now o. apply TokenManager_get_same_registry; [apply Hwf|done..].
Qed.

Lemma token_session_logout_keeps_token_witness :
  wf demo_state_token_login ∧
  ∃ st', SessionManager_logout "s2" demo_state_token_login = Done (tt, st') ∧
         sessions st' !! "s2" = None ∧ tokens st' !! "tok1" = Some 0.
Proof.
  assert (Hwf : wf demo_state_token_login) by apply reachable_wf, state_after_reachable.
  split; [exact Hwf|].
  destruct (token_session_logout_keeps_token "s2" "tok1" demo_state_token_login
              (mkSession 1 "s2" 4) 0)
    as (_ & st' & Hrun & Hs & Hid & _); try (vm_compute; reflexivity).
  - exact Hwf.
  - exists st'. split; [exact Hrun|]. split; [exact Hs|exact Hid].
Defined.

(** ** Messages on a connection *)



(** ** Issuing a token over the API *)

(** X6: [generate_token] raises [CallError] on a connection that is not
    authenticated.  On an authenticated one it returns the generated id and
    the registry then holds, under that id, a token with the given ttl (600
    when none is given), the given attributes, the origin of the connection
    as constraint exactly when [match_origin] is set, and the credential of
    the connection as parent; [get_token] of the id returns the attributes;
    sessions, connections and credentials are unchanged. *)
Theorem AuthService_generate_token_spec
    (now : Q) (new_id sid : string) (T : option Z) (attrs : gmap string JValue)
    (mo : bool) (st : State) (a : App) :
  apps st !! sid = Some a →
  (authenticated a = false →
     AuthService_generate_token now new_id sid T attrs mo st
       = Raise (CallError "Not authenticated")) ∧
  (authenticated a = true →
     ∃ r st1,
       AuthService_generate_token now new_id sid T attrs mo st = Done (new_id, st1) ∧
       token_objs st !! r = None ∧
       tokens st1 !! new_id = Some r ∧
       token_objs st1 !! r =
         Some (Token_new new_id (default 600%Z T) attrs
                 (if mo then origin a else None) (authenticated_credentials a) now) ∧
       AuthService_get_token new_id st1 = Done (Some attrs, st1) ∧
       sessions st1 = sessions st ∧ apps st1 = apps st ∧ creds st1 = creds st ∧
       events st1 = events st ∧
       (wf st → wf st1)).
Proof.
  intros Ha. split; intros Hau.
  - unfold AuthService_generate_token; unfold_monad. by rewrite Ha, Hau.
  - eexists _, _. split.
    { unfold AuthService_generate_token. unfold bind at 1. unfold deref_app at 1.
      rewrite Ha, Hau; simpl. unfold bind at 1. rewrite TokenManager_create_Done.
      unfold bind, deref_token, ret; simpl. by rewrite lookup_insert_eq. }
    split; [apply fresh_lookup_None|].
    split; [simpl; apply lookup_insert_eq|].
    split; [simpl; apply lookup_insert_eq|].
    split.
    { unfold AuthService_get_token; unfold_monad; simpl.
      rewrite lookup_insert_eq; simpl. by rewrite lookup_insert_eq. }
    do 4 (split; [done|]).
    intros Hwf. apply wf_new_token; [done..|].
    simpl. intros p Hp. eapply (proj1 (wf_closed _ Hwf)); eauto.
Qed.

Lemma AuthService_generate_token_spec_witness :
  AuthService_generate_token 2 "tok7" "s3" None ∅ true demo_state_attributes
    = Raise (CallError "Not authenticated") ∧
  ∃ r st1,
    AuthService_generate_token 2 "tok7" "s1" None ∅ true demo_state_attributes
      = Done ("tok7", st1) ∧
    token_objs st1 !! r = Some (Token_new "tok7" 600 ∅ (Some demo_origin) (Some 0) 2).
Proof.
  split.
  - apply (AuthService_generate_token_spec 2 "tok7" "s3" None ∅ true
             demo_state_attributes
             (mkApp (Some (TCPIPOrigin "10.0.0.9" 50000)) false None [] false));
      vm_compute; reflexivity.
  - destruct (AuthService_generate_token_spec 2 "tok7" "s1" None ∅ true
                demo_state_attributes
                (logged_in_app 0 (mkApp (Some demo_origin) false None [] false)))
      as [_ Hok]; [vm_compute; reflexivity|].
    destruct Hok as (r & st1 & Hrun & _ & _ & Hr & _); [reflexivity|].
    exists r, st1. split; [exact Hrun|exact Hr].
Defined.

(** ** Redeeming an issued token *)




(** ** Tokens for one action and for the shell *)








(** ** Terminating the other sessions *)

Lemma Internal_frame st st' s :
  creds st' = creds st →
  (∀ sid, option_Forall2 (λ a a', origin a' = origin a) (apps st !! sid) (apps st' !! sid)) →
  Internal st s ↔ Internal st' s.
Proof.
  intros Hc Ha. unfold Internal. rewrite Hc.
  assert ((∃ a, apps st !! app s = Some a ∧ origin a = Some (UnixSocketOrigin 0)) ↔
          (∃ a, apps st' !! app s = Some a ∧ origin a = Some (UnixSocketOrigin 0))) as ->;
    [|done].
  specialize (Ha (app s)). split; intros (a & Hl & Ho); rewrite Hl in Ha;
    inversion Ha as [x y Hxy|]; subst; eexists; (split; [done|congruence]).
Qed.

Lemma option_Forall2_impl {A B} (R R' : A → B → Prop) mx my :
  option_Forall2 R mx my → (∀ x y, R x y → R' x y) → option_Forall2 R' mx my.
Proof. intros H HR. destruct H; constructor; auto. Qed.

Lemma internal_session_iff st s : internal_session st s = true ↔ Internal st s.
Proof.
  unfold internal_session, Internal. rewrite orb_true_iff. split.
  - intros [H|H].
    + destruct (apps st !! app s) as [a|]; [|done].
      apply is_unix_socket_root_iff in H. left. eauto.
    + destruct (creds st !! credentials s) as [obj|]; [|done].
      apply is_root_tcp_or_node_iff in H as [->| ->]; auto.
  - intros [(a & -> & Ho)|[-> | ->]]; [left|right; done..].
    by apply is_unix_socket_root_iff.
Qed.

Lemma internal_session_frame st st' s :
  creds st' = creds st →
  (∀ sid, option_Forall2 (λ a a', origin a' = origin a) (apps st !! sid) (apps st' !! sid)) →
  internal_session st' s = internal_session st s.
Proof.
  intros Hc Ha. apply eq_true_iff_eq. rewrite !internal_session_iff.
  symmetry. by apply Internal_frame.
Qed.

Lemma terminate_error_frame close_error st st' caller
    (items : list (string * Session)) :
  creds st' = creds st →
  (∀ sid, option_Forall2 (λ a a', origin a' = origin a) (apps st !! sid) (apps st' !! sid)) →
  omap (terminate_error close_error st' caller) items =
  omap (terminate_error close_error st caller) items.
Proof.
  intros Hc Ha. induction items as [|item items IH]; [done|].
  csimpl. rewrite IH. unfold terminate_error.
  by rewrite (internal_session_frame st st').
Qed.

Lemma terminate_each_spec close_error caller items st :
  wf st → Forall (λ item, sessions st !! item.1 = Some item.2) items →
  ∃ st',
    terminate_each close_error caller items st
      = Done (omap (terminate_error close_error st caller) items, st') ∧
    wf st' ∧
    creds st' = creds st ∧ sessions st' = sessions st ∧
    ∀ sid, option_Forall2
             (app_closed_from (sid ≠ caller ∧ close_error sid = None ∧
                               ∃ s, (sid, s) ∈ items ∧ ¬ Internal st s))
             (apps st !! sid) (apps st' !! sid).
Proof.
  intros Hwf Hitems. revert st Hwf Hitems.
  induction items as [|[sid0 s0] items IH]; intros st Hwf Hitems.
  - exists st. split; [done|]. do 3 (split; [done|]).
    intros sid. destruct (apps st !! sid) as [a|]; constructor.
    repeat split; try done; [by left|].
    intros [?|(_ & _ & s & Hin & _)]; [done|]. by apply elem_of_nil in Hin.
  - apply Forall_cons in Hitems as [Hs0 Hitems]. simpl in Hs0.
    assert (Hskip : ∀ st',
      (sid0 = caller ∨ Internal st s0 ∨ is_Some (close_error sid0)) →
      (∀ sid, option_Forall2
         (app_closed_from (sid ≠ caller ∧ close_error sid = None ∧
                           ∃ s, (sid, s) ∈ items ∧ ¬ Internal st s))
         (apps st !! sid) (apps st' !! sid)) →
      ∀ sid, option_Forall2
         (app_closed_from (sid ≠ caller ∧ close_error sid = None ∧
                           ∃ s, (sid, s) ∈ (sid0, s0) :: items ∧ ¬ Internal st s))
         (apps st !! sid) (apps st' !! sid)).
    { intros st' Hhead Hrel sid. specialize (Hrel sid).
      eapply option_Forall2_impl; [exact Hrel|].
      intros a a' (? & ? & ? & ? & Hclosed). repeat split; try done.
      - intros Hc. apply Hclosed in Hc as [?|(? & ? & s & ? & ?)]; [by left|right].
        do 2 (split; [done|]). exists s. split; [by right|done].
      - intros [?|(Hne & Hok & s & Hin & Hvis)]; apply Hclosed; [by left|].
        apply elem_of_cons in Hin as [[= -> ->]|Hin].
        + destruct Hhead as [?|[?|[msg Hmsg]]]; [contradiction..|congruence].
        + right. eauto. }
    cbn [omap list_omap terminate_each]. unfold terminate_error at 1. cbn [fst snd].
    destruct (bool_decide (sid0 = caller)) eqn:Hcaller.
    { apply bool_decide_eq_true_1 in Hcaller.
      destruct (IH st Hwf Hitems) as (st' & Hrun & ? & ? & ? & Hrel).
      exists st'. cbn [orb]. do 4 (split; [done|]). apply Hskip; [by left|done]. }
    apply bool_decide_eq_false_1 in Hcaller. cbn [orb].
    destruct (is_internal_session_wf st sid0 s0 Hwf Hs0) as (b & Hb & Hiff).
    unfold bind at 1. rewrite Hb.
    assert (Hbi : internal_session st s0 = b).
    { apply eq_true_iff_eq. by rewrite internal_session_iff, Hiff. }
    rewrite Hbi. destruct b.
    { destruct (IH st Hwf Hitems) as (st' & Hrun & ? & ? & ? & Hrel).
      exists st'. do 4 (split; [done|]).
      apply Hskip; [right; left; by apply Hiff|done]. }
    assert (Hvis : ¬ Internal st s0) by (intros Hint; apply Hiff in Hint; done).
    destruct (wf_sessions_session _ _ _ Hwf Hs0) as (Happ & a0 & Ha0 & _).
    destruct (close_error sid0) as [msg|] eqn:Hclose.
    { assert (Hterm : try_terminate_session close_error sid0 st = Done ([msg], st)).
      { unfold try_terminate_session, AuthService_terminate_session_with,
          app_response_close; unfold_monad.
        rewrite Hs0; simpl. by rewrite Happ, Hclose, Ha0. }
      destruct (IH st Hwf Hitems) as (st' & Hrun & ? & ? & ? & Hrel).
      exists st'. split.
      { unfold bind at 1. rewrite Hterm. unfold bind. by rewrite Hrun. }
      do 3 (split; [done|]). apply Hskip; [right; right; by eexists|done]. }
    set (st1 := set_apps <[sid0:=response_close a0]> st).
    assert (Hterm : try_terminate_session close_error sid0 st = Done ([], st1)).
    { unfold try_terminate_session, AuthService_terminate_session_with,
        app_response_close, update_app; unfold_monad.
      rewrite Hs0; simpl. by rewrite Happ, Hclose, Ha0. }
    assert (Hwf1 : wf st1) by (eapply wf_app_update; eauto).
    assert (Horigin : ∀ sid, option_Forall2 (λ a a', origin a' = origin a)
                               (apps st !! sid) (apps st1 !! sid)).
    { intros sid. simpl. destruct (decide (sid0 = sid)) as [<-|Hne].
      - rewrite Ha0, lookup_insert_eq. by constructor.
      - rewrite lookup_insert_ne by done. destruct (apps st !! sid); by constructor. }
    assert (Hint1 : ∀ s, Internal st s ↔ Internal st1 s).
    { intros s. by apply Internal_frame. }
    destruct (IH st1 Hwf1 Hitems) as (st' & Hrun & ? & Hc' & Hss' & Hrel).
    exists st'. split.
    { unfold bind at 1. rewrite Hterm. unfold bind. rewrite Hrun. unfold ret.
      by rewrite (terminate_error_frame close_error st st1). }
    do 3 (split; [done|]).
    intros sid. specialize (Hrel sid). simpl in Hrel.
    destruct (decide (sid0 = sid)) as [<-|Hne].
    + rewrite lookup_insert_eq in Hrel. rewrite Ha0.
      inversion Hrel as [x a' (? & ? & ? & ? & Hclosed) Hx Hy|]; subst.
      constructor. repeat split; try done.
      * intros _. right. do 2 (split; [done|]). exists s0. split; [by left|done].
      * intros _. apply Hclosed. by left.
    + rewrite lookup_insert_ne in Hrel by done.
      eapply option_Forall2_impl; [exact Hrel|].
      intros a a' (? & ? & ? & ? & Hclosed). repeat split; try done.
      * intros Hc. apply Hclosed in Hc as [?|(? & ? & s & ? & Hv)]; [by left|right].
        do 2 (split; [done|]). exists s. split; [by right|]. by rewrite Hint1.
      * intros [?|(Hnc & Hok & s & Hin & Hv)]; apply Hclosed; [by left|].
        apply elem_of_cons in Hin as [[= -> ->]|Hin]; [done|].
        right. do 2 (split; [done|]). exists s. split; [done|]. by rewrite <- Hint1.
Qed.

(** X10: [terminate_other_sessions] calls [close()] on the transport of
    each session that is neither the caller's nor internal, and of no
    other: afterwards a connection is closed if and only if it was closed
    before or it has such a session and its [close()] did not raise.  An
    exception of a [close()] does not end the loop: its text is collected,
    the remaining sessions are still handled, and the call then raises one
    [CallError] that lists the texts in the order of the iteration; it
    returns exactly when no [close()] raised.  With a transport that never
    raises, [terminate_session] is the function of that name above. *)
Theorem AuthService_terminate_other_sessions_spec
    (close_error : string → option string) (caller : string)
    (items : list (string * Session)) (st : State) :
  wf st → items ≡ₚ map_to_list (sessions st) →
  let errors := omap (terminate_error close_error st caller) items in
  ∃ st',
    terminate_each close_error caller items st = Done (errors, st') ∧
    (∀ sid, option_Forall2
              (app_closed_from (sid ≠ caller ∧ close_error sid = None ∧
                                ∃ s, sessions st !! sid = Some s ∧ ¬ Internal st s))
              (apps st !! sid) (apps st' !! sid)) ∧
    (∀ msg, msg ∈ errors ↔
            ∃ sid s, sessions st !! sid = Some s ∧ sid ≠ caller ∧ ¬ Internal st s ∧
                     close_error sid = Some msg) ∧
    AuthService_terminate_other_sessions close_error caller items st =
      match errors with
      | [] => Done (tt, st')
      | _ => Raise (CallError (String.concat newline
                                 ("Unable to terminate all sessions:" :: errors)))
      end ∧
    (∀ id, AuthService_terminate_session_with (λ _, None) id st =
           AuthService_terminate_session id st).
Proof.
  intros Hwf Hperm errors.
  assert (Hin : ∀ sid s, (sid, s) ∈ items ↔ sessions st !! sid = Some s).
  { intros sid s. by rewrite Hperm, elem_of_map_to_list. }
  destruct (terminate_each_spec close_error caller items st Hwf)
    as (st' & Hrun & Hwf' & _ & _ & Hrel).
  { apply Forall_forall. intros [sid s] Hitem. simpl. by apply Hin. }
  exists st'. split; [exact Hrun|]. split; [|split; [|split]].
  - intros sid. specialize (Hrel sid).
    eapply option_Forall2_impl; [exact Hrel|].
    intros a a' (? & ? & ? & ? & Hclosed). repeat split; try done.
    + intros Hc. apply Hclosed in Hc as [?|(? & ? & s & Hitem & ?)]; [by left|right].
      do 2 (split; [done|]). exists s. split; [by apply Hin|done].
    + intros [?|(? & ? & s & Hs & ?)]; apply Hclosed; [by left|right].
      do 2 (split; [done|]). exists s. split; [by apply Hin|done].
  - intros msg. unfold errors. rewrite list_elem_of_omap. split.
    + intros ([sid s] & Hitem & Herr). unfold terminate_error in Herr.
      cbn [fst snd] in Herr.
      destruct (bool_decide (sid = caller)) eqn:Hc; [done|].
      destruct (internal_session st s) eqn:Hi; [done|]. cbn [orb] in Herr.
      apply bool_decide_eq_false in Hc.
      exists sid, s. split; [by apply Hin|].
      split; [done|]. split; [|done].
      rewrite <- internal_session_iff. congruence.
    + intros (sid & s & Hs & Hne & Hvis & Herr).
      exists (sid, s). split; [by apply Hin|].
      unfold terminate_error. cbn [fst snd].
      rewrite bool_decide_eq_false_2 by done.
      destruct (internal_session st s) eqn:Hi; [|done].
      by apply internal_session_iff in Hi.
  - unfold AuthService_terminate_other_sessions, bind. rewrite Hrun.
    subst errors. by destruct (omap _ items).
  - done.
Qed.

Lemma AuthService_terminate_other_sessions_spec_witness :
  wf demo_state_three ∧
  (∃ st', AuthService_terminate_other_sessions (λ _, None) "s1"
            (map_to_list (sessions demo_state_three)) demo_state_three = Done (tt, st') ∧
          (response_closed <$> apps st' !! "s4") = Some true ∧
          (response_closed <$> apps st' !! "s1") = Some false ∧
          (response_closed <$> apps st' !! "s0") = Some false) ∧
  AuthService_terminate_other_sessions
    (λ sid, if String.eqb sid "s1" then Some "broken pipe" else None) "s4"
    (map_to_list (sessions demo_state_three)) demo_state_three =
  Raise (CallError (String.concat newline
                      ["Unable to terminate all sessions:"; "broken pipe"])).
Proof.
  assert (Hwf : wf demo_state_three) by apply reachable_wf, state_after_reachable.
  split; [exact Hwf|]. split.
  - destruct (AuthService_terminate_other_sessions_spec (λ _, None) "s1"
                (map_to_list (sessions demo_state_three)) demo_state_three Hwf
                (reflexivity _))
      as (st' & Heach & _ & _ & Hrun & _).
    exists st'. split; [exact Hrun|].
    vm_compute in Heach. injection Heach as <-.
    repeat split; vm_compute; reflexivity.
  - destruct (AuthService_terminate_other_sessions_spec
                (λ sid, if String.eqb sid "s1" then Some "broken pipe" else None) "s4"
                (map_to_list (sessions demo_state_three)) demo_state_three Hwf
                (reflexivity _))
      as (st' & _ & _ & _ & Hrun & _).
    exact Hrun.
Defined.

(** ** Logging in with an API key *)

Lemma login_new_credentials now sid obj st a :
  wf st → apps st !! sid = Some a → credentials_closed st obj = true →
  ∃ st',
    (let* c := new_cred obj in SessionManager_login now sid c) st = Done (tt, st') ∧
    wf st' ∧ elevated st' sid obj ∧
    tokens st' = tokens st ∧ token_objs st' = token_objs st ∧
    creds st' = <[fresh (dom (creds st)):=obj]> (creds st) ∧
    (∀ sid', sid' ≠ sid → sessions st' !! sid' = sessions st !! sid') ∧
    (authenticated a = false →
       events st' =
         (events st ++
          if is_unix_socket_root (origin a) || is_root_tcp_or_node obj
          then [] else [sessions_event ADDED sid])%list).
Proof.
  intros Hwf Ha Hobj.
  set (c := fresh (dom (creds st))).
  set (st1 := set_creds <[c:=obj]> st).
  assert (Hwf1 : wf st1) by by apply wf_new_cred.
  assert (Hc : creds st1 !! c = Some obj) by (simpl; apply lookup_insert_eq).
  destruct (SessionManager_login_Done now sid c st1 a Hwf1 Ha)
    as (st' & Hrun & Hwf' & Hcreds & Hto & Htk & _ & (a' & Ha' & Hau' & Hcr' & _) &
        (s' & Hs' & Hcs' & Hmap & _)); [eauto|].
  exists st'. split.
  { unfold bind. rewrite new_cred_Done. fold c. fold st1. done. }
  split; [done|]. split.
  { exists s', a'. rewrite Hcs', Hcreds. done. }
  do 3 (split; [done|]). split.
  { intros sid' Hne. rewrite Hmap. by apply lookup_insert_ne. }
  intros Hau. rewrite (SessionManager_login_first now sid c st1 a obj Ha Hau Hc) in Hrun.
  injection Hrun as <-.
  destruct (_ || _); simpl; [by rewrite app_nil_r|done].
Qed.

(** X11: [login_with_api_key] returns [False] and changes nothing when the
    key is not recognized.  When it is, the result is [True], the connection
    is authenticated with a new API-key credential holding the record of the
    key, and that credential authorizes exactly what the key's own
    [authorize] allows; tokens are untouched. *)
Theorem AuthService_login_with_api_key_spec
    (authenticate : string → option ApiKey) (now : Q) (sid api_key : string)
    (st : State) (a : App) :
  wf st → apps st !! sid = Some a →
  (authenticate api_key = None →
     AuthService_login_with_api_key authenticate now sid api_key st = Done (false, st)) ∧
  (∀ key, authenticate api_key = Some key →
     ∃ st',
       AuthService_login_with_api_key authenticate now sid api_key st = Done (true, st') ∧
       wf st' ∧ elevated st' sid (ApiKeySessionManagerCredentials key) ∧
       tokens st' = tokens st ∧
       ∀ s method resource fuel, sessions st' !! sid = Some s →
         Credentials_authorize (S fuel) st' (credentials s) method resource
           = Done (api_key_authorize key method resource)).
Proof.
  intros Hwf Ha. split.
  - intros Hnone. unfold AuthService_login_with_api_key. by rewrite Hnone.
  - intros key Hkey.
    destruct (login_new_credentials now sid (ApiKeySessionManagerCredentials key) st a
                Hwf Ha eq_refl)
      as (st' & Hrun & Hwf' & Helev & Htk & _).
    exists st'. split.
    { unfold AuthService_login_with_api_key. rewrite Hkey.
      unfold bind in *. destruct (new_cred _ st) as [[c st1]| |]; [|done..].
      by rewrite Hrun. }
    do 3 (split; [done|]).
    intros s method resource fuel Hs.
    destruct Helev as (s' & a' & Hs' & Hc' & _).
    assert (s' = s) as -> by congruence.
    simpl. by rewrite Hc'.
Qed.

Lemma AuthService_login_with_api_key_spec_witness :
  wf demo_state_connected ∧
  (∃ st', AuthService_login_with_api_key
            (λ k, if bool_decide (k = "1-abc") then Some demo_api_key else None)
            1 "t1" "1-abc" demo_state_connected = Done (true, st') ∧
          elevated st' "t1" (ApiKeySessionManagerCredentials demo_api_key)) ∧
  AuthService_login_with_api_key
    (λ k, if bool_decide (k = "1-abc") then Some demo_api_key else None)
    1 "t1" "2-xyz" demo_state_connected = Done (false, demo_state_connected).
Proof.
  assert (Hwf : wf demo_state_connected) by apply reachable_wf, state_after_reachable.
  split; [exact Hwf|].
  assert (Ha : apps demo_state_connected !! "t1" =
               Some (mkApp (Some (TCPIPOrigin "192.168.0.3" 900)) false None [] false))
    by (vm_compute; reflexivity).
  split.
  - destruct (AuthService_login_with_api_key_spec
                (λ k, if bool_decide (k = "1-abc") then Some demo_api_key else None)
                1 "t1" "1-abc" demo_state_connected _ Hwf Ha) as [_ Hok].
    destruct (Hok demo_api_key eq_refl) as (st' & Hrun & _ & Helev & _).
    exists st'. split; [exact Hrun|exact Helev].
  - destruct (AuthService_login_with_api_key_spec
                (λ k, if bool_decide (k = "1-abc") then Some demo_api_key else None)
                1 "t1" "2-xyz" demo_state_connected _ Hwf Ha) as [Hno _].
    apply Hno. reflexivity.
Defined.

(** ** Elevation on connect *)

(** X12: what [check_permission] does with a connection that is not yet
    authenticated, in a well-formed state.  It always returns.  A Unix
    socket peer with uid 0 is logged in with a Unix socket credential of the
    root user and no event is sent.  Another Unix socket peer is logged in
    with a credential of the local user found for its uid, with an [ADDED]
    event; it is left alone when no account or no user is found.  A TCP peer
    is logged in, with the root TCP socket credential and without event, only
    when its address is a loopback address and its process is found running
    with effective uid 0; every other TCP peer, and a connection without
    origin, leaves the state unchanged. *)
Theorem check_permission_spec (env : ConnectEnv) (now : Q) (sid : string)
    (st : State) (a : App) :
  wf st → apps st !! sid = Some a → authenticated a = false →
  ∃ st', check_permission env now sid st = Done (tt, st') ∧ wf st' ∧
    tokens st' = tokens st ∧
    (origin a = Some (UnixSocketOrigin 0) →
       elevated st' sid
         (UnixSocketSessionManagerCredentials (auth_authenticate_root env)
            (privilege_allowlist (auth_authenticate_root env))) ∧
       events st' = events st) ∧
    (∀ uid id name user, origin a = Some (UnixSocketOrigin uid) → uid ≠ 0%Z →
       datastore_query_bsdusers env uid = Some (id, name) →
       auth_authenticate_local_user env id name = Some user →
       elevated st' sid
         (UnixSocketSessionManagerCredentials user (privilege_allowlist user)) ∧
       events st' = (events st ++ [sessions_event ADDED sid])%list) ∧
    (∀ uid, origin a = Some (UnixSocketOrigin uid) → uid ≠ 0%Z →
       (datastore_query_bsdusers env uid = None ∨
        ∃ id name, datastore_query_bsdusers env uid = Some (id, name) ∧
                   auth_authenticate_local_user env id name = None) →
       st' = st) ∧
    (∀ addr port, origin a = Some (TCPIPOrigin addr port) →
       is_loopback addr = true → get_peer_process env addr port = Some (Some 0%Z) →
       elevated st' sid RootTcpSocketSessionManagerCredentials ∧
       events st' = events st) ∧
    (∀ addr port, origin a = Some (TCPIPOrigin addr port) →
       (is_loopback addr = false ∨ get_peer_process env addr port ≠ Some (Some 0%Z)) →
       st' = st) ∧
    (origin a = None → st' = st).
Proof.
  intros Hwf Ha Hau.
  assert (Hlogin : ∀ obj, credentials_closed st obj = true →
            ∃ st', (let* c := new_cred obj in SessionManager_login now sid c) st
                     = Done (tt, st') ∧
                   wf st' ∧ tokens st' = tokens st ∧ elevated st' sid obj ∧
                   events st' =
                     (events st ++
                      if is_unix_socket_root (origin a) || is_root_tcp_or_node obj
                      then [] else [sessions_event ADDED sid])%list).
  { intros obj Hobj.
    destruct (login_new_credentials now sid obj st a Hwf Ha Hobj)
      as (st' & Hrun & Hwf' & Helev & Htk & _ & _ & _ & Hev).
    exists st'. repeat (split; [done|]). by apply Hev. }
  assert (Hstart : check_permission env now sid st =
    match origin a with
    | Some (UnixSocketOrigin uid) =>
      if bool_decide (uid = 0%Z) then
        (let* c := new_cred (UnixSocketSessionManagerCredentials (auth_authenticate_root env)
                               (privilege_allowlist (auth_authenticate_root env))) in
         SessionManager_login now sid c) st
      else
        match datastore_query_bsdusers env uid with
        | None => Done (tt, st)
        | Some (id, name) =>
          match auth_authenticate_local_user env id name with
          | None => Done (tt, st)
          | Some user =>
            (let* c := new_cred (UnixSocketSessionManagerCredentials user
                                   (privilege_allowlist user)) in
             SessionManager_login now sid c) st
          end
        end
    | Some (TCPIPOrigin addr port) =>
      if negb (is_loopback addr) then Done (tt, st)
      else
        match get_peer_process env addr port with
        | Some (Some euid) =>
          if bool_decide (euid = 0%Z) then
            (let* c := new_cred RootTcpSocketSessionManagerCredentials in
             SessionManager_login now sid c) st
          else Done (tt, st)
        | _ => Done (tt, st)
        end
    | None => Done (tt, st)
    end).
  { unfold check_permission. unfold bind at 1. unfold deref_app at 1. rewrite Ha.
    destruct (origin a) as [[uid|addr port]|]; [| |done].
    - destruct (bool_decide (uid = 0%Z)); [done|].
      destruct (datastore_query_bsdusers env uid) as [[id name]|]; [|done].
      by destruct (auth_authenticate_local_user env id name).
    - destruct (negb (is_loopback addr)); [done|].
      destruct (get_peer_process env addr port) as [[euid|]|]; [|done..].
      by destruct (bool_decide (euid = 0%Z)). }
  rewrite Hstart. clear Hstart.
  destruct (origin a) as [[uid|addr port]|] eqn:Ho.
  - destruct (bool_decide (uid = 0%Z)) eqn:Huid.
    + apply bool_decide_eq_true_1 in Huid as ->.
      destruct (Hlogin (UnixSocketSessionManagerCredentials (auth_authenticate_root env)
                          (privilege_allowlist (auth_authenticate_root env))) eq_refl)
        as (st' & Hrun & Hwf' & Htk & Helev & Hev).
      exists st'. do 3 (split; [done|]). simpl in Hev. rewrite app_nil_r in Hev.
      split; [done|]. split; [intros ? ? ? ? [= <-] ?; done|].
      split; [intros ? [= <-] ?; done|]. repeat split; discriminate.
    + apply bool_decide_eq_false_1 in Huid.
      destruct (datastore_query_bsdusers env uid) as [[id name]|] eqn:Hq;
        [destruct (auth_authenticate_local_user env id name) as [user|] eqn:Hl|].
      * destruct (Hlogin (UnixSocketSessionManagerCredentials user
                            (privilege_allowlist user)) eq_refl)
          as (st' & Hrun & Hwf' & Htk & Helev & Hev).
        exists st'. do 3 (split; [done|]).
        assert (Hroot : is_unix_socket_root (Some (UnixSocketOrigin uid)) = false).
        { simpl. by apply bool_decide_eq_false_2. }
        rewrite Hroot in Hev. simpl in Hev.
        split; [intros [= ?]; done|]. split.
        { intros uid' id' name' user' [= <-] _ Hq' Hl'.
          rewrite Hq in Hq'. injection Hq' as <- <-.
          rewrite Hl in Hl'. by injection Hl' as <-. }
        split.
        { intros uid' [= <-] _ [Hn|(id' & name' & Hq' & Hl')]; [congruence|].
          rewrite Hq in Hq'. injection Hq' as <- <-. congruence. }
        repeat split; discriminate.
      * exists st. do 3 (split; [done|]).
        split; [intros [= ?]; done|]. split.
        { intros uid' id' name' user' [= <-] _ Hq' Hl'.
          rewrite Hq in Hq'. injection Hq' as <- <-. congruence. }
        repeat split; done.
      * exists st. do 3 (split; [done|]).
        split; [intros [= ?]; done|]. split; [intros ? ? ? ? [= <-] _; congruence|].
        repeat split; done.
  - assert (Hrest : ∀ st',
      (is_loopback addr = true → get_peer_process env addr port = Some (Some 0%Z) →
       elevated st' sid RootTcpSocketSessionManagerCredentials ∧ events st' = events st) →
      (is_loopback addr = false ∨ get_peer_process env addr port ≠ Some (Some 0%Z) →
       st' = st) →
      (Some (TCPIPOrigin addr port) = Some (UnixSocketOrigin 0)
       → elevated st' sid
           (UnixSocketSessionManagerCredentials (auth_authenticate_root env)
              (privilege_allowlist (auth_authenticate_root env)))
         ∧ events st' = events st)
      ∧ (∀ (uid : Z) (id : Z) (name : string) (user : User),
           Some (TCPIPOrigin addr port) = Some (UnixSocketOrigin uid)
           → uid ≠ 0%Z
             → datastore_query_bsdusers env uid = Some (id, name)
               → auth_authenticate_local_user env id name = Some user
                 → elevated st' sid
                     (UnixSocketSessionManagerCredentials user
                        (privilege_allowlist user))
                   ∧ events st' = (events st ++ [sessions_event ADDED sid])%list)
        ∧ (∀ uid : Z,
             Some (TCPIPOrigin addr port) = Some (UnixSocketOrigin uid)
             → uid ≠ 0%Z
               → datastore_query_bsdusers env uid = None
                 ∨ (∃ (id : Z) (name : string),
                      datastore_query_bsdusers env uid = Some (id, name)
                      ∧ auth_authenticate_local_user env id name = None)
                 → st' = st)
          ∧ (∀ (addr0 : string) (port0 : Z),
               Some (TCPIPOrigin addr port) = Some (TCPIPOrigin addr0 port0)
               → is_loopback addr0 = true
                 → get_peer_process env addr0 port0 = Some (Some 0%Z)
                   → elevated st' sid RootTcpSocketSessionManagerCredentials
                     ∧ events st' = events st)
            ∧ (∀ (addr0 : string) (port0 : Z),
                 Some (TCPIPOrigin addr port) = Some (TCPIPOrigin addr0 port0)
                 → is_loopback addr0 = false
                   ∨ get_peer_process env addr0 port0 ≠ Some (Some 0%Z)
                   → st' = st)
              ∧ (Some (TCPIPOrigin addr port) = None → st' = st)).
    { intros st' H1 H2. split; [discriminate|]. split; [discriminate|].
      split; [discriminate|]. split; [by intros ? ? [= <- <-]|].
      split; [by intros ? ? [= <- <-]|discriminate]. }
    destruct (is_loopback addr) eqn:Hloop; simpl;
      [destruct (get_peer_process env addr port) as [[euid|]|] eqn:Hpeer;
        [destruct (bool_decide (euid = 0%Z)) eqn:Heuid|..]|].
    + apply bool_decide_eq_true_1 in Heuid as ->.
      destruct (Hlogin RootTcpSocketSessionManagerCredentials eq_refl)
        as (st' & Hrun & Hwf' & Htk & Helev & Hev).
      exists st'. do 3 (split; [done|]).
      rewrite orb_true_r in Hev. rewrite app_nil_r in Hev.
      apply Hrest; [done|]. intros [?|?]; done.
    + apply bool_decide_eq_false_1 in Heuid.
      exists st. do 3 (split; [done|]). apply Hrest; [|done]. intros _ [= ?]. done.
    + exists st. do 3 (split; [done|]). apply Hrest; [|done]. intros _ [= ?].
    + exists st. do 3 (split; [done|]). apply Hrest; [|done]. intros _ [= ?].
    + exists st. do 3 (split; [done|]). apply Hrest; [|done]. intros [= ?].
  - exists st. do 3 (split; [done|]). repeat split; discriminate || done.
Qed.

Lemma check_permission_spec_witness :
  wf demo_state_connected ∧
  (∃ st', check_permission demo_env 1 "t0" demo_state_connected = Done (tt, st') ∧
          elevated st' "t0" RootTcpSocketSessionManagerCredentials ∧
          events st' = events demo_state_connected) ∧
  check_permission demo_env 1 "t1" demo_state_connected = Done (tt, demo_state_connected) ∧
  (∃ st', check_permission demo_env 1 "u1" demo_state_connected = Done (tt, st') ∧
          events st' = (events demo_state_connected ++ [sessions_event ADDED "u1"])%list).
Proof.
  assert (Hwf : wf demo_state_connected) by apply reachable_wf, state_after_reachable.
  split; [exact Hwf|]. split; [|split].
  - destruct (check_permission_spec demo_env 1 "t0" demo_state_connected
                (mkApp (Some (TCPIPOrigin "127.0.0.1" 900)) false None [] false) Hwf)
      as (st' & Hrun & _ & _ & _ & _ & _ & Hroot & _);
      [vm_compute; reflexivity|reflexivity|].
    exists st'. split; [exact Hrun|].
    apply (Hroot "127.0.0.1" 900%Z); reflexivity.
  - destruct (check_permission_spec demo_env 1 "t1" demo_state_connected
                (mkApp (Some (TCPIPOrigin "192.168.0.3" 900)) false None [] false) Hwf)
      as (st' & Hrun & _ & _ & _ & _ & _ & _ & Hremote & _);
      [vm_compute; reflexivity|reflexivity|].
    rewrite <- (Hremote "192.168.0.3" 900%Z eq_refl (or_introl eq_refl)) at 2.
    exact Hrun.
  - destruct (check_permission_spec demo_env 1 "u1" demo_state_connected
                (mkApp (Some (UnixSocketOrigin 1000)) false None [] false) Hwf)
      as (st' & Hrun & _ & _ & _ & Hlocal & _);
      [vm_compute; reflexivity|reflexivity|].
    exists st'. split; [exact Hrun|].
    apply (Hlocal 1000%Z 7%Z "bob" bob); [reflexivity|lia|reflexivity|reflexivity].
Defined.

(** ** Invariants of the reachable states *)

Lemma reachable_events_channel st :
  reachable st → Forall (λ ev, event_name ev = "auth.sessions") (events st).
Proof.
  induction 1 as [|st op st' Hreach IH Hstep]; [constructor|].
  destruct (step_emits_visible op st st' (reachable_wf _ Hreach) Hstep)
    as (new & -> & Hnew).
  apply Forall_app. split; [done|].
  eapply Forall_impl; [exact Hnew|]. by intros ev [? _].
Qed.

(** X13: in every state that the operations lead to from the empty
    registries, a connection is authenticated exactly when a session is
    registered under its id; a session belongs to the connection it is
    registered under and holds the credential stored on that connection;
    every key of the token registry is the id of the token stored under it;
    the parent chain of every token ends after finitely many links; and
    every event sent so far is on the [auth.sessions] channel. *)
Theorem reachable_invariants (st : State) :
  reachable st →
  (∀ sid a, apps st !! sid = Some a →
     (authenticated a = true ↔ is_Some (sessions st !! sid))) ∧
  (∀ sid s, sessions st !! sid = Some s →
     app s = sid ∧
     ∃ a obj, apps st !! sid = Some a ∧
              authenticated_credentials a = Some (credentials s) ∧
              creds st !! credentials s = Some obj) ∧
  (∀ id r, tokens st !! id = Some r →
     ∃ tok, token_objs st !! r = Some tok ∧ token tok = id) ∧
  (∀ r tok, token_objs st !! r = Some tok →
     ∃ root, Unwraps st (parent_credentials tok) root) ∧
  Forall (λ ev, event_name ev = "auth.sessions") (events st).
Proof.
  intros Hreach. pose proof (reachable_wf _ Hreach) as Hwf.
  split; [|split; [|split; [|split]]].
  - intros sid a Ha. split.
    + intros Hau. by eapply (proj2 (wf_sessions _ Hwf)).
    + intros [s Hs].
      destruct (wf_sessions_session _ _ _ Hwf Hs) as (_ & a' & Ha' & Hau & _).
      congruence.
  - intros sid s Hs.
    destruct (wf_sessions_session _ _ _ Hwf Hs) as (Happ & a & Ha & _ & Hcr & [obj Hobj]).
    split; [done|]. by exists a, obj.
  - apply Hwf.
  - intros r tok Hr. by eapply wf_token_chain.
  - by apply reachable_events_channel.
Qed.

Lemma reachable_invariants_witness :
  reachable demo_state_token_login ∧
  (∀ sid a, apps demo_state_token_login !! sid = Some a →
     (authenticated a = true ↔ is_Some (sessions demo_state_token_login !! sid))).
Proof.
  split; [apply state_after_reachable|].
  apply (reachable_invariants demo_state_token_login), state_after_reachable.
Defined.

(** ** Dumps of credentials *)

Lemma ascii_upper_underscore ch : ch ≠ "_"%char → ascii_upper ch ≠ "_"%char.
Proof.
  destruct ch as [[] [] [] [] [] [] [] []]; vm_compute; congruence.
Qed.

Lemma lstrip_underscore_head s ch rest :
  lstrip_underscore s = String ch rest → ch ≠ "_"%char.
Proof.
  induction s as [|ch' s IH]; simpl; [done|].
  destruct (Ascii.ascii_dec ch' "_") as [->|Hne].
  - exact IH.
  - intros H. assert (String ch' s = String ch rest) as [= <- <-]; [|done].
    rewrite <- H. destruct ch' as [[] [] [] [] [] [] [] []]; try reflexivity.
    by destruct Hne.
Qed.

Lemma dump_credentials_mono fuel fuel' st x o :
  dump_credentials fuel st x = o → o ≠ Diverge → (fuel ≤ fuel')%nat →
  dump_credentials fuel' st x = o.
Proof.
  revert fuel' x o. induction fuel as [|fuel IH]; intros fuel' x o H Ho Hle.
  - simpl in H. congruence.
  - destruct fuel' as [|fuel']; [lia|]. simpl in *.
    destruct x as [c|]; [|done].
    destruct (creds st !! c) as [obj|]; [|done].
    destruct obj; try done.
    destruct (token_objs st !! token0) as [tok|]; [|done].
    destruct (dump_credentials fuel st (parent_credentials tok)) as [d|e|] eqn:Hd.
    + by rewrite (IH fuel' _ (Done d) Hd) by (done || lia).
    + by rewrite (IH fuel' _ (Raise e) Hd) by (done || lia).
    + congruence.
Qed.

Lemma dump_credentials_entry st c obj fuel :
  creds st !! c = Some obj → is_token_credentials obj = false →
  dump_credentials (S fuel) st (Some c) = Done (credentials_entry obj).
Proof.
  intros Hc Hobj. cbn [dump_credentials]. rewrite Hc.
  destruct obj; try discriminate; reflexivity.
Qed.

Lemma dump_credentials_link st c p fuel :
  parent_link st c p →
  dump_credentials (S fuel) st (Some c) =
  match dump_credentials fuel st (Some p) with
  | Done parent => Done (mkDump "TOKEN" (DumpParent parent))
  | Raise e => Raise e
  | Diverge => Diverge
  end.
Proof.
  intros [c0 t tok q Hc Ht Hpar]. cbn [dump_credentials].
  rewrite Hc, Ht, Hpar. reflexivity.
Qed.

Lemma dump_credentials_chain st n p c obj :
  nsteps (parent_link st) n p c →
  creds st !! c = Some obj → is_token_credentials obj = false →
  ∀ fuel, (n < fuel)%nat →
    dump_credentials fuel st (Some p) = Done (token_entries n (credentials_entry obj)).
Proof.
  intros Hsteps Hc Hobj.
  induction Hsteps as [c|n p q c Hlink _ IH]; intros [|fuel] Hfuel; try lia.
  - by apply dump_credentials_entry.
  - rewrite (dump_credentials_link _ _ _ _ Hlink), (IH Hc) by lia. reflexivity.
Qed.

Lemma dump_credentials_chain_none st n p c t tok :
  nsteps (parent_link st) n p c →
  creds st !! c = Some (TokenSessionManagerCredentials t) →
  token_objs st !! t = Some tok → parent_credentials tok = None →
  ∀ fuel, (S n < fuel)%nat →
    dump_credentials fuel st (Some p) = Raise AttributeError.
Proof.
  intros Hsteps Hc Ht Hpar.
  induction Hsteps as [c|n p q c Hlink _ IH]; intros [|[|fuel]] Hfuel; try lia.
  - cbn [dump_credentials]. rewrite Hc, Ht, Hpar. reflexivity.
  - rewrite (dump_credentials_link _ _ _ _ Hlink), (IH Hc) by lia. reflexivity.
Qed.

Lemma dump_credentials_Done_inv st fuel p d :
  dump_credentials fuel st (Some p) = Done d →
  ∃ n c obj, nsteps (parent_link st) n p c ∧ creds st !! c = Some obj ∧
    is_token_credentials obj = false ∧ d = token_entries n (credentials_entry obj).
Proof.
  revert p d. induction fuel as [|fuel IH]; intros p d H; [discriminate|].
  destruct (creds st !! p) as [obj|] eqn:Hc;
    [|cbn [dump_credentials] in H; rewrite Hc in H; discriminate].
  destruct (is_token_credentials obj) eqn:Hobj.
  - cbn [dump_credentials] in H. rewrite Hc in H.
    destruct obj; try discriminate.
    destruct (token_objs st !! token0) as [tok|] eqn:Ht; [|discriminate].
    destruct (parent_credentials tok) as [q|] eqn:Hpar.
    + destruct (dump_credentials fuel st (Some q)) as [parent| |] eqn:Hd;
        [|discriminate..].
      injection H as <-.
      destruct (IH q parent Hd) as (n & c & obj & Hsteps & Hc' & Hobj' & ->).
      exists (S n), c, obj. split; [|done].
      eapply nsteps_l; [|done]. by econstructor.
    + destruct fuel; discriminate.
  - rewrite (dump_credentials_entry st p obj fuel Hc Hobj) in H. injection H as <-.
    exists 0%nat, p, obj. split; [constructor|done].
Qed.

(** X15: the label [dump_credentials] derives from the class name is [USER],
    [UNIX_SOCKET], [ROOT_TCP_SOCKET], [LOGIN_PASSWORD], [API_KEY],
    [TRUE_NAS_NODE] and [TOKEN] for the respective classes and empty for the
    base class; for no name at all does it begin with an underscore.  When
    the parent chain of a credential reaches, after [n] token-derived
    credentials, a credential that is not token-derived, its dump is the
    entry of that credential inside exactly [n] entries labelled [TOKEN],
    each the [parent] of the one around it, and every dump that is returned
    is of this form; when the chain reaches a token without parent,
    dumping raises [AttributeError]. *)
Theorem dump_credentials_spec :
  (∀ obj,
     credentials_label (class_name obj) =
     match obj with
     | SessionManagerCredentials => ""
     | UserSessionManagerCredentials _ _ => "USER"
     | UnixSocketSessionManagerCredentials _ _ => "UNIX_SOCKET"
     | RootTcpSocketSessionManagerCredentials => "ROOT_TCP_SOCKET"
     | LoginPasswordSessionManagerCredentials _ _ => "LOGIN_PASSWORD"
     | ApiKeySessionManagerCredentials _ => "API_KEY"
     | TrueNasNodeSessionManagerCredentials => "TRUE_NAS_NODE"
     | TokenSessionManagerCredentials _ => "TOKEN"
     end) ∧
  (∀ name rest, credentials_label name ≠ String "_" rest) ∧
  (∀ st n p c obj,
     nsteps (parent_link st) n p c →
     creds st !! c = Some obj → is_token_credentials obj = false →
     ∀ fuel, (n < fuel)%nat →
       dump_credentials fuel st (Some p) =
       Done (token_entries n (credentials_entry obj))) ∧
  (∀ st fuel p d,
     dump_credentials fuel st (Some p) = Done d →
     ∃ n c obj, nsteps (parent_link st) n p c ∧ creds st !! c = Some obj ∧
       is_token_credentials obj = false ∧
       d = token_entries n (credentials_entry obj)) ∧
  (∀ st n p c t tok,
     nsteps (parent_link st) n p c →
     creds st !! c = Some (TokenSessionManagerCredentials t) →
     token_objs st !! t = Some tok → parent_credentials tok = None →
     ∀ fuel, (S n < fuel)%nat →
       dump_credentials fuel st (Some p) = Raise AttributeError) ∧
  (∀ st fuel, dump_credentials (S fuel) st None = Raise AttributeError).
Proof.
  split; [|split; [|split; [|split; [|split]]]].
  - intros obj. destruct obj; vm_compute; reflexivity.
  - intros name rest H. unfold credentials_label in H.
    destruct (lstrip_underscore _) as [|ch s] eqn:Hs; simpl in H; [done|].
    injection H as Hch _. apply lstrip_underscore_head in Hs.
    by apply (ascii_upper_underscore ch).
  - exact dump_credentials_chain.
  - exact dump_credentials_Done_inv.
  - exact dump_credentials_chain_none.
  - reflexivity.
Qed.

Lemma dump_credentials_spec_witness :
  dump_credentials 3 demo_state_token_login (Some 1) =
    Done (mkDump "TOKEN" (DumpParent (mkDump "LOGIN_PASSWORD" (DumpUsername "alice")))) ∧
  dump_credentials 3 orphan_state (Some 0) = Raise AttributeError ∧
  ∃ n c obj, nsteps (parent_link demo_state_token_login) n 1 c ∧
    creds demo_state_token_login !! c = Some obj ∧
    is_token_credentials obj = false ∧
    mkDump "TOKEN" (DumpParent (mkDump "LOGIN_PASSWORD" (DumpUsername "alice"))) =
    token_entries n (credentials_entry obj).
Proof.
  destruct dump_credentials_spec as (_ & _ & Hnest & Hinv & Hnone & _).
  split.
  { apply (Hnest demo_state_token_login 1%nat 1 0 demo_credentials); [| | |lia].
    - apply nsteps_once.
      by apply (parent_link_intro demo_state_token_login 1 0 demo_token 0).
    - vm_compute; reflexivity.
    - reflexivity. }
  split.
  { apply (Hnone orphan_state 0%nat 0 0 0 orphan_token); [| | | |lia].
    - constructor.
    - vm_compute; reflexivity.
    - vm_compute; reflexivity.
    - reflexivity. }
  apply (Hinv demo_state_token_login 3%nat 1). vm_compute; reflexivity.
Defined.

(** ** Two-factor configuration *)

(** X16: [do_update] of the two-factor configuration never changes the row
    id and never replaces a secret that is set; it stores a newly generated
    secret exactly when the updated configuration is enabled and no secret
    is set; attributes absent from the update keep their value; a reload of
    [ssh] is requested each time; the result is the stored configuration as
    [config] reads it, with an [ssh] entry among the services.  So after any
    update that leaves two-factor authentication enabled a secret is set,
    provided the generated secret is not empty. *)
Theorem TwoFactor_do_update_spec
    (new_secret : string) (data : TwoFactorUpdate) (s : TwoFactorStore) :
  let old := tf_row s in
  let result := (TwoFactor_do_update new_secret data s).1 in
  let s' := (TwoFactor_do_update new_secret data s).2 in
  tf_id (tf_row s') = tf_id old ∧
  tf_enabled (tf_row s') = default (tf_enabled old) (upd_enabled data) ∧
  tf_otp_digits (tf_row s') = default (tf_otp_digits old) (upd_otp_digits data) ∧
  tf_window (tf_row s') = default (tf_window old) (upd_window data) ∧
  tf_interval (tf_row s') = default (tf_interval old) (upd_interval data) ∧
  (secret_set (tf_secret old) = true → tf_secret (tf_row s') = tf_secret old) ∧
  (tf_enabled (tf_row s') = false → tf_secret (tf_row s') = tf_secret old) ∧
  (tf_enabled (tf_row s') = true → secret_set (tf_secret old) = false →
     tf_secret (tf_row s') = Some new_secret) ∧
  (new_secret ≠ "" → tf_enabled (tf_row s') = true →
     secret_set (tf_secret (tf_row s')) = true) ∧
  tf_reloads s' = (tf_reloads s ++ ["ssh"])%list ∧
  result = TwoFactor_config s' ∧
  is_Some (tf_services result !! "ssh").
Proof.
  cbv zeta.
  assert (Hssh : ∀ c, is_Some (tf_services (two_factor_extend c) !! "ssh")).
  { intros c. unfold two_factor_extend; simpl.
    destruct (tf_services c !! "ssh") eqn:Hs; [by rewrite Hs|].
    by rewrite lookup_insert_eq. }
  assert (Hlast : (TwoFactor_do_update new_secret data s).1 =
                  TwoFactor_config (TwoFactor_do_update new_secret data s).2)
    by reflexivity.
  assert (Hsome : is_Some (tf_services (TwoFactor_do_update new_secret data s).1 !! "ssh"))
    by (rewrite Hlast; apply Hssh).
  split_and!; try exact Hlast; try exact Hsome; clear Hlast Hsome Hssh;
    destruct s as [[id enabled digits window interval services secret] reloads];
    destruct data as [e d w i sv];
    unfold TwoFactor_do_update, TwoFactor_config; simpl;
    destruct (default enabled e) eqn:He; destruct (secret_set secret) eqn:Hsec;
    simpl; rewrite ?He, ?Hsec; try done; try (intros; congruence).
  intros Hnew _. by apply negb_true_iff, String.eqb_neq.
Qed.

Lemma TwoFactor_do_update_spec_witness :
  tf_secret (tf_row (TwoFactor_do_update "JBSWY3DPEHPK3PXP"
     (mkTwoFactorUpdate (Some true) None None None None) demo_two_factor_store).2)
  = Some "JBSWY3DPEHPK3PXP".
Proof.
  destruct (TwoFactor_do_update_spec "JBSWY3DPEHPK3PXP"
              (mkTwoFactorUpdate (Some true) None None None None) demo_two_factor_store)
    as (_ & _ & _ & _ & _ & _ & _ & Hgenerated & _).
  apply Hgenerated; reflexivity.
Defined.

Lemma two_factor_extend_ssh row :
  default false (tf_services (two_factor_extend row) !! "ssh") =
  default false (tf_services row !! "ssh").
Proof.
  unfold two_factor_extend; simpl.
  destruct (tf_services row !! "ssh") as [b|] eqn:Hs; [by rewrite Hs|].
  by rewrite lookup_insert_eq.
Qed.

(** X17: while two-factor authentication is not enabled, [verify] and
    [renew_secret] raise [CallError] and store nothing.  When it is enabled,
    [verify] answers what the TOTP check of the stored secret, interval,
    digits and window answers; [renew_secret] returns [True], replaces the
    secret and nothing else in the row, and asks for a reload of [ssh] only
    if the [ssh] service is switched on in the configuration.  After a
    [do_update] that leaves two-factor authentication enabled, [verify] does
    not raise and checks against a secret that is set, provided generated
    secrets are not empty. *)
Theorem TwoFactor_verify_renew_spec
    (totp : option string → Z → Z → Z → option string → bool)
    (token : option string) (new_secret : string) (s : TwoFactorStore) :
  (tf_enabled (tf_row s) = false →
     TwoFactor_verify totp token s = Raise two_factor_disabled ∧
     TwoFactor_renew_secret new_secret s = Raise two_factor_disabled) ∧
  (tf_enabled (tf_row s) = true →
     TwoFactor_verify totp token s =
       Done (totp (tf_secret (tf_row s)) (tf_interval (tf_row s))
                  (tf_otp_digits (tf_row s)) (tf_window (tf_row s)) token) ∧
     ∃ s', TwoFactor_renew_secret new_secret s = Done (true, s') ∧
           tf_row s' = set_secret (Some new_secret) (tf_row s) ∧
           (tf_services (tf_row s) !! "ssh" = Some true →
              tf_reloads s' = (tf_reloads s ++ ["ssh"])%list) ∧
           (tf_services (tf_row s) !! "ssh" ≠ Some true →
              tf_reloads s' = tf_reloads s)) ∧
  (∀ data generated,
     generated ≠ "" →
     tf_enabled (tf_row (TwoFactor_do_update generated data s).2) = true →
     ∃ secret,
       secret ≠ "" ∧
       tf_secret (tf_row (TwoFactor_do_update generated data s).2) = Some secret ∧
       ∃ b, TwoFactor_verify totp token (TwoFactor_do_update generated data s).2 = Done b).
Proof.
  assert (Hverify : ∀ s0, tf_enabled (tf_row s0) = true →
            TwoFactor_verify totp token s0 =
              Done (totp (tf_secret (tf_row s0)) (tf_interval (tf_row s0))
                         (tf_otp_digits (tf_row s0)) (tf_window (tf_row s0)) token)).
  { intros s0 He. unfold TwoFactor_verify, TwoFactor_config; simpl. by rewrite He. }
  split; [|split].
  - intros He. unfold TwoFactor_verify, TwoFactor_renew_secret, TwoFactor_config; simpl.
    by rewrite He.
  - intros He. split; [by apply Hverify|].
    exists (mkTwoFactorStore (set_secret (Some new_secret) (tf_row s))
              (if default false (tf_services (tf_row s) !! "ssh")
               then (tf_reloads s ++ ["ssh"])%list else tf_reloads s)).
    split.
    { unfold TwoFactor_renew_secret, TwoFactor_config.
      rewrite two_factor_extend_ssh. simpl. by rewrite He. }
    split; [done|]. simpl. split.
    + by intros ->.
    + intros Hne. destruct (tf_services (tf_row s) !! "ssh") as [[]|]; done.
  - intros data generated Hgen He.
    assert (Hset : secret_set (tf_secret (tf_row (TwoFactor_do_update generated data s).2))
                   = true).
    { revert He. destruct s as [[id enabled digits window interval services secret] reloads].
      destruct data as [e d w i sv].
      unfold TwoFactor_do_update, TwoFactor_config; simpl.
      destruct (default enabled e) eqn:Hen; destruct (secret_set secret) eqn:Hsec;
        simpl; rewrite ?Hen; try done.
      intros _. by apply negb_true_iff, String.eqb_neq. }
    destruct (tf_secret (tf_row (TwoFactor_do_update generated data s).2))
      as [secret|] eqn:Hsecret; [|done].
    exists secret. split.
    { simpl in Hset. apply negb_true_iff, String.eqb_neq in Hset. done. }
    split; [done|].
    eexists. by apply Hverify.
Qed.

Lemma TwoFactor_verify_renew_spec_witness :
  TwoFactor_verify (λ _ _ _ _ _, true) (Some "123456") demo_two_factor_store
    = Raise two_factor_disabled ∧
  ∃ b, TwoFactor_verify (λ _ _ _ _ _, true) (Some "123456")
         (TwoFactor_do_update "JBSWY3DPEHPK3PXP"
            (mkTwoFactorUpdate (Some true) None None None None) demo_two_factor_store).2
       = Done b.
Proof.
  destruct (TwoFactor_verify_renew_spec (λ _ _ _ _ _, true) (Some "123456") ""
              demo_two_factor_store) as (Hoff & _ & Hon).
  split.
  - apply Hoff. reflexivity.
  - destruct (Hon (mkTwoFactorUpdate (Some true) None None None None) "JBSWY3DPEHPK3PXP")
      as (secret & _ & _ & Hverify); [discriminate|reflexivity|exact Hverify].
Defined.

(** ** Tokens and the sessions that use them *)

(** X18: a token issued by [generate_token] on a connection whose session
    holds a token-derived credential has that credential as parent, and its
    [root_credentials] is the root of the session's own token: the new chain
    ends where the old one ends, and the unwrap loop returns that end. *)
Theorem nested_token_root_credentials
    (now : Q) (new_id sid : string) (T : option Z) (attrs : gmap string JValue)
    (mo : bool) (st : State) (s : Session) (r : tok_ref) (tok : Token) :
  wf st → sessions st !! sid = Some s →
  creds st !! credentials s = Some (TokenSessionManagerCredentials r) →
  token_objs st !! r = Some tok →
  ∃ st1 r1 tok1,
    AuthService_generate_token now new_id sid T attrs mo st = Done (new_id, st1) ∧
    tokens st1 !! new_id = Some r1 ∧ token_objs st1 !! r1 = Some tok1 ∧
    parent_credentials tok1 = Some (credentials s) ∧
    ∀ root, Unwraps st (parent_credentials tok) root →
      Unwraps st1 (parent_credentials tok1) root ∧
      ∃ fuel0, ∀ fuel, (fuel0 ≤ fuel)%nat →
        Token_root_credentials fuel st1 tok1 = Done root.
Proof.
  intros Hwf Hs Hc Hr.
  destruct (wf_sessions_session _ _ _ Hwf Hs) as (_ & a & Ha & Hau & Hcr & _).
  set (r1 := fresh (dom (token_objs st))).
  set (tok1 := Token_new new_id (default 600%Z T) attrs (if mo then origin a else None)
                 (Some (credentials s)) now).
  set (st1 := set_tokens <[new_id:=r1]> (set_token_objs <[r1:=tok1]> st)).
  exists st1, r1, tok1. split.
  { unfold AuthService_generate_token. unfold bind at 1. unfold deref_app at 1.
    rewrite Ha, Hau; simpl. unfold bind at 1. rewrite TokenManager_create_Done.
    rewrite Hcr. unfold bind, deref_token, ret; simpl. by rewrite lookup_insert_eq. }
  split; [simpl; apply lookup_insert_eq|].
  split; [simpl; apply lookup_insert_eq|]. split; [done|].
  intros root Hroot.
  pose proof (fresh_lookup_None (token_objs st)) as Hfresh. fold r1 in Hfresh.
  assert (Hext : ∀ t' tok', token_objs st !! t' = Some tok' →
            token_objs st1 !! t' = Some tok').
  { intros t' tok' Ht'. simpl. rewrite lookup_insert_ne; [done|].
    intros Heq; rewrite <- Heq in Ht'; congruence. }
  assert (Hchain : Unwraps st1 (parent_credentials tok1) root).
  { simpl. eapply unwraps_token; [exact Hc|by apply Hext|].
    eapply Unwraps_mono; [| |exact Hroot]; [done|].
    intros t' tok' Ht'. exists tok'. split; [by apply Hext|done]. }
  split; [done|]. by apply Unwraps_root_credentials_loop.
Qed.

Lemma nested_token_root_credentials_witness :
  wf demo_state_token_login ∧
  ∃ st1 tok1,
    AuthService_generate_token 5 "tok3" "s2" None ∅ false demo_state_token_login
      = Done ("tok3", st1) ∧
    ∃ fuel0, ∀ fuel, (fuel0 ≤ fuel)%nat →
      Token_root_credentials fuel st1 tok1 = Done (Some 0).
Proof.
  assert (Hwf : wf demo_state_token_login) by apply reachable_wf, state_after_reachable.
  split; [exact Hwf|].
  destruct (nested_token_root_credentials 5 "tok3" "s2" None ∅ false
              demo_state_token_login (mkSession 1 "s2" 4) 0 demo_token Hwf)
    as (st1 & r1 & tok1 & Hgen & _ & _ & _ & Hroot);
    [vm_compute; reflexivity|vm_compute; reflexivity|vm_compute; reflexivity|].
  exists st1, tok1. split; [exact Hgen|].
  destruct (Hroot (Some 0)) as [_ Hloop]; [|exact Hloop].
  eapply unwraps_root; [vm_compute; reflexivity|reflexivity].
Defined.


(** ** Binary64 rounding *)

Section binary64_rounding.
Local Open Scope Z_scope.

Lemma binary64_shift_nonneg a : 0 <= binary64_shift a.
Proof. unfold binary64_shift. lia. Qed.

Lemma round_half_even_bounds a k :
  0 <= a -> 0 <= k -> a / 2 ^ k <= round_half_even a k <= a / 2 ^ k + 1.
Proof.
  intros Ha Hk. unfold round_half_even.
  destruct (2 * (a mod 2 ^ k) ?= 2 ^ k); [destruct (Z.even _)|..]; lia.
Qed.

Lemma round_half_even_exact a k :
  0 <= k -> a mod 2 ^ k = 0 -> round_half_even a k = a / 2 ^ k.
Proof.
  intros Hk Hr. unfold round_half_even. rewrite Hr.
  assert (0 < 2 ^ k) by (apply Z.pow_pos_nonneg; lia).
  destruct (2 * 0 ?= 2 ^ k) eqn:Hc; try reflexivity.
  - apply Z.compare_eq in Hc. lia.
  - apply Z.compare_gt_iff in Hc. lia.
Qed.

Lemma round_half_even_mono a b k :
  0 <= k -> a <= b -> round_half_even a k <= round_half_even b k.
Proof.
  intros Hk Hab.
  assert (Hp : 0 < 2 ^ k) by (apply Z.pow_pos_nonneg; lia).
  assert (Hq : a / 2 ^ k <= b / 2 ^ k) by (apply Z.div_le_mono; lia).
  destruct (Z.eq_dec (a / 2 ^ k) (b / 2 ^ k)) as [Heq|Hne].
  - assert (Hr : a mod 2 ^ k <= b mod 2 ^ k).
    { pose proof (Z.div_mod a (2 ^ k)). pose proof (Z.div_mod b (2 ^ k)). nia. }
    unfold round_half_even. rewrite <- Heq.
    destruct (Z.compare_spec (2 * (a mod 2 ^ k)) (2 ^ k));
      destruct (Z.compare_spec (2 * (b mod 2 ^ k)) (2 ^ k));
      destruct (Z.even (a / 2 ^ k)); lia.
  - assert (round_half_even a k <= a / 2 ^ k + 1).
    { unfold round_half_even.
      destruct (2 * (a mod 2 ^ k) ?= 2 ^ k); [destruct (Z.even _)|..]; lia. }
    assert (b / 2 ^ k <= round_half_even b k).
    { unfold round_half_even.
      destruct (2 * (b mod 2 ^ k) ?= 2 ^ k); [destruct (Z.even _)|..]; lia. }
    lia.
Qed.

(* binade facts *)
Lemma round_magnitude_small a :
  0 <= a -> Z.log2 a <= 52 -> binary64_round_magnitude a = a.
Proof.
  intros Ha Hl. unfold binary64_round_magnitude, binary64_shift.
  replace (Z.max 0 (Z.log2 a - 52)) with 0 by lia.
  unfold round_half_even. simpl (2 ^ 0). rewrite Z.div_1_r, Z.mod_1_r. simpl. lia.
Qed.

Lemma round_magnitude_binade a l :
  52 <= l -> 2 ^ l <= a < 2 ^ (l + 1) ->
  2 ^ l <= binary64_round_magnitude a <= 2 ^ (l + 1).
Proof.
  intros Hl Ha.
  assert (Hlog : Z.log2 a = l).
  { apply Z.log2_unique; [lia|]. replace (Z.succ l) with (l + 1) by lia. exact Ha. }
  unfold binary64_round_magnitude, binary64_shift. rewrite Hlog.
  replace (Z.max 0 (l - 52)) with (l - 52) by lia.
  set (k := l - 52).
  assert (Hk : 0 <= k) by lia.
  assert (Hp : 0 < 2 ^ k) by (apply Z.pow_pos_nonneg; lia).
  assert (Hl2 : 2 ^ l = 2 ^ 52 * 2 ^ k).
  { rewrite <- Z.pow_add_r by lia. f_equal. lia. }
  assert (Hl3 : 2 ^ (l + 1) = 2 ^ 53 * 2 ^ k).
  { rewrite <- Z.pow_add_r by lia. f_equal. lia. }
  pose proof (round_half_even_bounds a k ltac:(lia) Hk) as [Hlo Hhi].
  assert (Hq1 : 2 ^ 52 <= a / 2 ^ k).
  { apply Z.div_le_lower_bound; lia. }
  assert (Hq2 : a / 2 ^ k < 2 ^ 53).
  { apply Z.div_lt_upper_bound; lia. }
  rewrite Hl2, Hl3. split; apply Z.mul_le_mono_nonneg_r; lia.
Qed.

Lemma round_magnitude_mono a b :
  0 <= a -> a <= b -> binary64_round_magnitude a <= binary64_round_magnitude b.
Proof.
  intros Ha Hab.
  destruct (Z.le_gt_cases (Z.log2 b) 52) as [Hb|Hb].
  { assert (Z.log2 a <= 52) by (pose proof (Z.log2_le_mono a b Hab); lia).
    rewrite !round_magnitude_small by lia. lia. }
  assert (Hbpos : 0 < b) by (destruct (Z.lt_trichotomy 0 b) as [?|[<-|?]]; [lia|simpl in Hb; lia|rewrite Z.log2_nonpos in Hb; lia]).
  pose proof (Z.log2_spec b Hbpos) as Hbs.
  replace (Z.succ (Z.log2 b)) with (Z.log2 b + 1) in Hbs by lia.
  destruct (Z.eq_dec (Z.log2 a) (Z.log2 b)) as [Heq|Hne].
  - unfold binary64_round_magnitude, binary64_shift. rewrite Heq.
    apply Z.mul_le_mono_nonneg_r; [apply Z.pow_nonneg; lia|].
    apply round_half_even_mono; lia.
  - assert (Hlt : Z.log2 a < Z.log2 b) by (pose proof (Z.log2_le_mono a b Hab); lia).
    pose proof (round_magnitude_binade b (Z.log2 b) ltac:(lia) Hbs) as [Hblo _].
    destruct (Z.le_gt_cases (Z.log2 a) 52) as [Has|Has].
    + rewrite (round_magnitude_small a) by lia.
      assert (a < 2 ^ Z.log2 b); [|lia].
      destruct (Z.eq_dec a 0) as [->|?]; [apply Z.pow_pos_nonneg; lia|].
      pose proof (Z.log2_spec a ltac:(lia)) as [_ Hhi].
      eapply Z.lt_le_trans; [exact Hhi|]. apply Z.pow_le_mono_r; lia.
    + assert (Hapos : 0 < a) by (destruct (Z.lt_trichotomy 0 a) as [?|[<-|?]]; [lia|simpl in Has; lia|lia]).
      pose proof (Z.log2_spec a Hapos) as Has2.
      replace (Z.succ (Z.log2 a)) with (Z.log2 a + 1) in Has2 by lia.
      pose proof (round_magnitude_binade a (Z.log2 a) ltac:(lia) Has2) as [_ Hahi].
      assert (2 ^ (Z.log2 a + 1) <= 2 ^ Z.log2 b) by (apply Z.pow_le_mono_r; lia).
      lia.
Qed.

Lemma round_magnitude_nonneg a : 0 <= a -> 0 <= binary64_round_magnitude a.
Proof.
  intros Ha. unfold binary64_round_magnitude.
  apply Z.mul_nonneg_nonneg; [|apply Z.pow_nonneg; lia].
  pose proof (round_half_even_bounds a (binary64_shift a) Ha (binary64_shift_nonneg a)).
  assert (0 <= a / 2 ^ binary64_shift a) by (apply Z.div_pos; [lia|apply Z.pow_pos_nonneg; [lia|apply binary64_shift_nonneg]]).
  lia.
Qed.

Lemma binary64_round_mono n1 n2 : n1 <= n2 -> binary64_round n1 <= binary64_round n2.
Proof.
  intros H. unfold binary64_round.
  pose proof (round_magnitude_nonneg (Z.abs n1) ltac:(lia)) as Hn1.
  pose proof (round_magnitude_nonneg (Z.abs n2) ltac:(lia)) as Hn2.
  destruct (Z.sgn_spec n1) as [[H1 ->]|[[H1 ->]|[H1 ->]]];
    destruct (Z.sgn_spec n2) as [[H2 ->]|[[H2 ->]|[H2 ->]]]; try lia.
  - pose proof (round_magnitude_mono (Z.abs n1) (Z.abs n2) ltac:(lia) ltac:(lia)). lia.
  - pose proof (round_magnitude_mono (Z.abs n2) (Z.abs n1) ltac:(lia) ltac:(lia)). lia.
Qed.

Lemma binary64_round_exact n : is_binary64 n = true -> binary64_round n = n.
Proof.
  unfold is_binary64. intros [_ Hm]%andb_prop. apply Z.eqb_eq in Hm.
  unfold binary64_round, binary64_round_magnitude.
  pose proof (binary64_shift_nonneg (Z.abs n)) as Hk.
  rewrite round_half_even_exact by assumption.
  assert (Hp : 0 < 2 ^ binary64_shift (Z.abs n)) by (apply Z.pow_pos_nonneg; lia).
  pose proof (Z.div_mod (Z.abs n) (2 ^ binary64_shift (Z.abs n)) ltac:(lia)) as Hd.
  rewrite Hm in Hd.
  replace (Z.abs n / 2 ^ binary64_shift (Z.abs n) * 2 ^ binary64_shift (Z.abs n))
    with (Z.abs n) by lia.
  rewrite Z.mul_comm. apply Z.abs_sgn.
Qed.

Lemma binary64_round_abs n :
  Z.abs (binary64_round n) = binary64_round_magnitude (Z.abs n).
Proof.
  unfold binary64_round.
  pose proof (round_magnitude_nonneg (Z.abs n) ltac:(lia)) as Hn.
  destruct (Z.sgn_spec n) as [[? ->]|[[? ->]|[? ->]]]; [lia| |lia].
  subst n. rewrite round_magnitude_small by (simpl; lia). reflexivity.
Qed.

Lemma binary64_round_sign n :
  (0 <= n -> 0 <= binary64_round n) ∧ (n <= 0 -> binary64_round n <= 0).
Proof.
  unfold binary64_round.
  pose proof (round_magnitude_nonneg (Z.abs n) ltac:(lia)) as Hn.
  destruct (Z.sgn_spec n) as [[? ->]|[[? ->]|[? ->]]]; lia.
Qed.

Lemma binary64_scale_pos : 0 < binary64_scale.
Proof. reflexivity. Qed.

(** Every integer of magnitude at most 2^53 is a float. *)
Lemma is_binary64_int i : Z.abs i <= 2 ^ 53 -> is_binary64 (i * binary64_scale) = true.
Proof.
  intros Hi. unfold is_binary64.
  assert (Habs : Z.abs (i * binary64_scale) = Z.abs i * 2 ^ 1074).
  { rewrite Z.abs_mul. reflexivity. }
  rewrite Habs. apply andb_true_intro. split.
  - apply Z.ltb_lt.
    change binary64_overflow with (2 ^ 1024 * 2 ^ 1074).
    apply Z.mul_lt_mono_pos_r; [reflexivity|].
    eapply Z.le_lt_trans; [exact Hi|reflexivity].
  - apply Z.eqb_eq.
    destruct (Z.eq_dec (Z.abs i) 0) as [->|Hne]; [reflexivity|].
    unfold binary64_shift.
    rewrite Z.log2_mul_pow2 by lia.
    assert (Hl : Z.log2 (Z.abs i) <= 53).
    { change 53 with (Z.log2 (2 ^ 53)). apply Z.log2_le_mono. exact Hi. }
    destruct (Z.eq_dec (Z.log2 (Z.abs i)) 53) as [H53|H53].
    + assert (Z.abs i = 2 ^ 53) as ->.
      { pose proof (Z.log2_spec (Z.abs i) ltac:(lia)) as [Hlo _].
        rewrite H53 in Hlo. lia. }
      reflexivity.
    + set (l := Z.log2 (Z.abs i)) in *.
      assert (0 <= l) by apply Z.log2_nonneg.
      replace (Z.max 0 (1074 + l - 52)) with (1022 + l) by lia.
      replace 1074 with ((52 - l) + (1022 + l)) at 1 by lia.
      rewrite Z.pow_add_r, Z.mul_assoc by lia.
      apply Z.mod_mul. apply Z.pow_nonzero; lia.
Qed.

Lemma binary64_of_int_exact i :
  is_binary64 (i * binary64_scale) = true →
  binary64_of_int i = Some (i * binary64_scale).
Proof.
  intros Hf. unfold binary64_of_int.
  rewrite (binary64_round_exact _ Hf).
  unfold is_binary64 in Hf. apply andb_prop in Hf as [-> _]. reflexivity.
Qed.

(** An int converts to a float exactly when its magnitude is below
    2^1024 - 2^970, the midpoint above the greatest finite float. *)
Lemma binary64_of_int_overflow i :
  binary64_of_int i = None ↔ binary64_int_limit <= Z.abs i.
Proof.
  unfold binary64_of_int. rewrite binary64_round_abs, Z.abs_mul.
  rewrite (Z.abs_eq binary64_scale) by (pose proof binary64_scale_pos; lia).
  destruct (Z.le_gt_cases binary64_int_limit (Z.abs i)) as [Hle|Hgt].
  - assert (Hr : binary64_overflow <=
                 binary64_round_magnitude (Z.abs i * binary64_scale)).
    { etransitivity;
        [|apply (round_magnitude_mono (binary64_int_limit * binary64_scale))].
      - vm_compute. discriminate.
      - vm_compute. discriminate.
      - apply Z.mul_le_mono_nonneg_r;
          [pose proof binary64_scale_pos; lia|exact Hle]. }
    apply Z.ltb_ge in Hr. rewrite Hr. split; [intros _; exact Hle|reflexivity].
  - assert (Hr : binary64_round_magnitude (Z.abs i * binary64_scale) <
                 binary64_overflow).
    { eapply Z.le_lt_trans;
        [apply (round_magnitude_mono _ ((binary64_int_limit - 1) * binary64_scale))|].
      - pose proof binary64_scale_pos. apply Z.mul_nonneg_nonneg; lia.
      - apply Z.mul_le_mono_nonneg_r; [pose proof binary64_scale_pos; lia|lia].
      - vm_compute. reflexivity. }
    apply Z.ltb_lt in Hr. rewrite Hr. split; [discriminate|lia].
Qed.

(** A positive int converts to a float that is at least 1.0. *)
Lemma binary64_of_int_pos i t :
  0 < i → binary64_of_int i = Some t → binary64_scale <= t.
Proof.
  intros Hi. unfold binary64_of_int.
  destruct (Z.abs _ <? _); [|discriminate]. intros [= <-].
  rewrite <- (binary64_round_exact binary64_scale) at 1 by reflexivity.
  apply binary64_round_mono.
  pose proof binary64_scale_pos. nia.
Qed.

(** The float sum exceeds a reading of magnitude below 2^53 as soon as
    the float added is at least 1.0. *)
Lemma binary64_add_exceeds c t :
  Z.abs c < 2 ^ 53 * binary64_scale →
  binary64_scale <= t →
  binary64_lt c (binary64_add c t) = true.
Proof.
  intros Hc53 Ht.
  pose proof binary64_scale_pos as Hs.
  set (f := (c / binary64_scale + 1) * binary64_scale).
  assert (Hdiv : - 2 ^ 53 <= c / binary64_scale < 2 ^ 53).
  { split; [apply Z.div_le_lower_bound; lia|apply Z.div_lt_upper_bound; lia]. }
  assert (Hf : is_binary64 f = true).
  { apply is_binary64_int. lia. }
  assert (Hcf : c < f ∧ f <= c + binary64_scale).
  { pose proof (Z.div_mod c binary64_scale ltac:(lia)).
    pose proof (Z.mod_pos_bound c binary64_scale Hs). unfold f. lia. }
  assert (Hr : f <= binary64_round (c + t)).
  { rewrite <- (binary64_round_exact f Hf). apply binary64_round_mono. lia. }
  assert (Hov : 2 ^ 53 * binary64_scale < binary64_overflow) by reflexivity.
  unfold binary64_add, binary64_lt.
  destruct (Z.abs _ <? _) eqn:Hfin.
  - apply Z.ltb_lt. lia.
  - apply negb_true_iff, Z.ltb_ge. apply Z.ltb_ge in Hfin. lia.
Qed.

(** The float sum of a reading and an exactly converted ttl is not above
    any float reading that the exact sum is below. *)
Lemma binary64_add_expired n c t :
  is_binary64 n = true → c + t <= n →
  binary64_lt n (binary64_add c t) = false.
Proof.
  intros Hn Hlt.
  assert (Hr : binary64_round (c + t) <= n).
  { rewrite <- (binary64_round_exact n Hn). apply binary64_round_mono. lia. }
  unfold binary64_add, binary64_lt.
  destruct (Z.abs _ <? _) eqn:Hov.
  - apply Z.ltb_ge. lia.
  - apply negb_false_iff, Z.ltb_lt.
    apply Z.ltb_ge in Hov.
    unfold is_binary64 in Hn. apply andb_prop in Hn as [Hn _].
    apply Z.ltb_lt in Hn. lia.
Qed.

(** Rounding a magnitude goes to the multiple of the spacing below it or
    to the next one, and up only from the midpoint on. *)
Lemma round_magnitude_cases a :
  0 <= a →
  let g := 2 ^ binary64_shift a in
  binary64_round_magnitude a = a / g * g ∨
  (binary64_round_magnitude a = a / g * g + g ∧ g <= 2 * (a mod g)).
Proof.
  intros Ha g. unfold binary64_round_magnitude, round_half_even. fold g.
  destruct (Z.compare_spec (2 * (a mod g)) g) as [Heq|Hlt|Hgt].
  - destruct (Z.even (a / g)); [by left|right]. split; lia.
  - by left.
  - right. split; lia.
Qed.

Lemma binary64_shift_mono a b : a <= b → binary64_shift a <= binary64_shift b.
Proof.
  intros Hab. unfold binary64_shift.
  pose proof (Z.log2_le_mono a b Hab). lia.
Qed.

(** A float is a multiple of the spacing of every magnitude that is not
    above its own. *)
Lemma is_binary64_divide a n :
  is_binary64 n = true → 0 <= a <= n → (2 ^ binary64_shift a | n).
Proof.
  intros Hn Han. unfold is_binary64 in Hn. apply andb_prop in Hn as [_ Hn].
  apply Z.eqb_eq in Hn. rewrite Z.abs_eq in Hn by lia.
  pose proof (binary64_shift_nonneg a) as Hk.
  pose proof (binary64_shift_mono a n ltac:(lia)) as Hkn.
  apply Z.divide_trans with (m := 2 ^ binary64_shift n).
  - exists (2 ^ (binary64_shift n - binary64_shift a)).
    rewrite <- Z.pow_add_r by lia. f_equal. lia.
  - apply Z.mod_divide; [|exact Hn]. apply Z.pow_nonzero; lia.
Qed.

(** A sum that is above a nonnegative float by less than half of its
    spacing rounds to that float. *)
Lemma binary64_round_near n d :
  is_binary64 n = true → 0 <= n → 0 <= d → 2 * d < 2 ^ binary64_shift n →
  binary64_round (n + d) = n.
Proof.
  intros Hn Hn0 Hd0 Hd.
  destruct (Z.eq_dec d 0) as [->|Hd1].
  { rewrite Z.add_0_r. by apply binary64_round_exact. }
  set (k := binary64_shift n) in *.
  assert (Hk : 2 <= 2 ^ k) by lia.
  assert (Hk1 : 1 <= k).
  { destruct (Z.le_gt_cases 1 k) as [?|Hlt]; [done|].
    pose proof (binary64_shift_nonneg n). fold k in H.
    assert (k = 0) as Hk0 by lia. rewrite Hk0 in Hk. simpl in Hk. lia. }
  assert (Hlog : Z.log2 n = k + 52).
  { unfold k, binary64_shift in *. lia. }
  assert (Hnpos : 0 < n).
  { destruct (Z.eq_dec n 0) as [->|?]; [simpl in Hlog; lia|lia]. }
  pose proof (Z.log2_spec n Hnpos) as [Hlo Hhi]. rewrite Hlog in Hlo, Hhi.
  pose proof (is_binary64_divide n n Hn ltac:(lia)) as [m Hm]. fold k in Hm.
  assert (Hpow : 2 ^ Z.succ (k + 52) = 2 ^ 53 * 2 ^ k).
  { rewrite <- Z.pow_add_r by lia. f_equal. lia. }
  assert (Hm53 : m < 2 ^ 53) by nia.
  assert (Hlog' : Z.log2 (n + d) = k + 52).
  { apply Z.log2_unique; [lia|]. split; [lia|]. rewrite Hpow. nia. }
  unfold binary64_round. rewrite Z.sgn_pos, Z.abs_eq, Z.mul_1_l by lia.
  unfold binary64_round_magnitude, binary64_shift. rewrite Hlog'.
  replace (Z.max 0 (k + 52 - 52)) with k by lia.
  assert (Hq : (n + d) / 2 ^ k = m).
  { symmetry. apply Z.div_unique with (r := d); [left; lia|lia]. }
  assert (Hr : (n + d) mod 2 ^ k = d).
  { symmetry. apply Z.mod_unique with (q := m); [left; lia|lia]. }
  unfold round_half_even. rewrite Hq, Hr.
  destruct (Z.compare_spec (2 * d) (2 ^ k)); lia.
Qed.

Lemma binary64_round_nonneg a :
  0 <= a → binary64_round a = binary64_round_magnitude a.
Proof.
  intros Ha. unfold binary64_round. destruct (Z.eq_dec a 0) as [->|Ha0].
  - reflexivity.
  - rewrite Z.sgn_pos, Z.abs_eq by lia. lia.
Qed.

(** A nonnegative reading plus a converted nonnegative ttl: the float sum
    is not above a float reading that is past the exact sum. *)
Lemma binary64_round_sum_below n c a :
  is_binary64 n = true → 0 <= c → 0 <= a → c + a < n →
  binary64_round (c + binary64_round a) <= n.
Proof.
  intros Hn Hc Ha Hlt.
  assert (Hn' : n = binary64_round n) by (symmetry; by apply binary64_round_exact).
  rewrite (binary64_round_nonneg a Ha).
  set (g := 2 ^ binary64_shift a).
  assert (Hg : 0 < g) by (apply Z.pow_pos_nonneg; [lia|apply binary64_shift_nonneg]).
  pose proof (Z.div_mod a g ltac:(lia)) as Hdiv.
  pose proof (Z.mod_pos_bound a g Hg) as Hmod.
  destruct (round_magnitude_cases a Ha) as [Hlo|[Hhi Hhalf]]; fold g in Hlo || fold g in Hhi, Hhalf.
  - rewrite Hn'. apply binary64_round_mono. rewrite Hlo. lia.
  - rewrite Hhi.
    pose proof (is_binary64_divide a n Hn ltac:(lia)) as [m Hm]. fold g in Hm.
    pose proof (Z.div_mod c g ltac:(lia)) as Hcdiv.
    pose proof (Z.mod_pos_bound c g Hg) as Hcmod.
    set (lo := a / g) in *. set (ch := c / g) in *. set (cl := c mod g) in *.
    assert (Hm1 : ch + lo + 1 <= m) by nia.
    destruct (Z.le_gt_cases g (2 * cl)) as [Hbig|Hsmall].
    + assert (Hm2 : ch + lo + 2 <= m) by nia.
      rewrite Hn'. apply binary64_round_mono. nia.
    + transitivity (binary64_round (n + cl)).
      * apply binary64_round_mono. nia.
      * rewrite binary64_round_near; [lia|done|lia|lia|].
        eapply Z.lt_le_trans; [exact Hsmall|].
        apply Z.pow_le_mono_r; [lia|]. apply binary64_shift_mono. lia.
Qed.

Lemma binary64_add_expired_nonneg n c a t :
  is_binary64 n = true → 0 <= c → 0 <= a →
  binary64_round a = t → c + a < n →
  binary64_lt n (binary64_add c t) = false.
Proof.
  intros Hn Hc Ha <- Hlt.
  pose proof (binary64_round_sum_below n c a Hn Hc Ha Hlt) as Hr.
  unfold binary64_add, binary64_lt.
  destruct (Z.abs _ <? _) eqn:Hov.
  - apply Z.ltb_ge. lia.
  - apply negb_false_iff, Z.ltb_lt.
    apply Z.ltb_ge in Hov.
    unfold is_binary64 in Hn. apply andb_prop in Hn as [Hn _].
    apply Z.ltb_lt in Hn. lia.
Qed.

Lemma binary64_add_exact c t :
  is_binary64 (c + t) = true → binary64_add c t = Finite (c + t).
Proof.
  intros Hf. unfold binary64_add. rewrite (binary64_round_exact _ Hf).
  unfold is_binary64 in Hf. apply andb_prop in Hf as [-> _]. reflexivity.
Qed.

Lemma binary64_of_reading_reading n : binary64_of_reading (reading n) = n.
Proof.
  unfold binary64_of_reading, reading. cbn [Qnum Qden].
  rewrite Pos2Z.inj_pow. apply Z.div_mul. discriminate.
Qed.

Lemma reading_lt_sum n c T :
  (reading n < reading c + inject_Z T)%Q ↔ n < c + T * binary64_scale.
Proof.
  unfold reading, Qlt, Qplus, inject_Z. cbn [Qnum Qden].
  rewrite Pos2Z.inj_mul, Pos2Z.inj_pow.
  change (Z.pos 2 ^ Z.pos 1074) with binary64_scale.
  pose proof binary64_scale_pos. rewrite Z.mul_1_r. split; intros; nia.
Qed.

Lemma sum_lt_reading n c T :
  (reading c + inject_Z T < reading n)%Q ↔ c + T * binary64_scale < n.
Proof.
  unfold reading, Qlt, Qplus, inject_Z. cbn [Qnum Qden].
  rewrite Pos2Z.inj_mul, Pos2Z.inj_pow.
  change (Z.pos 2 ^ Z.pos 1074) with binary64_scale.
  pose proof binary64_scale_pos. rewrite Z.mul_1_r. split; intros; nia.
Qed.

End binary64_rounding.

(** ** Token expiry *)

Lemma Token_is_valid_binary64_eq n c t tok :
  last_used_at tok = reading c →
  binary64_of_int (ttl tok) = Some t →
  Token_is_valid_binary64 (reading n) tok =
  Some (binary64_lt n (binary64_add c t)).
Proof.
  intros Hc Ht. unfold Token_is_valid_binary64.
  rewrite Ht, Hc, !binary64_of_reading_reading. reflexivity.
Qed.

Lemma binary64_of_int_round i t :
  binary64_of_int i = Some t → binary64_round (i * binary64_scale) = t.
Proof.
  unfold binary64_of_int. destruct (Z.abs _ <? _)%Z; [|discriminate].
  by intros [= <-].
Qed.

Lemma Token_is_valid_reading n c tok :
  last_used_at tok = reading c →
  Token_is_valid (reading n) tok = (n <? c + ttl tok * binary64_scale)%Z.
Proof.
  intros Hc. apply eq_true_iff_eq.
  rewrite Token_is_valid_iff, Hc, reading_lt_sum, Z.ltb_lt. reflexivity.
Qed.

(** C2: [Token.is_valid()] compares float readings.  It raises
    [OverflowError] exactly when the magnitude of the ttl is at least
    2^1024 - 2^970, and otherwise answers whether the reading is strictly
    below the float sum of [last_used_at] and the converted ttl; when
    neither the ttl nor the sum is rounded, that is whether the reading is
    strictly below the exact [last_used_at + ttl].  A token is valid at the
    reading stored in [last_used_at] (at its creation, or right after a
    use) when its ttl is positive and converts, and that reading is below
    2^53 seconds in magnitude.  It is invalid at every float reading from
    [last_used_at + ttl] on when the ttl converts exactly, and at every
    float reading past [last_used_at + ttl] when the ttl converts and
    neither it nor [last_used_at] is negative; once invalid it is invalid
    at every later reading.  [notify_used] stores the current reading in
    [last_used_at] and changes nothing else, so that the answer is then
    taken against the float sum of that reading and the ttl. *)
Theorem Token_is_valid_binary64_window :
  (∀ now tok,
     Token_is_valid_binary64 now tok = None ↔
     (binary64_int_limit ≤ Z.abs (ttl tok))%Z) ∧
  (∀ n c t tok,
     last_used_at tok = reading c →
     binary64_of_int (ttl tok) = Some t →
     Token_is_valid_binary64 (reading n) tok =
     Some (binary64_lt n (binary64_add c t))) ∧
  (∀ n c tok,
     last_used_at tok = reading c →
     is_binary64 (ttl tok * binary64_scale) = true →
     is_binary64 (c + ttl tok * binary64_scale) = true →
     Token_is_valid_binary64 (reading n) tok =
     Some (Token_is_valid (reading n) tok) ∧
     (Token_is_valid_binary64 (reading n) tok = Some true ↔
      (reading n < last_used_at tok + inject_Z (ttl tok))%Q)) ∧
  (∀ c tok,
     last_used_at tok = reading c →
     (Z.abs c < 2 ^ 53 * binary64_scale)%Z →
     (0 < ttl tok < binary64_int_limit)%Z →
     Token_is_valid_binary64 (reading c) tok = Some true) ∧
  (∀ n c tok,
     last_used_at tok = reading c →
     is_binary64 n = true →
     is_binary64 (ttl tok * binary64_scale) = true →
     (last_used_at tok + inject_Z (ttl tok) <= reading n)%Q →
     Token_is_valid_binary64 (reading n) tok = Some false) ∧
  (∀ n c tok,
     last_used_at tok = reading c →
     is_binary64 n = true →
     (0 ≤ c)%Z →
     (0 ≤ ttl tok < binary64_int_limit)%Z →
     (last_used_at tok + inject_Z (ttl tok) < reading n)%Q →
     Token_is_valid_binary64 (reading n) tok = Some false) ∧
  (∀ n n' tok,
     (n ≤ n')%Z →
     Token_is_valid_binary64 (reading n) tok = Some false →
     Token_is_valid_binary64 (reading n') tok = Some false) ∧
  (∀ used tok,
     last_used_at (Token_notify_used used tok) = used ∧
     ttl (Token_notify_used used tok) = ttl tok ∧
     token (Token_notify_used used tok) = token tok ∧
     attributes (Token_notify_used used tok) = attributes tok ∧
     match_origin (Token_notify_used used tok) = match_origin tok ∧
     parent_credentials (Token_notify_used used tok) = parent_credentials tok) ∧
  (∀ n u t tok,
     binary64_of_int (ttl tok) = Some t →
     Token_is_valid_binary64 (reading n) (Token_notify_used (reading u) tok) =
     Some (binary64_lt n (binary64_add u t))).
Proof.
  split.
  { intros now tok. unfold Token_is_valid_binary64.
    rewrite <- binary64_of_int_overflow.
    destruct (binary64_of_int (ttl tok)); split; congruence. }
  split; [exact Token_is_valid_binary64_eq|].
  split.
  { intros n c tok Hc HT Hsum.
    assert (Heq : Token_is_valid_binary64 (reading n) tok =
                  Some (Token_is_valid (reading n) tok)).
    { rewrite (Token_is_valid_binary64_eq n c _ tok Hc (binary64_of_int_exact _ HT)).
      rewrite (binary64_add_exact _ _ Hsum), (Token_is_valid_reading n c tok Hc).
      reflexivity. }
    split; [exact Heq|].
    rewrite Heq, <- Token_is_valid_iff. split; congruence. }
  split.
  { intros c tok Hc Hrange [HT0 HT1].
    destruct (binary64_of_int (ttl tok)) as [t|] eqn:Ht.
    - rewrite (Token_is_valid_binary64_eq c c t tok Hc Ht). f_equal.
      apply binary64_add_exceeds; [exact Hrange|].
      exact (binary64_of_int_pos _ _ HT0 Ht).
    - apply binary64_of_int_overflow in Ht. lia. }
  split.
  { intros n c tok Hc Hn HT Hlate.
    rewrite (Token_is_valid_binary64_eq n c _ tok Hc (binary64_of_int_exact _ HT)).
    f_equal. apply binary64_add_expired; [exact Hn|].
    apply Z.nlt_ge. intros Hlt. apply (reading_lt_sum n c (ttl tok)) in Hlt.
    rewrite Hc in Hlate. apply Qle_not_lt in Hlate. contradiction. }
  split.
  { intros n c tok Hc Hn Hc0 [HT0 HT1] Hlate.
    destruct (binary64_of_int (ttl tok)) as [t|] eqn:Ht.
    - rewrite (Token_is_valid_binary64_eq n c t tok Hc Ht). f_equal.
      rewrite Hc in Hlate. apply sum_lt_reading in Hlate.
      apply (binary64_add_expired_nonneg n c (ttl tok * binary64_scale)%Z);
        [exact Hn|exact Hc0| | |exact Hlate].
      + pose proof binary64_scale_pos. lia.
      + by apply binary64_of_int_round.
    - apply binary64_of_int_overflow in Ht. lia. }
  split.
  { intros n n' tok Hle. unfold Token_is_valid_binary64.
    destruct (binary64_of_int (ttl tok)); [|discriminate].
    rewrite !binary64_of_reading_reading. intros [= Hfalse]. f_equal.
    destruct (binary64_add _ _) as [d|neg]; simpl in *; [|exact Hfalse].
    apply Z.ltb_ge. apply Z.ltb_ge in Hfalse. lia. }
  split.
  { intros used tok. repeat split. }
  intros n u t tok Ht.
  apply Token_is_valid_binary64_eq; [reflexivity|exact Ht].
Qed.

Lemma Token_is_valid_binary64_window_witness :
  (Token_is_valid_binary64 (reading 0) huge_ttl_token = None) ∧
  (Token_is_valid_binary64 (reading reading_5_1) tenth_token =
   Some (binary64_lt reading_5_1
           (binary64_add reading_0_1 (5 * binary64_scale)))) ∧
  (Token_is_valid_binary64 (reading binary64_scale)
     (Token_new "tok5" 5 ∅ None None (reading (2 * binary64_scale))) = Some true) ∧
  (Token_is_valid_binary64 (reading reading_0_1) tenth_token = Some true) ∧
  (Token_is_valid_binary64 (reading (6 * binary64_scale)) tenth_token = Some false) ∧
  (Token_is_valid_binary64 (reading (2 ^ 54 * binary64_scale))
     (Token_new "tok6" (2 ^ 53 + 1) ∅ None None (reading 0)) = Some false) ∧
  (Token_is_valid_binary64 (reading (7 * binary64_scale)) tenth_token = Some false) ∧
  (Token_is_valid_binary64 (reading (6 * binary64_scale))
     (Token_notify_used (reading reading_5_1) tenth_token) =
   Some (binary64_lt (6 * binary64_scale)
           (binary64_add reading_5_1 (5 * binary64_scale)))).
Proof.
  pose proof Token_is_valid_binary64_window
    as (Hraise & Hsum & Hexact & Hfresh & Hlate & Hpast & Hstay & _ & Hused).
  assert (H6 : Token_is_valid_binary64 (reading (6 * binary64_scale)) tenth_token =
               Some false).
  { apply (Hlate _ reading_0_1); [reflexivity|reflexivity|reflexivity|].
    vm_compute. discriminate. }
  split; [apply Hraise; vm_compute; discriminate|].
  split; [apply Hsum; reflexivity|].
  split.
  { apply (Hexact binary64_scale (2 * binary64_scale)%Z); [reflexivity..|].
    vm_compute. reflexivity. }
  split.
  { apply Hfresh; [reflexivity| |]; vm_compute; [reflexivity|split; reflexivity]. }
  split; [exact H6|].
  split.
  { apply (Hpast _ 0%Z); [reflexivity|reflexivity|lia| |];
      vm_compute; [split; [discriminate|reflexivity]|reflexivity]. }
  split.
  { apply (Hstay (6 * binary64_scale)%Z); [vm_compute; discriminate|exact H6]. }
  apply Hused. reflexivity.
Defined.

(** C2 as stated fails on floats.  At the reading 5.1 a token last used
    at 0.1 with ttl 5 is invalid, although 5.1 is below the exact sum of
    0.1 and 5: the float sum is 5.1.  A token whose ttl is 10^400 raises
    [OverflowError] instead of being valid at its creation.  A token created
    at 2^60 with ttl 1 is invalid at its creation, the float sum being 2^60.
    And with ttl -(2^53 + 1), which converts to -2^53, a token created at
    2^53 + 2 is still valid at 1.5, past the exact sum 1. *)
Lemma Token_is_valid_exact_deadline_fails :
  (is_binary64 reading_0_1 = true ∧ is_binary64 reading_5_1 = true ∧
   (reading reading_5_1 <
    last_used_at tenth_token + inject_Z (ttl tenth_token))%Q ∧
   Token_is_valid_binary64 (reading reading_5_1) tenth_token = Some false) ∧
  ((0 < ttl huge_ttl_token)%Z ∧
   Token_is_valid_binary64 (last_used_at huge_ttl_token) huge_ttl_token = None) ∧
  ((0 < ttl late_token)%Z ∧
   is_binary64 (2 ^ 60 * binary64_scale) = true ∧
   Token_is_valid_binary64 (last_used_at late_token) late_token = Some false) ∧
  (is_binary64 ((2 ^ 53 + 2) * binary64_scale) = true ∧
   is_binary64 reading_1_5 = true ∧
   (last_used_at rounded_ttl_token + inject_Z (ttl rounded_ttl_token) <
    reading reading_1_5)%Q ∧
   Token_is_valid_binary64 (reading reading_1_5) rounded_ttl_token = Some true).
Proof. vm_compute. repeat split. Qed.

(** ** The loop of [root_credentials] on every store *)

Lemma Unwraps_chain_reaches st p c :
  Unwraps st (Some p) (Some c) ↔ chain_reaches st p c.
Proof.
  split.
  - intros H. remember (Some p) as x eqn:Hx. remember (Some c) as r eqn:Hr.
    revert p Hx. induction H as [|c' obj Hc Hobj|c' t tok r Hc Ht Hu IH];
      intros p Hx; [done| |].
    + injection Hx as ->. injection Hr as ->. split; [done|eauto].
    + injection Hx as ->. subst r.
      destruct (parent_credentials tok) as [p'|] eqn:Hp; [|inversion Hu].
      destruct (IH eq_refl p' eq_refl) as [Hrtc Hobj].
      split; [|done]. eapply rtc_l; [|done]. by econstructor.
  - intros [Hrtc (obj & Hc & Hobj)].
    induction Hrtc as [p|p p' c Hlink _ IH].
    + by eapply unwraps_root.
    + destruct Hlink as [p0 t tok q Hp Ht Hpar].
      eapply unwraps_token; [done..|]. rewrite Hpar. by apply IH.
Qed.

Lemma Unwraps_chain_ends_in_none st p :
  Unwraps st (Some p) None ↔ chain_ends_in_none st p.
Proof.
  split.
  - intros H. remember (Some p) as x eqn:Hx. remember None as r eqn:Hr.
    revert p Hx. induction H as [|c' obj Hc Hobj|c' t tok r Hc Ht Hu IH];
      intros p Hx; [done..|].
    injection Hx as ->. subst r.
    destruct (parent_credentials tok) as [p'|] eqn:Hp.
    + destruct (IH eq_refl p' eq_refl) as (c & t' & tok' & Hrtc & H').
      exists c, t', tok'. split; [|done]. eapply rtc_l; [|done]. by econstructor.
    + exists p, t, tok. by split.
  - intros (c & t & tok & Hrtc & Hc & Ht & Hpar).
    induction Hrtc as [p|p p' c Hlink _ IH].
    + eapply unwraps_token; [done..|]. rewrite Hpar. constructor.
    + destruct Hlink as [p0 t' tok' q Hp Ht' Hpar'].
      eapply unwraps_token; [done..|]. rewrite Hpar'. by apply IH.
Qed.

Lemma tc_first_link st x z :
  tc (parent_link st) x z →
  ∃ y, parent_link st x y ∧ rtc (parent_link st) y z.
Proof.
  intros [x' z' Hlink|x' y z' Hlink Htc].
  - by exists z'.
  - exists y. split; [done|]. by apply tc_rtc.
Qed.

Lemma chain_cyclic_step st p :
  chain_cyclic st p → ∃ p', parent_link st p p' ∧ chain_cyclic st p'.
Proof.
  intros (c & Hrtc & Htc).
  destruct (rtc_inv _ _ Hrtc) as [->|(p' & Hlink & Hrtc')].
  - assert (∃ p', parent_link st c p' ∧ rtc (parent_link st) p' c)
      as (p' & Hlink & Hback).
    { by apply tc_first_link. }
    exists p'. split; [done|]. exists p'. split; [done|].
    eapply tc_rtc_l; [done|]. by apply tc_once.
  - exists p'. split; [done|]. by exists c.
Qed.

Lemma root_credentials_loop_cyclic st fuel p :
  chain_cyclic st p → root_credentials_loop fuel st (Some p) = Diverge.
Proof.
  revert p. induction fuel as [|fuel IH]; intros p Hcyc; [done|].
  destruct (chain_cyclic_step _ _ Hcyc) as (p' & [c t tok q Hc Ht Hpar] & Hcyc').
  cbn [root_credentials_loop]. rewrite Hc, Ht, Hpar. by apply IH.
Qed.

(** C9: [Token.root_credentials()] walks the parent chain.  It returns the
    credential [c] exactly when the chain of parent links from the token's
    parent reaches [c] and [c] is not token-derived, and it returns none
    exactly when the token has no parent or the chain reaches a token that
    has none; a result does not depend on how long the loop is allowed to
    run.  The loop has no bound: when the chain runs into a cycle it is
    still running after any number of iterations.  In the states that the
    operations lead to every chain ends, so the call returns. *)
Theorem Token_root_credentials_chain (st : State) (tok : Token) :
  (∀ c, (∃ fuel, Token_root_credentials fuel st tok = Done (Some c)) ↔
        ∃ p, parent_credentials tok = Some p ∧ chain_reaches st p c) ∧
  ((∃ fuel, Token_root_credentials fuel st tok = Done None) ↔
   parent_credentials tok = None ∨
   ∃ p, parent_credentials tok = Some p ∧ chain_ends_in_none st p) ∧
  (∀ fuel fuel' r,
     Token_root_credentials fuel st tok = Done r → (fuel ≤ fuel')%nat →
     Token_root_credentials fuel' st tok = Done r) ∧
  (∀ p, parent_credentials tok = Some p → chain_cyclic st p →
        ∀ fuel, Token_root_credentials fuel st tok = Diverge) ∧
  (∀ t, reachable st → token_objs st !! t = Some tok →
        ∃ fuel r, Token_root_credentials fuel st tok = Done r).
Proof.
  unfold Token_root_credentials.
  assert (Hiff : ∀ r, (∃ fuel, root_credentials_loop fuel st (parent_credentials tok) = Done r) ↔
                      Unwraps st (parent_credentials tok) r).
  { intros r. split.
    - intros [fuel H]. by eapply root_credentials_loop_Unwraps.
    - intros H. destruct (Unwraps_root_credentials_loop _ _ _ H) as [fuel Hf].
      exists fuel. by apply Hf. }
  split.
  { intros c. rewrite Hiff. destruct (parent_credentials tok) as [p|].
    - rewrite Unwraps_chain_reaches. split; [by exists p|].
      by intros (p' & [= <-] & H).
    - split; [inversion 1|]. by intros (p & ? & _). }
  split.
  { rewrite Hiff. destruct (parent_credentials tok) as [p|].
    - rewrite Unwraps_chain_ends_in_none. split; [right; by exists p|].
      by intros [?|(p' & [= <-] & H)].
    - split; [by left|]. intros _. constructor. }
  split.
  { intros fuel fuel' r H Hle. by eapply root_credentials_loop_mono. }
  split.
  { intros p -> Hcyc fuel. by apply root_credentials_loop_cyclic. }
  intros t Hreach Ht.
  destruct (wf_token_chain st t tok (reachable_wf _ Hreach) Ht) as [r Hr].
  destruct (Unwraps_root_credentials_loop _ _ _ Hr) as [fuel Hf].
  exists fuel, r. by apply Hf.
Qed.

Lemma Token_root_credentials_chain_witness :
  (∃ fuel, Token_root_credentials fuel orphan_state orphan_token = Done None) ∧
  (∃ fuel, Token_root_credentials fuel orphan_state orphan_child_token = Done None) ∧
  (∃ fuel, Token_root_credentials fuel demo_state_token_login demo_token =
           Done (Some 0)) ∧
  Token_root_credentials 7 demo_state_token_login demo_token = Done (Some 0) ∧
  (∀ fuel, Token_root_credentials fuel cyclic_state cyclic_token = Diverge) ∧
  (∃ fuel r, Token_root_credentials fuel demo_state_token_login demo_token = Done r).
Proof.
  split.
  { apply (Token_root_credentials_chain orphan_state orphan_token). by left. }
  split.
  { apply (Token_root_credentials_chain orphan_state orphan_child_token).
    right. exists 0. split; [reflexivity|].
    exists 0, 0, orphan_token. split; [apply rtc_refl|].
    split; [vm_compute; reflexivity|]. split; [vm_compute; reflexivity|reflexivity]. }
  split.
  { apply (Token_root_credentials_chain demo_state_token_login demo_token).
    exists 0. split; [reflexivity|]. split; [apply rtc_refl|].
    exists demo_credentials. split; [vm_compute; reflexivity|reflexivity]. }
  split.
  { apply (Token_root_credentials_chain demo_state_token_login demo_token)
      with (fuel := 1%nat); [vm_compute; reflexivity|lia]. }
  split.
  { apply (Token_root_credentials_chain cyclic_state cyclic_token) with (p := 0);
      [reflexivity|].
    exists 0. split; [apply rtc_refl|]. apply tc_once.
    by apply (parent_link_intro cyclic_state 0 0 cyclic_token 0). }
  apply (Token_root_credentials_chain demo_state_token_login demo_token) with (t := 0).
  - apply state_after_reachable.
  - vm_compute; reflexivity.
Defined.
